(** * Snowfy loudness normalizer (src/renderer/loudness-normalizer.js)

    A shallow embedding of the closure created by [LoudnessNormalizer(audioA,
    audioB)]: the BS.1770 measurement ([applyBiquad], [measureLUFS]), the gain
    computation ([computeGain]) and the stateful facade ([analyzeLUFS],
    [applyGain], [analyzeAndApply], [setEnabled], ...).

    Numbers.  JavaScript numbers are modelled by the real numbers [R]; the one
    non-finite value the code produces on purpose, the [-Infinity] loudness of
    silence, is a constructor of its own.  NaN and overflow are outside the
    model.  The functions are embedded twice where rounding matters: once
    with every operator read as the exact operation, and once, in [Float64],
    with the rounding of IEEE-754 doubles written out after every operation.
    Statements whose truth depends on the rounding (the peak ceiling, the
    range of the gain, the minutes of a duration, the symmetry of the
    filter) are made of the second; the exact reading carries the structure
    of the measurement and of the state machine.

    Promises.  The source is single threaded with run-to-completion
    semantics, so every synchronous segment of an [async] function is one
    atomic state transformer.  A pending promise is a number; the closures
    suspended at an [await] are kept in the state and resumed by events of
    the transition system [step]. *)

From Stdlib Require Import Reals Lra Lia ZArith List Ascii.
From stdpp Require Import base option list gmap strings pretty.

(** ** JavaScript arithmetic *)

Module JS.

Definition Math_log10 (x : R) : R := (ln x / ln 10)%R.

Definition Math_pow (base exponent : R) : R := Rpower base exponent.

(** [Math.round] rounds half-way cases towards +Infinity. *)
Definition Math_round (x : R) : Z := Zfloor (x + / 2)%R.

Definition Math_abs (x : R) : R := Rabs x.

End JS.
Import JS.

#[global] Instance Rgt_decision (x y : R) : Decision (x > y)%R := Rgt_dec x y.
#[global] Instance Req_decision : EqDecision R := Req_dec_T.

(** ** Constants *)

Definition DEFAULT_TARGET : R := (-14)%R.
Definition RAMP_TIME : R := 0.4%R.
Definition PEAK_CEILING : R := (-0.5)%R.
Definition BLOCK_DURATION : R := 0.4%R.
Definition BLOCK_OVERLAP : R := 0.75%R.
Definition ABSOLUTE_GATE : R := (-70)%R.
Definition RELATIVE_GATE : R := (-10)%R.

(** One biquad section: the arrays [b] and [a] of the source. *)
Record Biquad := { b : list R; a : list R }.
Record KWeight := { shelf : Biquad; hp : Biquad }.

Definition K_WEIGHTS_48000 : KWeight :=
  {| shelf := {| b := [1.53512485958697; -2.69169618940638; 1.19839281085285]%R;
                 a := [1; -1.69065929318241; 0.73248077421585]%R |};
     hp := {| b := [1.0; -2.0; 1.0]%R;
              a := [1; -1.99004745483398; 0.99007225036621]%R |} |}.

Definition K_WEIGHTS_44100 : KWeight :=
  {| shelf := {| b := [1.53090959966428; -2.65116903469122; 1.16903097776360]%R;
                 a := [1; -1.66363794709474; 0.71238064688380]%R |};
     hp := {| b := [1.0; -2.0; 1.0]%R;
              a := [1; -1.98916967210520; 0.98919159781614]%R |} |}.

(** ** Data *)

(** The [lufs] field: a finite number or the [-Infinity] sentinel. *)
Inductive Loudness :=
  | NegInfinity
  | Finite (l : R).

Record Measurement := { lufs : Loudness; peak : R }.

(** A decoded [AudioBuffer].  [frames] is the source's [length];
    [numberOfChannels] is the number of channel arrays. *)
Record AudioBuffer := {
  sampleRate : Z;
  frames : Z;
  getChannelData : list (list R)
}.

Definition numberOfChannels (audioBuffer : AudioBuffer) : nat :=
  length (getChannelData audioBuffer).

(** Every channel array of a real [AudioBuffer] has [length] samples. *)
Definition wellFormed (audioBuffer : AudioBuffer) : Prop :=
  (0 <= frames audioBuffer)%Z /\
  Forall (fun data => Z.of_nat (length data) = frames audioBuffer)
         (getChannelData audioBuffer).

(** ** K-weighting *)

Definition getKWeightCoeffs (sampleRate : Z) : KWeight :=
  if (sampleRate =? 48000)%Z then K_WEIGHTS_48000
  else if (sampleRate =? 44100)%Z then K_WEIGHTS_44100
  else K_WEIGHTS_48000.

(** The loop of [applyBiquad], carrying the filter state [z1], [z2]. *)
Fixpoint biquadLoop (b a : list R) (z1 z2 : R) (samples : list R) : list R :=
  match samples with
  | [] => []
  | x :: rest =>
      let y := (nth 0 b 0 * x + z1)%R in
      y :: biquadLoop b a
             (nth 1 b 0 * x - nth 1 a 0 * y + z2)%R
             (nth 2 b 0 * x - nth 2 a 0 * y)%R
             rest
  end.

Definition applyBiquad (samples b a : list R) : list R :=
  biquadLoop b a 0%R 0%R samples.

(** ** BS.1770 measurement *)

Definition channelWeight (numChannels : nat) : list R :=
  map (fun ch => if (3 <=? ch)%nat then 1.41%R else 1.0%R) (seq 0 numChannels).

Definition kWeighted (audioBuffer : AudioBuffer) : list (list R) :=
  let coeffs := getKWeightCoeffs (sampleRate audioBuffer) in
  map (fun data =>
         applyBiquad (applyBiquad data (b (shelf coeffs)) (a (shelf coeffs)))
                     (b (hp coeffs)) (a (hp coeffs)))
      (getChannelData audioBuffer).

Definition blockSamples (sampleRate : Z) : Z :=
  Math_round (BLOCK_DURATION * IZR sampleRate)%R.

Definition stepSamples (sampleRate : Z) : Z :=
  Math_round (IZR (blockSamples sampleRate) * (1 - BLOCK_OVERLAP))%R.

(** [for (i = start; i < start + blockSamples; i++) sumSq += data[i]*data[i]];
    [n] counts the iterations left.  An index past the end of [data] cannot
    occur for a well-formed buffer (the block fits, see [block_is_full]); it
    reads 0 here. *)
Fixpoint sumSqLoop (data : list R) (i n : nat) (sumSq : R) : R :=
  match n with
  | O => sumSq
  | S n' => sumSqLoop data (S i) n' (sumSq + nth i data 0%R * nth i data 0%R)%R
  end.

(** The loop over the channels of one block. *)
Fixpoint channelLoop (weights : list R) (kw : list (list R))
         (start blockSamples : Z) (blockPower : R) : R :=
  match weights, kw with
  | w :: weights', data :: kw' =>
      let sumSq := sumSqLoop data (Z.to_nat start) (Z.to_nat blockSamples) 0%R in
      channelLoop weights' kw' start blockSamples
                  (blockPower + w * (sumSq / IZR blockSamples))%R
  | _, _ => blockPower
  end.

Definition blockPowerAt (weights : list R) (kw : list (list R))
           (blockSamples start : Z) : R :=
  channelLoop weights kw start blockSamples 0%R.

(** [for (start = 0; start + blockSamples <= length; start += stepSamples)].
    The loop does not terminate when [stepSamples] is 0 and a block fits;
    [None] stands for that. *)
Fixpoint blockLoop (fuel : nat) (weights : list R) (kw : list (list R))
         (blockSamples stepSamples len start : Z) : option (list R) :=
  if (start + blockSamples <=? len)%Z then
    match fuel with
    | O => None
    | S fuel' =>
        rest ← blockLoop fuel' weights kw blockSamples stepSamples len
                         (start + stepSamples)%Z;
        Some (blockPowerAt weights kw blockSamples start :: rest)
    end
  else Some [].

Definition blocksOf (audioBuffer : AudioBuffer) : option (list R) :=
  blockLoop (S (Z.to_nat (frames audioBuffer)))
            (channelWeight (numberOfChannels audioBuffer))
            (kWeighted audioBuffer)
            (blockSamples (sampleRate audioBuffer))
            (stepSamples (sampleRate audioBuffer))
            (frames audioBuffer) 0%Z.

Definition absThreshold : R := Math_pow 10 ((ABSOLUTE_GATE + 0.691) / 10)%R.

(** [blocks.reduce((s, p) => s + p, 0) / blocks.length] *)
Definition meanOf (blocks : list R) : R :=
  (fold_left Rplus blocks 0 / INR (length blocks))%R.

Definition loudnessOf (mean : R) : R := (-0.691 + 10 * Math_log10 mean)%R.

Definition relThreshold (ungatedLUFS : R) : R :=
  Math_pow 10 ((ungatedLUFS + RELATIVE_GATE + 0.691) / 10)%R.

(** The body of the inner peak loop: [if (abs > peak) peak = abs]. *)
Definition peakStep (peak x : R) : R :=
  let abs := Math_abs x in
  if decide (abs > peak)%R then abs else peak.

(** The sample peak of the original (not K-weighted) buffer. *)
Definition samplePeak (audioBuffer : AudioBuffer) : R :=
  fold_left (fun peak data => fold_left peakStep data peak)
            (getChannelData audioBuffer) 0%R.

(** Lines 125-154 of the source: the two gates over the block powers.
    [peakOfBuffer] is what the final peak loop computes; it is only used on
    the last path. *)
Definition gateBlocks (blocks : list R) (peakOfBuffer : R) : Measurement :=
  match blocks with
  | [] => {| lufs := NegInfinity; peak := 0 |}
  | _ =>
      let ungated := filter (fun p => (p > absThreshold)%R) blocks in
      match ungated with
      | [] => {| lufs := NegInfinity; peak := 0 |}
      | _ =>
          let ungatedLUFS := loudnessOf (meanOf ungated) in
          let gated := filter (fun p => (p > relThreshold ungatedLUFS)%R) blocks in
          match gated with
          | [] => {| lufs := Finite ungatedLUFS; peak := 0 |}
          | _ => {| lufs := Finite (loudnessOf (meanOf gated));
                    peak := peakOfBuffer |}
          end
      end
  end.

Definition measureLUFS (audioBuffer : AudioBuffer) : option Measurement :=
  blocks ← blocksOf audioBuffer;
  Some (gateBlocks blocks (samplePeak audioBuffer)).

(** ** The closure state and its environment *)

(** The two media elements the closure was created with, and any other
    element a caller may pass. *)
Inductive AudioEl := audioA | audioB | audioOther.

Inductive Lane := LaneA | LaneB.

(** One [gain.setTargetAtTime(target, startTime, timeConstant)] call. *)
Record Ramp := { rampTarget : R; rampStart : R; rampTimeConstant : R }.

(** A [GainNode]: the automation events scheduled on its [gain] parameter,
    newest first.  A fresh node has none and plays at its default gain 1. *)
Definition GainNode := list Ramp.

Record AudioContext := { currentTime : R }.

Definition PromiseId := nat.

(** What a call of the [async] function [analyzeLUFS] hands back: a promise
    already fulfilled with a cached measurement, or one that follows the
    pending promise [p] of a running analysis. *)
Inductive Outcome :=
  | Now (m : Measurement)
  | Join (p : PromiseId).

(** An [analyzeAndApply] call suspended at [await analyzeLUFS(url, trackId)]. *)
Record Suspended := {
  susEl : AudioEl;
  susUrl : string;
  susTrackId : string;
  susAwait : Outcome
}.

(** An analysis closure suspended inside [analyzeLUFS]. *)
Record Job := { jobUrl : string; jobTrackId : string }.

Record State := mkState {
  (* variables of the closure *)
  _enabled : bool;
  _target : R;
  _audioCtx : option AudioContext;
  _gainA : option GainNode;
  _gainB : option GainNode;
  _cache : gmap string Measurement;
  _inflight : gmap string PromiseId;
  (* the host: [audioEl.src] of the elements *)
  srcA : string;
  srcB : string;
  srcOther : string;
  (* the JavaScript runtime: promises and suspended closures *)
  nextPromise : PromiseId;
  jobs : gmap PromiseId Job;
  settled : gmap PromiseId (option Measurement);
  suspended : list Suspended;
  (* every [fetch(url)] issued so far, oldest first *)
  fetched : list (PromiseId * string)
}.

Definition initial : State :=
  {| _enabled := false; _target := DEFAULT_TARGET; _audioCtx := None;
     _gainA := None; _gainB := None; _cache := ∅; _inflight := ∅;
     srcA := EmptyString; srcB := EmptyString; srcOther := EmptyString;
     nextPromise := 0; jobs := ∅; settled := ∅; suspended := [];
     fetched := [] |}.

Definition src (s : State) (audioEl : AudioEl) : string :=
  match audioEl with
  | audioA => srcA s
  | audioB => srcB s
  | audioOther => srcOther s
  end.

(** *** Field updates *)

Definition withEnabled (v : bool) (s : State) : State :=
  mkState v (_target s) (_audioCtx s) (_gainA s) (_gainB s) (_cache s)
          (_inflight s) (srcA s) (srcB s) (srcOther s) (nextPromise s)
          (jobs s) (settled s) (suspended s) (fetched s).

Definition withTarget (v : R) (s : State) : State :=
  mkState (_enabled s) v (_audioCtx s) (_gainA s) (_gainB s) (_cache s)
          (_inflight s) (srcA s) (srcB s) (srcOther s) (nextPromise s)
          (jobs s) (settled s) (suspended s) (fetched s).

Definition withAudio (ctx : option AudioContext) (gA gB : option GainNode)
           (s : State) : State :=
  mkState (_enabled s) (_target s) ctx gA gB (_cache s)
          (_inflight s) (srcA s) (srcB s) (srcOther s) (nextPromise s)
          (jobs s) (settled s) (suspended s) (fetched s).

Definition withMaps (cache : gmap string Measurement)
           (inflight : gmap string PromiseId) (s : State) : State :=
  mkState (_enabled s) (_target s) (_audioCtx s) (_gainA s) (_gainB s) cache
          inflight (srcA s) (srcB s) (srcOther s) (nextPromise s)
          (jobs s) (settled s) (suspended s) (fetched s).

Definition withSrc (audioEl : AudioEl) (url : string) (s : State) : State :=
  mkState (_enabled s) (_target s) (_audioCtx s) (_gainA s) (_gainB s)
          (_cache s) (_inflight s)
          (if audioEl is audioA then url else srcA s)
          (if audioEl is audioB then url else srcB s)
          (if audioEl is audioOther then url else srcOther s)
          (nextPromise s) (jobs s) (settled s) (suspended s) (fetched s).

Definition withRuntime (next : PromiseId) (js : gmap PromiseId Job)
           (done : gmap PromiseId (option Measurement))
           (fs : list (PromiseId * string)) (s : State) : State :=
  mkState (_enabled s) (_target s) (_audioCtx s) (_gainA s) (_gainB s)
          (_cache s) (_inflight s) (srcA s) (srcB s) (srcOther s)
          next js done (suspended s) fs.

Definition withSuspended (ws : list Suspended) (s : State) : State :=
  mkState (_enabled s) (_target s) (_audioCtx s) (_gainA s) (_gainB s)
          (_cache s) (_inflight s) (srcA s) (srcB s) (srcOther s)
          (nextPromise s) (jobs s) (settled s) ws (fetched s).

(** ** Audio context and gain nodes *)

Definition initAudioContext (s : State) : State :=
  match _audioCtx s with
  | Some _ => s
  | None => withAudio (Some {| currentTime := 0 |}) (Some []) (Some []) s
  end.

(** The node is returned together with the lane it belongs to, so that a
    write through the returned reference can be put back in place. *)
Definition getGainNode (s : State) (audioEl : AudioEl) : option (Lane * GainNode) :=
  match _audioCtx s with
  | None => None
  | Some _ =>
      match audioEl with
      | audioA => node ← _gainA s; Some (LaneA, node)
      | audioB => node ← _gainB s; Some (LaneB, node)
      | audioOther => None
      end
  end.

Definition now (s : State) : R :=
  match _audioCtx s with
  | Some ctx => currentTime ctx
  | None => 0%R
  end.

(** [node.gain.setTargetAtTime(target, _audioCtx.currentTime, timeConstant)] *)
Definition setTargetAtTime (lane : Lane) (node : GainNode)
           (target timeConstant : R) (s : State) : State :=
  let node' := {| rampTarget := target; rampStart := now s;
                  rampTimeConstant := timeConstant |} :: node in
  match lane with
  | LaneA => withAudio (_audioCtx s) (Some node') (_gainB s) s
  | LaneB => withAudio (_audioCtx s) (_gainA s) (Some node') s
  end.

(** ** Gain computation *)

(** [pk || 1e-10]: a peak of 0 is falsy and replaced by the floor. *)
Definition peakOrFloor (pk : R) : R :=
  if decide (pk = 0%R) then 1e-10%R else pk.

(** The gain in dB after the peak-ceiling cap (lines 195-199), for cached
    [data] of finite loudness [l]. *)
Definition cappedGainDB (target : R) (data : Measurement) (l : R) : R :=
  let gainDB := (target - l)%R in
  let peakDBFS := (20 * Math_log10 (peakOrFloor (peak data)))%R in
  let maxGainDB := (PEAK_CEILING - peakDBFS)%R in
  if decide (gainDB > maxGainDB)%R then maxGainDB else gainDB.

Definition computeGain (s : State) (trackId : string) : R :=
  match _cache s !! trackId with
  | None => 1.0%R
  | Some data =>
      match lufs data with
      | NegInfinity => 1.0%R
      | Finite l =>
          let gainDB := cappedGainDB (_target s) data l in
          if decide (gainDB > 24)%R then 1.0%R
          else Math_pow 10 (gainDB / 20)
      end
  end.

(** ** Apply / reset *)

Definition applyGain (audioEl : AudioEl) (trackId : string) (s : State) : State :=
  if negb (_enabled s) || negb (bool_decide (is_Some (_audioCtx s))) then s
  else match getGainNode s audioEl with
       | None => s
       | Some (lane, node) =>
           setTargetAtTime lane node (computeGain s trackId) (RAMP_TIME / 3) s
       end.

Definition resetGain (audioEl : AudioEl) (s : State) : State :=
  match _audioCtx s with
  | None => s
  | Some _ =>
      match getGainNode s audioEl with
      | None => s
      | Some (lane, node) => setTargetAtTime lane node 1.0 (RAMP_TIME / 3) s
      end
  end.

(** ** Analysis *)

(** What the network and the decoder answer to one analysis: the three
    [await]s of the closure either all succeed with a decoded buffer, or one
    of them throws. *)
Inductive NetResult :=
  | FetchError                      (* [fetch(url)] rejects *)
  | NotOk (status : Z)              (* [!response.ok] *)
  | BodyError                       (* [response.arrayBuffer()] rejects *)
  | DecodeError                     (* [decodeAudioData] rejects *)
  | Decoded (audioBuffer : AudioBuffer).

(** The synchronous part of [analyzeLUFS(url, trackId)]: the two lookups
    and, when both miss, the start of the closure (which runs up to its
    [await fetch(url)]) and [_inflight.set(trackId, promise)]. *)
Definition analyzeLUFS (url trackId : string) (s : State) : Outcome * State :=
  match _cache s !! trackId with
  | Some m => (Now m, s)
  | None =>
      match _inflight s !! trackId with
      | Some p => (Join p, s)
      | None =>
          let p := nextPromise s in
          let s1 := withRuntime (S p)
                      (<[p := {| jobUrl := url; jobTrackId := trackId |}]> (jobs s))
                      (settled s) (fetched s ++ [(p, url)]) s in
          (Join p, withMaps (_cache s1) (<[trackId := p]> (_inflight s1)) s1)
      end
  end.

(** The rest of the closure started by [analyzeLUFS], run when its last
    [await] is answered: [try] body, [catch], [finally].  The promise [p] is
    fulfilled with the measurement or with [null] ([None]); it never rejects.
    There is no transition when [measureLUFS] does not return. *)
Definition settle (p : PromiseId) (net : NetResult) (s : State) : option State :=
  job ← jobs s !! p;
  let trackId := jobTrackId job in
  match net with
  | Decoded audioBuffer =>
      result ← measureLUFS audioBuffer;
      let s1 := withMaps (<[trackId := result]> (_cache s)) (_inflight s) s in
      let s2 := withMaps (_cache s1) (delete trackId (_inflight s1)) s1 in
      Some (withRuntime (nextPromise s2) (delete p (jobs s2))
                        (<[p := Some result]> (settled s2)) (fetched s2) s2)
  | _ =>
      let s2 := withMaps (_cache s) (delete trackId (_inflight s)) s in
      Some (withRuntime (nextPromise s2) (delete p (jobs s2))
                        (<[p := None]> (settled s2)) (fetched s2) s2)
  end.

(** The value an awaited [Outcome] resolves to, once it is available. *)
Definition resolution (s : State) (o : Outcome) : option (option Measurement) :=
  match o with
  | Now m => Some (Some m)
  | Join p => settled s !! p
  end.

(** [analyzeAndApply] up to its [await]. *)
Definition analyzeAndApply (audioEl : AudioEl) (url trackId : string)
           (s : State) : State :=
  if negb (_enabled s) then s
  else
    let s := if bool_decide (is_Some (_audioCtx s)) then s else initAudioContext s in
    if bool_decide (is_Some (_cache s !! trackId)) then applyGain audioEl trackId s
    else
      let s := match getGainNode s audioEl with
               | Some (lane, node) => setTargetAtTime lane node 1.0 0.05 s
               | None => s
               end in
      let '(o, s) := analyzeLUFS url trackId s in
      withSuspended (suspended s ++
                       [{| susEl := audioEl; susUrl := url;
                           susTrackId := trackId; susAwait := o |}]) s.

(** [analyzeAndApply] after its [await], with the awaited [result]. *)
Definition analyzeAndApply_resume (audioEl : AudioEl) (url trackId : string)
           (result : option Measurement) (s : State) : State :=
  match result with
  | None => s
  | Some _ =>
      if negb (bool_decide (src s audioEl = EmptyString)) && bool_decide (src s audioEl = url)
      then applyGain audioEl trackId s
      else s
  end.

Definition preAnalyze (url trackId : string) (s : State) : State :=
  if negb (_enabled s) then s
  else if bool_decide (is_Some (_cache s !! trackId))
          || bool_decide (is_Some (_inflight s !! trackId)) then s
  else snd (analyzeLUFS url trackId s).

(** ** Configuration *)

Definition setEnabled (val : bool) (s : State) : State :=
  let s := withEnabled val s in
  if negb (_enabled s) then resetGain audioB (resetGain audioA s) else s.

Definition setTarget (l : R) (s : State) : State := withTarget l s.

Definition clearCache (s : State) : State := withMaps ∅ ∅ s.

Definition destroy (s : State) : State :=
  let s := clearCache s in
  match _audioCtx s with
  | Some _ => withAudio None (_gainA s) (_gainB s) s
  | None => s
  end.

(** ** The transition system *)

Inductive Event :=
  (* the public API *)
  | CallInitAudioContext
  | CallSetEnabled (val : bool)
  | CallSetTarget (l : R)
  | CallAnalyzeAndApply (audioEl : AudioEl) (url trackId : string)
  | CallPreAnalyze (url trackId : string)
  | CallApplyGain (audioEl : AudioEl) (trackId : string)
  | CallResetGain (audioEl : AudioEl)
  | CallClearCache
  | CallDestroy
  (* the runtime *)
  | Settle (p : PromiseId) (net : NetResult)
  | Resume (k : nat)
  (* the host *)
  | SetSrc (audioEl : AudioEl) (url : string)
  | Tick (dt : R).

Definition advance (dt : R) (s : State) : State :=
  match _audioCtx s with
  | Some ctx => withAudio (Some {| currentTime := currentTime ctx + dt |})
                          (_gainA s) (_gainB s) s
  | None => s
  end.

(** The [k]-th suspended [analyzeAndApply] continues, provided the promise it
    awaits has been fulfilled. *)
Definition resume (k : nat) (s : State) : option State :=
  w ← suspended s !! k;
  result ← resolution s (susAwait w);
  Some (analyzeAndApply_resume (susEl w) (susUrl w) (susTrackId w) result
          (withSuspended (delete k (suspended s)) s)).

Definition step (e : Event) (s : State) : option State :=
  match e with
  | CallInitAudioContext => Some (initAudioContext s)
  | CallSetEnabled val => Some (setEnabled val s)
  | CallSetTarget l => Some (setTarget l s)
  | CallAnalyzeAndApply audioEl url trackId =>
      Some (analyzeAndApply audioEl url trackId s)
  | CallPreAnalyze url trackId => Some (preAnalyze url trackId s)
  | CallApplyGain audioEl trackId => Some (applyGain audioEl trackId s)
  | CallResetGain audioEl => Some (resetGain audioEl s)
  | CallClearCache => Some (clearCache s)
  | CallDestroy => Some (destroy s)
  | Settle p net => settle p net s
  | Resume k => resume k s
  | SetSrc audioEl url => Some (withSrc audioEl url s)
  | Tick dt => if decide (dt > 0)%R then Some (advance dt s) else None
  end.

Fixpoint run (es : list Event) (s : State) : option State :=
  match es with
  | [] => Some s
  | e :: es' => s' ← step e s; run es' s'
  end.

(** Events that empty the dedup maps under a running analysis. *)
Definition clears (e : Event) : bool :=
  match e with
  | CallClearCache | CallDestroy => true
  | _ => false
  end.

(** [n] calls of [analyzeLUFS] for one identifier issued back to back, as
    by [Promise.all([analyzeLUFS(u1, id), analyzeLUFS(u2, id), ...])]. *)
Fixpoint analyzeMany (urls : list string) (trackId : string) (s : State)
  : list Outcome * State :=
  match urls with
  | [] => ([], s)
  | url :: urls' =>
      let '(o, s1) := analyzeLUFS url trackId s in
      let '(os, s2) := analyzeMany urls' trackId s1 in
      (o :: os, s2)
  end.

(** The dedup maps agree with the analyses that are really running: every
    running analysis is the in-flight entry of its identifier and every
    in-flight entry is a running analysis; an identifier is never cached and
    in flight at once; promise numbers not yet handed out are unused. *)
Record consistent (s : State) : Prop := {
  job_registered :
    forall p job, jobs s !! p = Some job -> _inflight s !! jobTrackId job = Some p;
  inflight_running :
    forall trackId p, _inflight s !! trackId = Some p ->
                      exists job, jobs s !! p = Some job /\ jobTrackId job = trackId;
  cached_not_inflight :
    forall trackId, is_Some (_cache s !! trackId) -> _inflight s !! trackId = None;
  promise_fresh :
    forall p, (nextPromise s <= p)%nat -> jobs s !! p = None
}.

(** The failures of an analysis: everything but a decoded buffer. *)
Definition failed (net : NetResult) : bool :=
  match net with
  | Decoded _ => false
  | _ => true
  end.

(** The ramp [resetGain] schedules. *)
Definition unityRamp (ctx : AudioContext) : Ramp :=
  {| rampTarget := 1.0; rampStart := currentTime ctx;
     rampTimeConstant := (RAMP_TIME / 3)%R |}.

(** ** The block powers in the words of BS.1770

    A second description of what the block loops compute, to compare the
    loops with: the mean of the squared samples of a block, weighted per
    channel and summed. *)

Definition sumSquares (xs : list R) : R :=
  fold_right (fun x acc => (x * x + acc)%R) 0%R xs.

Definition meanSquare (data : list R) (start blockSamples : Z) : R :=
  (sumSquares (take (Z.to_nat blockSamples) (drop (Z.to_nat start) data))
   / IZR blockSamples)%R.

Definition weightedPower (weights : list R) (kw : list (list R))
           (blockSamples start : Z) : R :=
  fold_right Rplus 0%R
    (zip_with (fun w data => (w * meanSquare data start blockSamples)%R) weights kw).

(** ** Example inputs *)

(** 0.4 s of mono audio at 48 kHz: silence that ends in one sample [c]. *)
Definition silenceThenClick (n : nat) (c : R) : list R := replicate n 0%R ++ [c].

Definition clickBuffer (c : R) : AudioBuffer :=
  {| sampleRate := 48000; frames := 19200;
     getChannelData := [silenceThenClick (Z.to_nat 19199) c] |}.

(** A faint click of 0.01 and a full-scale one. *)
Definition click : AudioBuffer := clickBuffer 0.01%R.
Definition loudClick : AudioBuffer := clickBuffer 1%R.

(** The power of the only block of [clickBuffer c]. *)
Definition clickPower (c : R) : R :=
  ((1.53512485958697 * c) * (1.53512485958697 * c) / 19200)%R.

(** A single sample of 0.5 at 48 kHz: shorter than one block. *)
Definition shortBlip : AudioBuffer :=
  {| sampleRate := 48000; frames := 1; getChannelData := [[0.5%R]] |}.

(** ** The rest of the public API *)

Definition isEnabled (s : State) : bool := _enabled s.

Definition getTarget (s : State) : R := _target s.

(** [_cache.get(trackId) || null] *)
Definition getCachedLUFS (s : State) (trackId : string) : option Measurement :=
  _cache s !! trackId.

(** ** main.js: track metadata helpers

    The values these helpers receive from the catalogue: a duration or a
    width is [undefined], [null], [NaN] or a finite number. *)

Inductive JSValue :=
  | Undefined
  | Null
  | NaN
  | Number (x : R).

Definition Math_floor (x : R) : Z := Zfloor x.

(** Truncation towards zero, and with it the remainder operator [x % y]
    of finite numbers, whose result has the sign of [x]. *)
Definition truncate (x : R) : Z :=
  if decide (0 <= x)%R then Zfloor x else Zceil x.

Definition remainder (x y : R) : R := (x - y * IZR (truncate (x / y)))%R.

(** [String(n)] of an integral number [n] under [2^53] in magnitude: its
    decimal digits.  (Above, JavaScript prints the shortest digits that read
    back as the same double, and from 1e21 on exponent notation; neither is
    modelled.) *)
Definition Number_toString (n : Z) : string := pretty n.

(** [str.padStart(targetLength, padString)] *)
Definition padStart (targetLength : nat) (padString str : string) : string :=
  let fillLen := (targetLength - String.length str)%nat in
  if decide (fillLen = 0%nat \/ padString = EmptyString) then str
  else
    String.substring 0 fillLen (String.concat EmptyString (replicate fillLen padString))
    +:+ str.

Definition formatDuration (seconds : JSValue) : string :=
  match seconds with
  | Number x =>
      if decide (x = 0%R) then "0:00"
      else
        let m := Math_floor (x / 60) in
        let s := Math_floor (remainder x 60) in
        Number_toString m +:+ ":" +:+ padStart 2 "0" (Number_toString s)
  | _ => "0:00"
  end.

(** A thumbnail object: [url] may be missing. *)
Record Thumbnail := { thumbUrl : option string; thumbWidth : JSValue }.

(** [t.width || 0] *)
Definition widthOrZero (t : Thumbnail) : R :=
  match thumbWidth t with
  | Number x => x
  | _ => 0%R
  end.

(** [Array.prototype.sort] with a comparator: the sort is stable, and for a
    consistent comparator its result is determined; insertion from the right
    computes it. *)
Fixpoint insertSorted {A : Type} (compareFn : A -> A -> R) (x : A)
         (sorted : list A) : list A :=
  match sorted with
  | [] => [x]
  | y :: rest =>
      if decide (compareFn x y > 0)%R then y :: insertSorted compareFn x rest
      else x :: y :: rest
  end.

Definition Array_sort {A : Type} (compareFn : A -> A -> R) (l : list A) : list A :=
  fold_right (insertSorted compareFn) [] l.

(** [thumbnails] is [undefined] ([None]) or an array. *)
Definition getBestThumbnail (thumbnails : option (list Thumbnail)) : string :=
  match thumbnails with
  | None | Some [] => EmptyString
  | Some l =>
      match Array_sort (fun a b => (widthOrZero b - widthOrZero a)%R) l with
      | t :: _ => match thumbUrl t with
                  | Some u => u
                  | None => EmptyString
                  end
      | [] => EmptyString
      end
  end.

(** Three thumbnails of one cover: a small one, one without a width, and two
    equally wide ones. *)
Definition coverThumbnails : list Thumbnail :=
  [ {| thumbUrl := Some "small"%string; thumbWidth := Number 60%R |};
    {| thumbUrl := Some "unsized"%string; thumbWidth := Undefined |};
    {| thumbUrl := Some "large"%string; thumbWidth := Number 544%R |};
    {| thumbUrl := Some "large2"%string; thumbWidth := Number 544%R |} ].

(** The seconds field of a formatted duration: two decimal digits. *)
Definition twoDigits (n : Z) : string :=
  if (n <? 10)%Z then "0" +:+ pretty n else pretty n.

(** ** Double-precision arithmetic

    The definitions above read every operator as the exact operation on
    real numbers.  The code computes in IEEE-754 binary64: the result of
    every [+ - * /] is rounded to the nearest double, [Math.log10] and
    [Math.pow] return a double near the exact value, and a store into a
    [Float32Array] rounds to the nearest binary32.  [Float64] describes
    that: an arithmetic [Arith] says how results are rounded, and the
    functions whose results depend on the rounding are embedded once more
    with the rounding of every operation written out, in the order in which
    JavaScript evaluates them.  Infinities and NaN are not values of the
    model: statements about an arithmetic bound the magnitudes involved by
    [Omega]. *)

Module Float64.

(** [2^e] *)
Definition bpow (e : Z) : R := powerRZ 2 e.

(** The binary exponent of [x]: [2^(ilog2 x) <= |x| < 2^(ilog2 x + 1)]. *)
Definition ilog2 (x : R) : Z := Zfloor (ln (Rabs x) / ln 2)%R.

(** Rounding to the nearest integer, ties to the even one. *)
Definition roundHalfEven (m : R) : Z :=
  let f := Zfloor m in
  if decide (/ 2 > m - IZR f)%R then f
  else if decide (m - IZR f > / 2)%R then (f + 1)%Z
  else if Z.even f then f else (f + 1)%Z.

(** Rounding to nearest, ties to even, in the binary format of [prec]
    significant bits whose smallest positive number is [2^emin]. *)
Definition roundTo (prec emin : Z) (x : R) : R :=
  let e := Z.max (ilog2 x - (prec - 1)) emin in
  (IZR (roundHalfEven (x * bpow (- e))) * bpow e)%R.

Definition round64 : R -> R := roundTo 53 (-1074).
Definition round32 : R -> R := roundTo 24 (-149).

(** How results are rounded: [fl] for an arithmetic operator, [Math_fround]
    for the store into a [Float32Array]; [Math_log10] and [Math_pow] are the
    two library functions the code calls. *)
Record Arith := {
  fl : R -> R;
  Math_fround : R -> R;
  Math_log10 : R -> R;
  Math_pow : R -> R -> R
}.

(** No rounding at all: the reading of the definitions above. *)
Definition exact : Arith :=
  {| fl := fun x => x;
     Math_fround := fun x => x;
     Math_log10 := JS.Math_log10;
     Math_pow := JS.Math_pow |}.

(** IEEE-754 binary64 with correctly rounded library functions. *)
Definition binary64 : Arith :=
  {| fl := round64;
     Math_fround := round32;
     Math_log10 := fun x => round64 (JS.Math_log10 x);
     Math_pow := fun base exponent => round64 (JS.Math_pow base exponent) |}.

(** Half the smallest positive double, and a bound under which no double
    operation overflows. *)
Definition eta : R := bpow (-1075).
Definition Omega : R := bpow 1023.

(** An arithmetic is accurate to [u] when every result is within the
    relative error [u] of the exact one (and within [eta] where it
    underflows), integers of up to 53 bits are not rounded, and [Math.pow]
    of 10 is never negative.  Binary64 is accurate to [2^-53]; a JavaScript
    engine whose [Math.log10] and [Math.pow] are good to one unit in the last
    place is accurate to [2^-52]. *)
Record Accurate (A : Arith) (u : R) : Prop := {
  fl_error :
    forall x, (Rabs x <= Omega)%R -> (Rabs (fl A x - x) <= u * Rabs x + eta)%R;
  fl_integer :
    forall n : Z, (Z.abs n <= 2 ^ 53)%Z -> fl A (IZR n) = IZR n;
  log10_error :
    forall x, (0 < x)%R -> (Rabs (JS.Math_log10 x) <= Omega)%R ->
      (Rabs (Math_log10 A x - JS.Math_log10 x)
       <= u * Rabs (JS.Math_log10 x) + eta)%R;
  pow_error :
    forall y, (JS.Math_pow 10 y <= Omega)%R ->
      (Rabs (Math_pow A 10 y - JS.Math_pow 10 y) <= u * JS.Math_pow 10 y + eta)%R;
  pow_nonneg :
    forall y, (0 <= Math_pow A 10 y)%R
}.

(** Rounding to nearest is symmetric: the rounding of [-x] is the negation
    of the rounding of [x]. *)
Record Symmetric (A : Arith) : Prop := {
  fl_opp : forall x, fl A (- x) = (- fl A x)%R;
  fround_opp : forall x, Math_fround A (- x) = (- Math_fround A x)%R
}.

(** *** [applyBiquad] in doubles

    [samples] is a [Float32Array]: [y] is a double, used as such for the
    filter state, and rounded to binary32 by [samples[i] = y]. *)
Fixpoint biquadLoop (A : Arith) (b a : list R) (z1 z2 : R) (samples : list R)
  : list R :=
  match samples with
  | [] => []
  | x :: rest =>
      let y := fl A (fl A (nth 0 b 0 * x) + z1)%R in
      Math_fround A y
        :: biquadLoop A b a
             (fl A (fl A (fl A (nth 1 b 0 * x) - fl A (nth 1 a 0 * y)) + z2))%R
             (fl A (fl A (nth 2 b 0 * x) - fl A (nth 2 a 0 * y)))%R
             rest
  end.

Definition applyBiquad (A : Arith) (samples b a : list R) : list R :=
  biquadLoop A b a 0%R 0%R samples.

(** *** [computeGain] in doubles *)

(** [pk || 1e-10]: the literal is the double nearest to [1e-10]. *)
Definition peakOrFloor (A : Arith) (pk : R) : R :=
  if decide (pk = 0%R) then fl A 1e-10%R else pk.

Definition cappedGainDB (A : Arith) (target : R) (data : Measurement) (l : R) : R :=
  let gainDB := fl A (target - l)%R in
  let peakDBFS := fl A (20 * Math_log10 A (peakOrFloor A (peak data)))%R in
  let maxGainDB := fl A (PEAK_CEILING - peakDBFS)%R in
  if decide (gainDB > maxGainDB)%R then maxGainDB else gainDB.

Definition computeGain (A : Arith) (s : State) (trackId : string) : R :=
  match _cache s !! trackId with
  | None => 1.0%R
  | Some data =>
      match lufs data with
      | NegInfinity => 1.0%R
      | Finite l =>
          let gainDB := cappedGainDB A (_target s) data l in
          if decide (gainDB > 24)%R then 1.0%R
          else Math_pow A 10 (fl A (gainDB / 20))
      end
  end.

(** *** [formatDuration] in doubles

    The quotient [seconds / 60] is rounded; the remainder [seconds % 60] of
    two doubles is a double and is not. *)
Definition formatDuration (A : Arith) (seconds : JSValue) : string :=
  match seconds with
  | Number x =>
      if decide (x = 0%R) then "0:00"
      else
        let m := Math_floor (fl A (x / 60)) in
        let s := Math_floor (remainder x 60) in
        Number_toString m +:+ ":" +:+ padStart 2 "0" (Number_toString s)
  | _ => "0:00"
  end.

End Float64.

(** ** Vocabulary for the properties *)

(** The buffer with every sample multiplied by [c]: what a gain of [c]
    does to the audio. *)
Definition scaleBuffer (c : R) (audioBuffer : AudioBuffer) : AudioBuffer :=
  {| sampleRate := sampleRate audioBuffer;
     frames := frames audioBuffer;
     getChannelData := map (map (Rmult c)) (getChannelData audioBuffer) |}.

(** The largest gain [computeGain] can return: 24 dB. *)
Definition maxBoost : R := Math_pow 10 (24 / 20)%R.

(** A scheduled ramp is sound when its target is a gain between 0 and 16
    (24 dB is a factor of about 15.85; a gain of 0 is what an underflow of
    [Math.pow] gives), its time constant is positive and it does not start
    before 0. *)
Definition rampOk (r : Ramp) : Prop :=
  (0 <= rampTarget r <= 16)%R
  /\ (0 < rampTimeConstant r)%R
  /\ (0 <= rampStart r)%R.

Definition nodeOk (node : option GainNode) : Prop :=
  match node with
  | Some ramps => Forall rampOk ramps
  | None => True
  end.

(** What every reachable state satisfies about the audio graph. *)
Record audioSane (s : State) : Prop := {
  context_has_nodes :
    is_Some (_audioCtx s) -> is_Some (_gainA s) /\ is_Some (_gainB s);
  nodeA_ok : nodeOk (_gainA s);
  nodeB_ok : nodeOk (_gainB s);
  clock_nonneg : (0 <= now s)%R
}.

(** 0.4 s of mono digital silence at 48 kHz. *)
Definition silence : AudioBuffer :=
  {| sampleRate := 48000; frames := 19200;
     getChannelData := [replicate (Z.to_nat 19200) 0%R] |}.

(** ** Example states *)

(** Three tracks of equal peak 0.01 (-40 dBFS) at -50, -34 and -20 LUFS,
    with the default target of -14 LUFS. *)
Definition threeTracks : State :=
  withMaps {[ "quiet" := {| lufs := Finite (-50); peak := 0.01 |};
              "loud" := {| lufs := Finite (-34); peak := 0.01 |};
              "louder" := {| lufs := Finite (-20); peak := 0.01 |} ]} ∅ initial.

(** The normalizer is enabled, lane A starts playing "u" and
    [analyzeAndApply(audioA, "u", "t")] suspends on a new analysis; then the
    lane is given another source "v" while the analysis is running. *)
Definition analysing : State :=
  analyzeAndApply audioA "u" "t" (withSrc audioA "u" (setEnabled true initial)).

Definition switched : State := withSrc audioA "v" analysing.

(** The state after the analysis of [loudClick], started by
    [preAnalyze("u", "t")], has completed. *)
Definition analysed : State :=
  let s := preAnalyze "u" "t" (setEnabled true initial) in
  let m := {| lufs := Finite (loudnessOf (clickPower 1)); peak := 1%R |} in
  withRuntime (nextPromise s) (delete 0%nat (jobs s))
    (<[0%nat := Some m]> (settled s)) (fetched s)
    (withMaps (<["t" := m]> (_cache s)) (delete "t" (_inflight s)) s).

(** A full-scale track (peak 1) measured at -20 LUFS, with the default
    target of -14 LUFS. *)
Definition fullScale : State :=
  withMaps {[ "t" := {| lufs := Finite (-20); peak := 1 |} ]} ∅ initial.

(** * Properties *)

(** ** Logarithms and powers of ten *)

Section Decibels.
Local Open Scope R_scope.

Lemma ln10_pos : 0 < ln 10.
Proof. rewrite <- ln_1. apply ln_increasing; lra. Qed.

Lemma log10_pow10 (y : R) : Math_log10 (Math_pow 10 y) = y.
Proof.
  unfold Math_log10, Math_pow. rewrite ln_Rpower.
  pose proof ln10_pos. field. lra.
Qed.

Lemma pow10_log10 (x : R) : 0 < x -> Math_pow 10 (Math_log10 x) = x.
Proof.
  intros Hx. unfold Math_log10, Math_pow, Rpower.
  pose proof ln10_pos.
  replace (ln x / ln 10 * ln 10) with (ln x) by (field; lra).
  now apply exp_ln.
Qed.

Lemma pow10_pos (y : R) : 0 < Math_pow 10 y.
Proof. unfold Math_pow, Rpower. apply exp_pos. Qed.

Lemma pow10_le (x y : R) : x <= y -> Math_pow 10 x <= Math_pow 10 y.
Proof. intros H. unfold Math_pow. apply Rle_Rpower; lra. Qed.

Lemma pow10_lt (x y : R) : x < y -> Math_pow 10 x < Math_pow 10 y.
Proof. intros H. unfold Math_pow. apply Rpower_lt; lra. Qed.

Lemma log10_1 : Math_log10 1 = 0.
Proof. unfold Math_log10. rewrite ln_1. pose proof ln10_pos. field. lra. Qed.

Lemma unity_is_1 : 1.0 = 1.
Proof. lra. Qed.

Lemma log10_le (x y : R) : 0 < x -> x <= y -> Math_log10 x <= Math_log10 y.
Proof.
  intros Hx Hxy. unfold Math_log10. pose proof ln10_pos.
  apply Rmult_le_compat_r; [left; now apply Rinv_0_lt_compat|].
  destruct Hxy as [Hlt | ->]; [left; now apply ln_increasing | lra].
Qed.

Lemma pow10_nat (n : nat) : Math_pow 10 (INR n) = 10 ^ n.
Proof. unfold Math_pow. apply Rpower_pow. lra. Qed.

Lemma pow10_neg (y : R) : Math_pow 10 (- y) = / Math_pow 10 y.
Proof. unfold Math_pow. apply Rpower_Ropp. Qed.

Lemma log10_pow_nat (n : nat) : Math_log10 (10 ^ n) = INR n.
Proof. rewrite <- pow10_nat. apply log10_pow10. Qed.

Lemma log10_inv_pow_nat (n : nat) : Math_log10 (/ 10 ^ n) = - INR n.
Proof. rewrite <- pow10_nat, <- pow10_neg. apply log10_pow10. Qed.

End Decibels.

(** ** The gain computation *)

Section Gain.
Local Open Scope R_scope.

Lemma log10_floor : Math_log10 1e-10 = -10.
Proof.
  replace 1e-10 with (/ 10 ^ 10) by lra.
  rewrite log10_inv_pow_nat. simpl. lra.
Qed.

Lemma cappedGainDB_le_target (target : R) (data : Measurement) (l : R) :
  cappedGainDB target data l <= target - l.
Proof. unfold cappedGainDB. destruct (decide _); lra. Qed.

Lemma cappedGainDB_le_max (target : R) (data : Measurement) (l : R) :
  cappedGainDB target data l
  <= PEAK_CEILING - 20 * Math_log10 (peakOrFloor (peak data)).
Proof. unfold cappedGainDB. destruct (decide (_ > _)); lra. Qed.

Lemma cappedGainDB_mono (target : R) (pk l1 l2 : R) (lo1 lo2 : Loudness) :
  l1 <= l2 ->
  cappedGainDB target {| lufs := lo2; peak := pk |} l2
  <= cappedGainDB target {| lufs := lo1; peak := pk |} l1.
Proof.
  intros H. unfold cappedGainDB; simpl.
  repeat destruct (decide (_ > _)); lra.
Qed.

Lemma log10_hundredth : Math_log10 0.01 = -2.
Proof.
  replace 0.01 with (/ 10 ^ 2) by lra.
  rewrite log10_inv_pow_nat. simpl. lra.
Qed.

(** At a peak of 0.01 the cap is 39.5 dB. *)
Lemma cappedGainDB_hundredth (target l : R) (lo : Loudness) :
  cappedGainDB target {| lufs := lo; peak := 0.01 |} l
  = if decide (target - l > 39.5) then 39.5 else target - l.
Proof.
  unfold cappedGainDB, peakOrFloor, PEAK_CEILING. cbn [peak].
  destruct (decide (0.01 = 0)); [lra |].
  rewrite log10_hundredth.
  repeat destruct (decide (_ > _)); lra.
Qed.

(** The logarithm of the floored peak never exceeds that of [max(peak, 1e-10)]. *)
Lemma peakOrFloor_log (pk : R) :
  0 <= pk ->
  Math_log10 (peakOrFloor pk) <= Math_log10 (Rmax pk 1e-10) /\
  (Math_log10 (peakOrFloor pk) = Math_log10 (Rmax pk 1e-10) \/
   Math_log10 (Rmax pk 1e-10) = -10).
Proof.
  intros Hpk. unfold peakOrFloor. destruct (decide (pk = 0)) as [-> | Hne].
  - rewrite Rmax_right by lra. split; [lra | now left].
  - destruct (Rle_dec pk 1e-10) as [Hle | Hgt].
    + rewrite Rmax_right by lra. rewrite log10_floor. split; [| now right].
      rewrite <- log10_floor. apply log10_le; lra.
    + rewrite Rmax_left by lra. split; [lra | now left].
Qed.

(** In exact arithmetic the cap is met with no slack: for a cached
    measurement with finite loudness and a peak in [0, 1], and any target,
    [peakDb + gainDb <= PEAK_CEILING], where
    [peakDb = 20 log10 (max peak 1e-10)] and [gainDb = 20 log10 gain].  The
    doubles of the code add their rounding to this: see
    [computeGain_respects_peak_ceiling]. *)
Lemma computeGain_exact_ceiling (s : State) (trackId : string) (l pk : R) :
  _cache s !! trackId = Some {| lufs := Finite l; peak := pk |} ->
  0 <= pk <= 1 ->
  20 * Math_log10 (Rmax pk 1e-10) + 20 * Math_log10 (computeGain s trackId)
  <= PEAK_CEILING.
Proof.
  intros Hc [Hpk _]. unfold computeGain. rewrite Hc. cbn [lufs].
  pose proof (cappedGainDB_le_max (_target s) {| lufs := Finite l; peak := pk |} l) as Hcap.
  cbn [peak] in Hcap.
  destruct (peakOrFloor_log pk Hpk) as [Hle [Heq | Hfl]].
  - destruct (decide (_ > 24)) as [Hbig | Hsmall].
    + rewrite unity_is_1, log10_1. unfold PEAK_CEILING in *. lra.
    + rewrite log10_pow10. lra.
  - destruct (decide (_ > 24)) as [Hbig | Hsmall].
    + rewrite unity_is_1, log10_1. unfold PEAK_CEILING in *. lra.
    + rewrite log10_pow10. unfold PEAK_CEILING in *. lra.
Qed.

Lemma computeGain_absent (s : State) (trackId : string) :
  _cache s !! trackId = None -> computeGain s trackId = 1.
Proof. intros H. unfold computeGain. rewrite H. apply unity_is_1. Qed.

Lemma computeGain_silent (s : State) (trackId : string) (data : Measurement) :
  _cache s !! trackId = Some data -> lufs data = NegInfinity ->
  computeGain s trackId = 1.
Proof. intros H Hl. unfold computeGain. rewrite H, Hl. apply unity_is_1. Qed.

Lemma computeGain_over_cap
      (s : State) (trackId : string) (data : Measurement) (l : R) :
  _cache s !! trackId = Some data -> lufs data = Finite l ->
  cappedGainDB (_target s) data l > 24 ->
  computeGain s trackId = 1.
Proof.
  intros H Hl Hbig. unfold computeGain. rewrite H, Hl. cbv zeta.
  destruct (decide _); [apply unity_is_1 | contradiction].
Qed.

(** C4.  [computeGain] returns exactly 1.0 when nothing is cached for the
    identifier, when the cached loudness is the [-Infinity] sentinel, and
    when the gain in dB left after the peak-ceiling cap exceeds 24. *)
Theorem computeGain_unity (s : State) (trackId : string) :
  _cache s !! trackId = None
  \/ (exists data, _cache s !! trackId = Some data /\ lufs data = NegInfinity)
  \/ (exists data l, _cache s !! trackId = Some data /\ lufs data = Finite l
                     /\ cappedGainDB (_target s) data l > 24) ->
  computeGain s trackId = 1.
Proof.
  intros [H | [(data & H & Hl) | (data & l & H & Hl & Hbig)]].
  - now apply computeGain_absent.
  - now apply computeGain_silent with data.
  - now apply computeGain_over_cap with data l.
Qed.

Lemma computeGain_unity_witness : computeGain threeTracks "quiet" = 1.
Proof.
  apply computeGain_unity. right; right.
  exists {| lufs := Finite (-50); peak := 0.01 |}, (-50).
  split; [reflexivity | split; [reflexivity |]].
  rewrite cappedGainDB_hundredth. unfold threeTracks, initial, DEFAULT_TARGET; cbn.
  destruct (decide _); lra.
Defined.

Lemma computeGain_finite (s : State) (trackId : string) (data : Measurement) (l : R) :
  _cache s !! trackId = Some data -> lufs data = Finite l ->
  cappedGainDB (_target s) data l <= 24 ->
  computeGain s trackId = Math_pow 10 (cappedGainDB (_target s) data l / 20).
Proof.
  intros Hc Hl Hcap. unfold computeGain. rewrite Hc, Hl. cbv zeta.
  destruct (decide _); [lra | reflexivity].
Qed.

Lemma computeGain_loud : computeGain threeTracks "loud" = 10.
Proof.
  rewrite (computeGain_finite _ _ {| lufs := Finite (-34); peak := 0.01 |} (-34));
    try reflexivity.
  - rewrite cappedGainDB_hundredth. unfold threeTracks, initial, DEFAULT_TARGET; cbn.
    destruct (decide _); [lra |].
    replace ((-14 - -34) / 20) with 1 by lra.
    unfold Math_pow. apply Rpower_1. lra.
  - rewrite cappedGainDB_hundredth. unfold threeTracks, initial, DEFAULT_TARGET; cbn.
    destruct (decide _); lra.
Qed.

(** C3 as stated fails: the quieter track at -50 LUFS gets unity gain (its
    36 dB exceed the 24 dB hard cap) while the louder one at -34 LUFS, of
    the same peak, gets a gain of 10. *)
Lemma computeGain_not_monotone :
  _cache threeTracks !! "quiet" = Some {| lufs := Finite (-50); peak := 0.01 |} /\
  _cache threeTracks !! "loud" = Some {| lufs := Finite (-34); peak := 0.01 |} /\
  -50 <= -34 /\
  computeGain threeTracks "quiet" = 1 /\
  computeGain threeTracks "loud" = 10 /\
  ~ (computeGain threeTracks "quiet" >= computeGain threeTracks "loud").
Proof.
  assert (Hq : computeGain threeTracks "quiet" = 1).
  { apply computeGain_over_cap
      with {| lufs := Finite (-50); peak := 0.01 |} (-50); try reflexivity.
    rewrite cappedGainDB_hundredth. unfold threeTracks, initial, DEFAULT_TARGET; cbn.
    destruct (decide _); lra. }
  pose proof computeGain_loud as Hl.
  repeat split; try reflexivity; try assumption; [lra |].
  rewrite Hq, Hl. lra.
Qed.

(** C3, amended.  For two cached measurements of the same peak with
    [lufs1 <= lufs2] and one target, the gain for the quieter one is at
    least the gain for the louder one, provided the quieter one's gain
    after the peak-ceiling cap stays within the 24 dB hard cap. *)
Theorem computeGain_monotone
        (s : State) (id1 id2 : string) (l1 l2 pk : R) :
  _cache s !! id1 = Some {| lufs := Finite l1; peak := pk |} ->
  _cache s !! id2 = Some {| lufs := Finite l2; peak := pk |} ->
  l1 <= l2 ->
  cappedGainDB (_target s) {| lufs := Finite l1; peak := pk |} l1 <= 24 ->
  computeGain s id1 >= computeGain s id2.
Proof.
  intros H1 H2 Hle Hcap.
  pose proof (cappedGainDB_mono (_target s) pk l1 l2 (Finite l1) (Finite l2) Hle) as Hm.
  rewrite (computeGain_finite s id1 _ l1 H1 eq_refl Hcap).
  rewrite (computeGain_finite s id2 _ l2 H2 eq_refl) by lra.
  apply Rle_ge, pow10_le. lra.
Qed.

Lemma computeGain_monotone_witness :
  computeGain threeTracks "loud" >= computeGain threeTracks "louder".
Proof.
  apply (computeGain_monotone threeTracks "loud" "louder" (-34) (-20) 0.01);
    [reflexivity | reflexivity | lra |].
  rewrite cappedGainDB_hundredth. unfold threeTracks, initial, DEFAULT_TARGET; cbn.
  destruct (decide _); lra.
Defined.

End Gain.

(** ** Rounding to whole samples *)

Section Rounding.

Lemma Zfloor_div (p q : Z) :
  (0 < q)%Z -> Zfloor (IZR p / IZR q) = (p / q)%Z.
Proof.
  intros Hq. apply Zfloor_eq.
  pose proof (Z.div_mod p q ltac:(lia)) as Hdm.
  pose proof (Z.mod_pos_bound p q Hq) as [Hlo Hhi].
  assert (HqR : (0 < IZR q)%R) by now apply IZR_lt.
  assert (Hp : IZR p = (IZR q * IZR (p / q) + IZR (p mod q))%R).
  { rewrite <- mult_IZR, <- plus_IZR. now f_equal. }
  apply IZR_le in Hlo. apply IZR_lt in Hhi.
  split.
  - apply Rmult_le_reg_r with (IZR q); [assumption |].
    unfold Rdiv. rewrite Rmult_assoc, Rinv_l by lra. lra.
  - apply Rmult_lt_reg_r with (IZR q); [assumption |].
    unfold Rdiv. rewrite Rmult_assoc, Rinv_l by lra. lra.
Qed.

Lemma blockSamples_div (sr : Z) : blockSamples sr = ((4 * sr + 5) / 10)%Z.
Proof.
  unfold blockSamples, Math_round, BLOCK_DURATION.
  rewrite <- Zfloor_div by lia. f_equal.
  rewrite plus_IZR, mult_IZR. lra.
Qed.

Lemma stepSamples_div (sr : Z) : stepSamples sr = ((blockSamples sr + 2) / 4)%Z.
Proof.
  unfold stepSamples, Math_round, BLOCK_OVERLAP.
  rewrite <- Zfloor_div by lia. f_equal.
  rewrite plus_IZR. lra.
Qed.

Lemma blockSamples_48000 : blockSamples 48000 = 19200%Z.
Proof. rewrite blockSamples_div. reflexivity. Qed.

Lemma stepSamples_48000 : stepSamples 48000 = 4800%Z.
Proof. rewrite stepSamples_div, blockSamples_48000. reflexivity. Qed.

Lemma stepSamples_pos (sr : Z) : (4 <= sr)%Z -> (0 < stepSamples sr)%Z.
Proof.
  intros H. rewrite stepSamples_div, blockSamples_div.
  assert (2 <= (4 * sr + 5) / 10)%Z by (apply Z.div_le_lower_bound; lia).
  apply Z.div_str_pos. lia.
Qed.

Lemma blockSamples_nonneg (sr : Z) : (0 <= sr)%Z -> (0 <= blockSamples sr)%Z.
Proof. intros H. rewrite blockSamples_div. apply Z.div_pos; lia. Qed.

(** The step is a quarter of the block, to the nearest sample. *)
Lemma stepSamples_quarter (sr : Z) :
  (Rabs (IZR (stepSamples sr) - 0.25 * IZR (blockSamples sr)) <= / 2)%R
  /\ ((blockSamples sr mod 4 = 0)%Z -> (4 * stepSamples sr = blockSamples sr)%Z).
Proof.
  rewrite stepSamples_div. set (bs := blockSamples sr).
  pose proof (Z.div_mod (bs + 2) 4 ltac:(lia)) as Hdm.
  pose proof (Z.mod_pos_bound (bs + 2) 4 ltac:(lia)) as Hb.
  split.
  - pose proof (f_equal IZR Hdm) as H4.
    rewrite !plus_IZR, mult_IZR in H4.
    assert (0 <= IZR ((bs + 2) mod 4) <= 3)%R.
    { split; [apply IZR_le | apply (IZR_le _ 3)]; lia. }
    apply Rabs_le. lra.
  - intros Hm.
    assert (((bs + 2) mod 4 = 2)%Z).
    { rewrite Z.add_mod, Hm by lia. reflexivity. }
    lia.
Qed.

End Rounding.

(** ** The block loops *)

Section Blocks.
Local Open Scope R_scope.

Lemma sumSqLoop_spec (data : list R) (n i : nat) (acc : R) :
  sumSqLoop data i n acc = acc + sumSquares (take n (drop i data)).
Proof.
  revert i acc. induction n as [| n IH]; intros i acc; simpl.
  - lra.
  - rewrite IH. destruct (decide (i < length data)%nat) as [Hlt | Hge].
    + destruct (lookup_lt_is_Some_2 data i Hlt) as [x Hx].
      rewrite (drop_S data x i Hx). simpl.
      rewrite (nth_lookup_Some data i 0 x Hx). lra.
    + rewrite !drop_ge by lia. rewrite take_nil. simpl.
      rewrite nth_overflow by lia. lra.
Qed.

Lemma channelLoop_spec (weights : list R) (kw : list (list R))
      (start bs : Z) (acc : R) :
  channelLoop weights kw start bs acc = acc + weightedPower weights kw bs start.
Proof.
  revert kw acc. induction weights as [| w ws IH]; intros kw acc.
  - destruct kw; unfold weightedPower; simpl; lra.
  - destruct kw as [| data kw].
    + unfold weightedPower; simpl; lra.
    + cbn [channelLoop]. rewrite IH, sumSqLoop_spec.
      unfold weightedPower, meanSquare. simpl. lra.
Qed.

(** One block: the loops compute the channel-weighted mean square. *)
Lemma blockPowerAt_spec (weights : list R) (kw : list (list R)) (bs start : Z) :
  blockPowerAt weights kw bs start = weightedPower weights kw bs start.
Proof. unfold blockPowerAt. rewrite channelLoop_spec. lra. Qed.

Lemma blockLoop_exit (fuel : nat) (weights : list R) (kw : list (list R))
      (bs step len start : Z) :
  (len < start + bs)%Z ->
  blockLoop fuel weights kw bs step len start = Some [].
Proof.
  intros H. destruct fuel; simpl;
    destruct (Z.leb_spec (start + bs) len); (lia || reflexivity).
Qed.

(** With a positive step and enough fuel the loop returns one power per
    start [start + k * step] at which a whole block fits. *)
Lemma blockLoop_spec (weights : list R) (kw : list (list R))
      (bs step len : Z) (fuel : nat) (start : Z) :
  (0 < step)%Z ->
  (len < start + bs + Z.of_nat fuel * step)%Z ->
  exists n : nat,
    blockLoop fuel weights kw bs step len start
    = Some (map (fun k => weightedPower weights kw bs (start + Z.of_nat k * step))
                (seq 0 n))
    /\ forall k : nat, (k < n)%nat <-> (start + Z.of_nat k * step + bs <= len)%Z.
Proof.
  intros Hstep. revert start.
  induction fuel as [| fuel IH]; intros start Hfuel.
  - exists 0%nat. split; [apply blockLoop_exit; lia |].
    intros k. split; [lia | nia].
  - destruct (Z.leb_spec (start + bs) len) as [Hfit | Hno].
    + destruct (IH (start + step)%Z ltac:(lia)) as (n & Hrun & Hn).
      exists (S n). split.
      * cbn [blockLoop]. destruct (Z.leb_spec (start + bs) len); [| lia].
        rewrite Hrun. cbn. rewrite blockPowerAt_spec.
        f_equal. f_equal; [f_equal; lia |].
        rewrite <- seq_shift, map_map. apply map_ext. intros k. f_equal. lia.
      * intros [| k]; [split; [lia | lia] |].
        rewrite <- Nat.succ_lt_mono, Hn. lia.
    + exists 0%nat. split; [apply blockLoop_exit; lia |].
      intros k. split; [lia | nia].
Qed.

(** Without progress the loop never ends once a block fits. *)
Lemma blockLoop_diverges (weights : list R) (kw : list (list R))
      (bs len start : Z) (fuel : nat) :
  (start + bs <= len)%Z ->
  blockLoop fuel weights kw bs 0 len start = None.
Proof.
  intros Hfit. induction fuel as [| fuel IH]; cbn [blockLoop];
    destruct (Z.leb_spec (start + bs) len); try lia; [reflexivity |].
  rewrite Z.add_0_r, IH. reflexivity.
Qed.

Lemma length_biquadLoop (bq aq : list R) (samples : list R) (z1 z2 : R) :
  length (biquadLoop bq aq z1 z2 samples) = length samples.
Proof.
  revert z1 z2. induction samples as [| x rest IH]; intros z1 z2; cbn;
    [reflexivity | now rewrite IH].
Qed.

(** In a well-formed buffer a block that fits is read from inside every
    channel: the mean square is over exactly [blockSamples] samples, and the
    default of [nth] in [sumSqLoop] is never used. *)
Lemma block_is_full (audioBuffer : AudioBuffer) (bs start : Z) :
  wellFormed audioBuffer ->
  (0 <= start)%Z -> (0 <= bs)%Z -> (start + bs <= frames audioBuffer)%Z ->
  Forall (fun data =>
            length (take (Z.to_nat bs) (drop (Z.to_nat start) data)) = Z.to_nat bs)
         (kWeighted audioBuffer).
Proof.
  intros [Hlen Hwf] Hstart Hbs Hfit. unfold kWeighted.
  apply Forall_map. eapply Forall_impl; [exact Hwf |].
  intros data Hdata. cbn beta in Hdata |- *.
  unfold applyBiquad. rewrite length_take, length_drop, !length_biquadLoop. lia.
Qed.

Lemma gateBlocks_nil (pk : R) :
  gateBlocks [] pk = {| lufs := NegInfinity; peak := 0 |}.
Proof. reflexivity. Qed.

(** C9.  Blocks are [round(0.4 * sampleRate)] samples long and start every
    [round(0.25 * blockSamples)] samples (a quarter of the block, exactly so
    when the block length is a multiple of 4); the loop yields one
    channel-weighted mean-square power per start at which a whole block
    fits; an input shorter than one block yields no block and is measured as
    silence. *)
Theorem block_power_accumulation (audioBuffer : AudioBuffer) :
  let sr := sampleRate audioBuffer in
  let bs := blockSamples sr in
  let step := stepSamples sr in
  let len := frames audioBuffer in
  bs = Math_round (0.4 * IZR sr)
  /\ step = Math_round (0.25 * IZR bs)
  /\ ((bs mod 4 = 0)%Z -> (4 * step = bs)%Z)
  /\ ((4 <= sr)%Z -> (0 <= len)%Z ->
      exists n : nat,
        blocksOf audioBuffer
        = Some (map (fun k => weightedPower
                                (channelWeight (numberOfChannels audioBuffer))
                                (kWeighted audioBuffer) bs (Z.of_nat k * step))
                    (seq 0 n))
        /\ forall k : nat, (k < n)%nat <-> (Z.of_nat k * step + bs <= len)%Z)
  /\ ((len < bs)%Z ->
      blocksOf audioBuffer = Some []
      /\ measureLUFS audioBuffer = Some {| lufs := NegInfinity; peak := 0 |}).
Proof.
  intros sr bs step len. repeat split.
  - unfold step, stepSamples, BLOCK_OVERLAP. f_equal. fold bs. lra.
  - apply stepSamples_quarter.
  - intros Hsr Hlen.
    pose proof (stepSamples_pos sr Hsr) as Hstep.
    pose proof (blockSamples_nonneg sr ltac:(lia)) as Hbs.
    destruct (blockLoop_spec (channelWeight (numberOfChannels audioBuffer))
                (kWeighted audioBuffer) bs step len
                (S (Z.to_nat len)) 0%Z Hstep) as (n & Hrun & Hn).
    { fold step in Hstep. fold bs in Hbs. nia. }
    exists n. split; [exact Hrun | exact Hn].
  - unfold blocksOf. apply blockLoop_exit. fold sr bs len. lia.
  - unfold measureLUFS, blocksOf. rewrite blockLoop_exit by (fold sr bs len; lia).
    reflexivity.
Qed.

Lemma block_power_accumulation_witness :
  (4 * stepSamples 48000 = blockSamples 48000)%Z
  /\ (exists n : nat,
        blocksOf click
        = Some (map (fun k => weightedPower
                                (channelWeight (numberOfChannels click))
                                (kWeighted click) (blockSamples 48000)
                                (Z.of_nat k * stepSamples 48000))
                    (seq 0 n))
        /\ forall k : nat,
            (k < n)%nat
            <-> (Z.of_nat k * stepSamples 48000 + blockSamples 48000 <= 19200)%Z)
  /\ blocksOf shortBlip = Some []
  /\ measureLUFS shortBlip = Some {| lufs := NegInfinity; peak := 0 |}.
Proof.
  destruct (block_power_accumulation click) as (_ & _ & Hquarter & Hblocks & _).
  destruct (block_power_accumulation shortBlip) as (_ & _ & _ & _ & Hshort).
  cbn [frames sampleRate click clickBuffer shortBlip] in *.
  split; [| split].
  - apply Hquarter. rewrite blockSamples_48000. reflexivity.
  - apply Hblocks; lia.
  - apply Hshort. rewrite blockSamples_48000. lia.
Defined.

End Blocks.

(** ** The gates *)

Section Gates.
Local Open Scope R_scope.

Lemma filter_above_nil (thr : R) (blocks : list R) :
  Forall (fun p => p <= thr) blocks ->
  filter (fun p => p > thr) blocks = [].
Proof.
  induction 1 as [| p ps Hp _ IH]; [reflexivity |].
  rewrite filter_cons_False by lra. exact IH.
Qed.

Lemma gateBlocks_below_absolute (blocks : list R) (pk : R) :
  Forall (fun p => p <= absThreshold) blocks ->
  gateBlocks blocks pk = {| lufs := NegInfinity; peak := 0 |}.
Proof.
  intros H. unfold gateBlocks. destruct blocks as [| p ps]; [reflexivity |].
  rewrite filter_above_nil by assumption. reflexivity.
Qed.

(** *** The sample peak *)

Lemma peakStep_zero : peakStep 0 0 = 0.
Proof.
  unfold peakStep, Math_abs. rewrite Rabs_R0.
  cbv zeta. destruct (decide (0 > 0)); [lra | reflexivity].
Qed.

Lemma peakStep_max (pk x : R) : peakStep pk x = Rmax pk (Rabs x).
Proof.
  unfold peakStep, Math_abs. cbv zeta.
  destruct (decide (Rabs x > pk)); [rewrite Rmax_right | rewrite Rmax_left]; lra.
Qed.

Lemma peakLoop_bounds (data : list R) (pk : R) :
  pk <= fold_left peakStep data pk
  /\ Forall (fun x => Rabs x <= fold_left peakStep data pk) data.
Proof.
  revert pk. induction data as [| x data IH]; intros pk; cbn [fold_left].
  - split; [lra | constructor].
  - destruct (IH (peakStep pk x)) as [Hge Hall].
    rewrite peakStep_max in Hge at 1.
    pose proof (Rmax_l pk (Rabs x)). pose proof (Rmax_r pk (Rabs x)).
    split; [lra |]. constructor; [lra | exact Hall].
Qed.

Lemma peakLoop_zero (data : list R) :
  Forall (fun x => x = 0) data -> fold_left peakStep data 0 = 0.
Proof.
  induction 1 as [| x data -> _ IH]; cbn [fold_left]; [reflexivity |].
  now rewrite peakStep_zero.
Qed.

Lemma channelsLoop_bounds (channels : list (list R)) (pk : R) :
  pk <= fold_left (fun peak data => fold_left peakStep data peak) channels pk
  /\ Forall (Forall (fun x =>
        Rabs x <= fold_left (fun peak data => fold_left peakStep data peak)
                            channels pk))
            channels.
Proof.
  revert pk. induction channels as [| data channels IH]; intros pk; cbn [fold_left].
  - split; [lra | constructor].
  - destruct (IH (fold_left peakStep data pk)) as [Hge Hall].
    destruct (peakLoop_bounds data pk) as [Hge' Hall'].
    split; [lra |]. constructor; [| exact Hall].
    eapply Forall_impl; [exact Hall' |]. cbn beta. intros x Hx. lra.
Qed.

(** The sample peak is 0 exactly for a buffer of zeros. *)
Lemma samplePeak_zero_iff (audioBuffer : AudioBuffer) :
  samplePeak audioBuffer = 0
  <-> Forall (Forall (fun x => x = 0)) (getChannelData audioBuffer).
Proof.
  unfold samplePeak. split.
  - intros Hz.
    destruct (channelsLoop_bounds (getChannelData audioBuffer) 0) as [_ Hall].
    rewrite Hz in Hall.
    eapply Forall_impl; [exact Hall |]. cbn beta. intros data Hdata.
    eapply Forall_impl; [exact Hdata |]. cbn beta. intros x Hx.
    pose proof (Rabs_pos x).
    destruct (Req_dec x 0) as [| Hne]; [assumption |].
    pose proof (Rabs_pos_lt x Hne). lra.
  - induction 1 as [| data channels Hdata _ IH]; cbn [fold_left]; [reflexivity |].
    now rewrite peakLoop_zero.
Qed.

(** C2, amended.  When every block power is at or below the absolute gate
    the measurement is [lufs = -Infinity] with [peak = 0]: the sample peak
    is not computed on this path, and the returned peak is the sample peak
    of the buffer only when all its samples are 0. *)
Theorem measureLUFS_below_absolute_gate
        (audioBuffer : AudioBuffer) (blocks : list R) :
  blocksOf audioBuffer = Some blocks ->
  Forall (fun p => p <= absThreshold) blocks ->
  exists m,
    measureLUFS audioBuffer = Some m
    /\ lufs m = NegInfinity
    /\ peak m = 0
    /\ (peak m = samplePeak audioBuffer
        <-> Forall (Forall (fun x => x = 0)) (getChannelData audioBuffer)).
Proof.
  intros Hb Hall. unfold measureLUFS. rewrite Hb. cbn [mbind option_bind].
  rewrite gateBlocks_below_absolute by assumption.
  eexists. split; [reflexivity |]. cbn [lufs peak].
  split; [reflexivity |]. split; [reflexivity |].
  rewrite <- samplePeak_zero_iff. split; congruence.
Qed.

(** *** The click buffer *)

Lemma biquadLoop_silence (bq aq : list R) (n : nat) (c z1 z2 : R) :
  z1 = 0 -> z2 = 0 ->
  biquadLoop bq aq z1 z2 (silenceThenClick n c)
  = silenceThenClick n (nth 0 bq 0 * c).
Proof.
  unfold silenceThenClick. revert z1 z2.
  induction n as [| n IH]; intros z1 z2 -> ->; cbn.
  - f_equal. lra.
  - f_equal; [lra |]. apply IH; lra.
Qed.

Lemma sumSquares_silence (n : nat) (c : R) :
  sumSquares (silenceThenClick n c) = c * c.
Proof.
  unfold silenceThenClick. induction n as [| n IH]; cbn; [lra |].
  fold (sumSquares (replicate n 0 ++ [c])). rewrite IH. lra.
Qed.

Lemma length_silenceThenClick (n : nat) (c : R) :
  length (silenceThenClick n c) = S n.
Proof. unfold silenceThenClick. rewrite length_app, length_replicate. cbn. lia. Qed.

Lemma peakLoop_silence (n : nat) (c : R) :
  0 < c -> fold_left peakStep (silenceThenClick n c) 0 = c.
Proof.
  intros Hc. unfold silenceThenClick. rewrite fold_left_app.
  assert (Hz : fold_left peakStep (replicate n 0) 0 = 0).
  { induction n as [| n IH]; cbn [replicate fold_left]; [reflexivity |].
    now rewrite peakStep_zero. }
  rewrite Hz. cbn [fold_left]. unfold peakStep, Math_abs.
  rewrite Rabs_pos_eq by lra. cbv zeta.
  destruct (decide (c > 0)); [reflexivity | lra].
Qed.

Lemma absThreshold_lower : 1e-7 <= absThreshold.
Proof.
  unfold absThreshold, ABSOLUTE_GATE.
  replace 1e-7 with (Math_pow 10 (- INR 7)).
  - apply pow10_le. simpl. lra.
  - rewrite pow10_neg, pow10_nat. lra.
Qed.

Lemma blocksOf_clickBuffer (c : R) :
  blocksOf (clickBuffer c) = Some [clickPower c].
Proof.
  unfold blocksOf, clickBuffer.
  cbn [frames sampleRate getChannelData numberOfChannels].
  rewrite blockSamples_48000, stepSamples_48000.
  set (n := Z.to_nat 19199).
  assert (Hn : Z.of_nat n = 19199%Z) by (subst n; lia).
  destruct (blockLoop_spec (channelWeight 1)
              (kWeighted {| sampleRate := 48000; frames := 19200;
                            getChannelData := [silenceThenClick n c] |})
              19200 4800 19200 (S (Z.to_nat 19200)) 0 ltac:(lia) ltac:(lia))
    as (k & Hrun & Hk).
  assert (k = 1%nat) as ->.
  { pose proof (proj2 (Hk 0%nat) ltac:(lia)).
    destruct (decide (1 < k)%nat) as [H1 | H1]; [| lia].
    apply Hk in H1. lia. }
  change (numberOfChannels _) with 1%nat.
  rewrite Hrun. cbn [seq map]. f_equal. f_equal.
  unfold kWeighted. cbn [sampleRate getChannelData map].
  change (getKWeightCoeffs 48000) with K_WEIGHTS_48000.
  unfold applyBiquad. rewrite !biquadLoop_silence by reflexivity.
  unfold weightedPower, meanSquare. cbn [channelWeight seq map zip_with fold_right].
  rewrite drop_0, take_ge
    by (rewrite length_silenceThenClick; lia).
  rewrite sumSquares_silence. unfold clickPower. cbn. lra.
Qed.

Lemma wellFormed_clickBuffer (c : R) : wellFormed (clickBuffer c).
Proof.
  split; [cbn; lia |]. constructor; [| constructor].
  rewrite length_silenceThenClick. cbn [frames clickBuffer]. lia.
Qed.

Lemma clickPower_faint : clickPower 0.01 <= absThreshold.
Proof. pose proof absThreshold_lower. unfold clickPower. lra. Qed.

Lemma measureLUFS_below_absolute_gate_witness :
  exists m,
    measureLUFS click = Some m
    /\ lufs m = NegInfinity
    /\ peak m = 0
    /\ (peak m = samplePeak click
        <-> Forall (Forall (fun x => x = 0)) (getChannelData click)).
Proof.
  apply (measureLUFS_below_absolute_gate click [clickPower 0.01]).
  - apply blocksOf_clickBuffer.
  - constructor; [apply clickPower_faint | constructor].
Defined.

(** C2 as stated fails on [click]: its single block power lies below the
    absolute gate, the measurement is [-Infinity] with peak 0, yet the
    largest absolute sample of the buffer is 0.01. *)
Lemma measureLUFS_click_peak :
  wellFormed click
  /\ blocksOf click = Some [clickPower 0.01]
  /\ clickPower 0.01 <= absThreshold
  /\ measureLUFS click = Some {| lufs := NegInfinity; peak := 0 |}
  /\ samplePeak click = 0.01
  /\ ~ (exists m, measureLUFS click = Some m
                  /\ lufs m = NegInfinity /\ peak m = samplePeak click).
Proof.
  assert (Hm : measureLUFS click = Some {| lufs := NegInfinity; peak := 0 |}).
  { unfold measureLUFS, click. rewrite blocksOf_clickBuffer.
    cbn [mbind option_bind].
    rewrite gateBlocks_below_absolute; [reflexivity |].
    constructor; [apply clickPower_faint | constructor]. }
  assert (Hpk : samplePeak click = 0.01).
  { unfold samplePeak, click, clickBuffer. cbn [getChannelData fold_left].
    apply peakLoop_silence. lra. }
  split; [| split; [| split; [| split; [| split]]]].
  - apply wellFormed_clickBuffer.
  - apply blocksOf_clickBuffer.
  - apply clickPower_faint.
  - exact Hm.
  - exact Hpk.
  - intros (m & Hm' & _ & Hpeak). rewrite Hm in Hm'. injection Hm' as <-.
    rewrite Hpk in Hpeak. cbn in Hpeak. lra.
Qed.

(** *** The relative gate *)

Lemma fold_left_Rplus (l : list R) (acc : R) :
  fold_left Rplus l acc = acc + fold_right Rplus 0 l.
Proof.
  revert acc. induction l as [| x l IH]; intros acc; cbn; [lra |].
  rewrite IH. lra.
Qed.

(** Written out, the relative threshold is a tenth of the mean power of the
    blocks above the absolute gate. *)
Lemma relThreshold_tenth (mean : R) :
  0 < mean -> relThreshold (loudnessOf mean) = mean / 10.
Proof.
  intros Hm. unfold relThreshold, loudnessOf, RELATIVE_GATE.
  replace ((-0.691 + 10 * Math_log10 mean + -10 + 0.691) / 10)
    with (Math_log10 mean + - INR 1) by (simpl; lra).
  unfold Math_pow. rewrite Rpower_plus.
  fold (Math_pow 10 (Math_log10 mean)). fold (Math_pow 10 (- INR 1)).
  rewrite pow10_log10 by assumption.
  rewrite pow10_neg, pow10_nat. lra.
Qed.

Lemma absThreshold_pos : 0 < absThreshold.
Proof. apply pow10_pos. Qed.

Lemma sum_below (l : list R) (m : R) :
  l <> [] -> Forall (fun x => x < m) l ->
  fold_right Rplus 0 l < INR (length l) * m.
Proof.
  intros Hne Hall. induction Hall as [| x l Hx Hall IH]; [congruence |].
  destruct l as [| y l].
  - cbn. lra.
  - specialize (IH ltac:(congruence)).
    change (length (x :: y :: l)) with (S (length (y :: l))).
    rewrite S_INR. cbn [fold_right] in *. lra.
Qed.

Lemma meanOf_pos (l : list R) :
  l <> [] -> Forall (fun x => 0 < x) l -> 0 < meanOf l.
Proof.
  intros Hne Hall. unfold meanOf. rewrite fold_left_Rplus, Rplus_0_l.
  assert (Hlen : 0 < INR (length l)).
  { apply lt_0_INR. destruct l; [congruence | cbn; lia]. }
  apply Rdiv_lt_0_compat; [| assumption].
  clear Hlen. induction Hall as [| x l Hx Hall IH]; [congruence |].
  destruct l as [| y l]; cbn in *; [lra |].
  specialize (IH ltac:(congruence)). lra.
Qed.

(** Some element of a non-empty list is at least its mean. *)
Lemma exists_ge_mean (l : list R) :
  l <> [] -> exists x, x ∈ l /\ meanOf l <= x.
Proof.
  intros Hne.
  destruct (List.Forall_Exists_dec (fun x => x < meanOf l)
              (fun x => Rlt_dec x (meanOf l)) l) as [Hall | Hex].
  - exfalso. pose proof (sum_below l (meanOf l) Hne Hall) as Hlt.
    unfold meanOf in Hlt. rewrite fold_left_Rplus, Rplus_0_l in Hlt.
    assert (Hlen : 0 < INR (length l)).
    { apply lt_0_INR. destruct l; [congruence | cbn; lia]. }
    replace (INR (length l) * (fold_right Rplus 0 l / INR (length l)))
      with (fold_right Rplus 0 l) in Hlt by (field; lra).
    lra.
  - apply Exists_exists in Hex as (x & Hin & Hx).
    exists x. split; [first [assumption | now apply list_elem_of_In] | lra].
Qed.

(** In exact arithmetic the relative gate always keeps a block: its third
    return is never taken once a block has passed the absolute gate. *)
Lemma relative_gate_keeps_a_block (blocks : list R) :
  let ungated := filter (fun p => p > absThreshold) blocks in
  ungated <> [] ->
  filter (fun p => p > relThreshold (loudnessOf (meanOf ungated))) blocks <> [].
Proof.
  intros ungated Hne.
  assert (Hpos : Forall (fun x => 0 < x) ungated).
  { apply Forall_forall. intros x Hx.
    apply list_elem_of_filter in Hx as [Hx _]. pose proof absThreshold_pos. lra. }
  pose proof (meanOf_pos ungated Hne Hpos) as Hmean.
  destruct (exists_ge_mean ungated Hne) as (x & Hx & Hge).
  rewrite relThreshold_tenth by assumption.
  intros Hnil.
  apply list_elem_of_filter in Hx as [_ Hx].
  apply (filter_nil_not_elem_of _ _ x Hnil); [lra | assumption].
Qed.

Lemma gateBlocks_ungated (blocks : list R) (pk : R) :
  let ungated := filter (fun p => p > absThreshold) blocks in
  ungated <> [] ->
  gateBlocks blocks pk
  = let ungatedLUFS := loudnessOf (meanOf ungated) in
    match filter (fun p => p > relThreshold ungatedLUFS) blocks with
    | [] => {| lufs := Finite ungatedLUFS; peak := 0 |}
    | gated => {| lufs := Finite (loudnessOf (meanOf gated)); peak := pk |}
    end.
Proof.
  intros ungated Hne. unfold gateBlocks.
  destruct blocks as [| p ps]; [now cbn in Hne |].
  fold ungated. cbv zeta.
  generalize (loudnessOf (meanOf ungated)). intros u.
  destruct ungated as [| u0 us]; [congruence |].
  destruct (filter (fun p0 => p0 > relThreshold u) (p :: ps)); reflexivity.
Qed.

(** C5.  The relative threshold is [10^((ungatedLUFS - 10 + 0.691)/10)],
    with [ungatedLUFS] taken from the mean of the blocks above the absolute
    gate; the relative gate filters the whole block sequence, not only those
    blocks; when it keeps none the result is [ungatedLUFS] with peak 0,
    otherwise the loudness of the mean of the kept blocks with the sample
    peak. *)
Theorem relative_gate_on_all_blocks
        (audioBuffer : AudioBuffer) (blocks : list R) :
  blocksOf audioBuffer = Some blocks ->
  let ungated := filter (fun p => p > absThreshold) blocks in
  ungated <> [] ->
  let ungatedLUFS := -0.691 + 10 * Math_log10 (meanOf ungated) in
  let threshold := Math_pow 10 ((ungatedLUFS - 10 + 0.691) / 10) in
  let gated := filter (fun p => p > threshold) blocks in
  measureLUFS audioBuffer
  = Some match gated with
         | [] => {| lufs := Finite ungatedLUFS; peak := 0 |}
         | _ => {| lufs := Finite (-0.691 + 10 * Math_log10 (meanOf gated));
                   peak := samplePeak audioBuffer |}
         end.
Proof.
  intros Hb ungated Hne ungatedLUFS threshold gated.
  unfold measureLUFS. rewrite Hb. cbn [mbind option_bind]. f_equal.
  rewrite gateBlocks_ungated by assumption. cbv zeta.
  fold ungated. unfold relThreshold, RELATIVE_GATE.
  fold (loudnessOf (meanOf ungated)) in ungatedLUFS.
  replace (loudnessOf (meanOf ungated) + -10 + 0.691)
    with (ungatedLUFS - 10 + 0.691) by (subst ungatedLUFS; lra).
  fold threshold. fold gated. destruct gated; reflexivity.
Qed.

Lemma absThreshold_upper : absThreshold < 1e-6.
Proof.
  unfold absThreshold, ABSOLUTE_GATE.
  replace 1e-6 with (Math_pow 10 (- INR 6)).
  - apply pow10_lt. simpl. lra.
  - rewrite pow10_neg, pow10_nat. lra.
Qed.

Lemma ln10_lower : 2 < ln 10.
Proof.
  assert (Hexp : exp 2 < 10).
  { replace 2 with (1 + 1) by lra. rewrite exp_plus.
    pose proof exp_le_3. pose proof (exp_pos 1). nra. }
  rewrite <- (ln_exp 2). apply ln_increasing; [apply exp_pos | exact Hexp].
Qed.

(** The absolute gate sits a little above 1.1e-7. *)
Lemma absThreshold_lower' : 1.1e-7 <= absThreshold.
Proof.
  unfold absThreshold, ABSOLUTE_GATE.
  replace ((-70 + 0.691) / 10) with (- INR 7 + 0.0691) by (simpl; lra).
  unfold Math_pow. rewrite Rpower_plus.
  fold (Math_pow 10 (- INR 7)). rewrite pow10_neg, pow10_nat.
  unfold Rpower.
  pose proof ln10_lower.
  pose proof (exp_ineq1 (0.0691 * ln 10) ltac:(lra)).
  nra.
Qed.

Lemma meanOf_singleton (p : R) : meanOf [p] = p.
Proof. unfold meanOf. cbn. lra. Qed.

Lemma clickPower_loud : clickPower 1 > absThreshold.
Proof. pose proof absThreshold_upper. unfold clickPower. lra. Qed.

Lemma relative_gate_on_all_blocks_witness :
  measureLUFS loudClick
  = Some match
        filter (fun p =>
                  p > Math_pow 10
                        ((-0.691
                          + 10 * Math_log10
                                   (meanOf (filter (fun p => p > absThreshold)
                                                   [clickPower 1]))
                          - 10 + 0.691) / 10))
               [clickPower 1]
      with
      | [] => {| lufs :=
                   Finite (-0.691
                           + 10 * Math_log10
                                    (meanOf (filter (fun p => p > absThreshold)
                                                    [clickPower 1])));
                 peak := 0 |}
      | _ :: _ =>
          {| lufs :=
               Finite
                 (-0.691
                  + 10 * Math_log10
                      (meanOf
                         (filter
                            (fun p =>
                               p > Math_pow 10
                                     ((-0.691
                                       + 10 * Math_log10
                                           (meanOf
                                              (filter (fun p => p > absThreshold)
                                                      [clickPower 1]))
                                       - 10 + 0.691) / 10))
                            [clickPower 1])));
             peak := samplePeak loudClick |}
      end.
Proof.
  apply (relative_gate_on_all_blocks loudClick [clickPower 1]).
  - apply blocksOf_clickBuffer.
  - rewrite filter_cons_True by apply clickPower_loud. discriminate.
Defined.

(** The whole path on a full-scale click: one block, which passes both
    gates; the peak is the sample peak. *)
Example measureLUFS_loudClick :
  measureLUFS loudClick
  = Some {| lufs := Finite (loudnessOf (clickPower 1)); peak := 1 |}.
Proof.
  unfold measureLUFS, loudClick. rewrite blocksOf_clickBuffer.
  cbn [mbind option_bind]. f_equal.
  pose proof clickPower_loud as Hloud.
  pose proof absThreshold_pos as Hpos.
  rewrite gateBlocks_ungated
    by (rewrite filter_cons_True by assumption; discriminate).
  cbv zeta.
  rewrite (filter_cons_True (fun p => p > absThreshold) _ _ Hloud).
  rewrite filter_nil, meanOf_singleton.
  rewrite relThreshold_tenth by lra.
  rewrite filter_cons_True by lra. rewrite filter_nil, meanOf_singleton.
  f_equal. unfold samplePeak, clickBuffer. cbn [getChannelData fold_left].
  apply peakLoop_silence. lra.
Qed.

(** A block that fails the absolute gate still counts in the final mean
    when it passes the relative one: of the two blocks below the first is
    under the absolute gate, the relative threshold is 1e-7, and the
    result is the loudness of the mean of both. *)
Example gateBlocks_counts_block_below_absolute_gate (pk : R) :
  1.1e-7 <= absThreshold
  /\ gateBlocks [1.1e-7; 1e-6] pk
     = {| lufs := Finite (loudnessOf ((1.1e-7 + 1e-6) / 2)); peak := pk |}.
Proof.
  pose proof absThreshold_lower' as Hlo. pose proof absThreshold_upper as Hup.
  split; [exact Hlo |].
  assert (Hung : filter (fun p => p > absThreshold) [1.1e-7; 1e-6] = [1e-6]).
  { rewrite filter_cons_False by lra. rewrite filter_cons_True by lra.
    reflexivity. }
  rewrite gateBlocks_ungated by (rewrite Hung; discriminate).
  cbv zeta. rewrite Hung, meanOf_singleton, relThreshold_tenth by lra.
  rewrite filter_cons_True by lra. rewrite filter_cons_True by lra.
  rewrite filter_nil. f_equal. f_equal. f_equal. unfold meanOf. cbn. lra.
Qed.

End Gates.

(** ** The measurement cache *)

Section Dedup.

(** The state right after [analyzeLUFS] has started an analysis. *)
Lemma analyzeLUFS_starts (url trackId : string) (s : State) :
  _cache s !! trackId = None -> _inflight s !! trackId = None ->
  exists s',
    analyzeLUFS url trackId s = (Join (nextPromise s), s')
    /\ _cache s' = _cache s
    /\ _inflight s' = <[trackId := nextPromise s]> (_inflight s)
    /\ jobs s' = <[nextPromise s := {| jobUrl := url; jobTrackId := trackId |}]> (jobs s)
    /\ fetched s' = fetched s ++ [(nextPromise s, url)]
    /\ nextPromise s' = S (nextPromise s)
    /\ settled s' = settled s
    /\ suspended s' = suspended s
    /\ (_enabled s', _target s', _audioCtx s', _gainA s', _gainB s')
       = (_enabled s, _target s, _audioCtx s, _gainA s, _gainB s)
    /\ (srcA s', srcB s', srcOther s') = (srcA s, srcB s, srcOther s).
Proof.
  intros Hc Hi. unfold analyzeLUFS. rewrite Hc, Hi.
  eexists. split; [reflexivity |]. cbn. repeat split.
Qed.

Lemma analyzeLUFS_cached (url trackId : string) (s : State) (m : Measurement) :
  _cache s !! trackId = Some m -> analyzeLUFS url trackId s = (Now m, s).
Proof. intros H. unfold analyzeLUFS. now rewrite H. Qed.

Lemma analyzeLUFS_joins (url trackId : string) (s : State) (p : PromiseId) :
  _cache s !! trackId = None -> _inflight s !! trackId = Some p ->
  analyzeLUFS url trackId s = (Join p, s).
Proof. intros Hc Hi. unfold analyzeLUFS. now rewrite Hc, Hi. Qed.

Lemma analyzeMany_joins (urls : list string) (trackId : string) (s : State)
      (p : PromiseId) :
  _cache s !! trackId = None -> _inflight s !! trackId = Some p ->
  analyzeMany urls trackId s = (replicate (length urls) (Join p), s).
Proof.
  intros Hc Hi. induction urls as [| url urls IH]; cbn [analyzeMany]; [reflexivity |].
  rewrite (analyzeLUFS_joins url trackId s p Hc Hi), IH. reflexivity.
Qed.

Lemma analyzeMany_starts (url : string) (urls : list string) (trackId : string)
      (s : State) :
  _cache s !! trackId = None -> _inflight s !! trackId = None ->
  analyzeMany (url :: urls) trackId s
  = (replicate (S (length urls)) (Join (nextPromise s)),
     snd (analyzeLUFS url trackId s)).
Proof.
  intros Hc Hi.
  destruct (analyzeLUFS_starts url trackId s Hc Hi)
    as (s' & Hrun & Hc' & Hi' & _).
  cbn [analyzeMany]. rewrite Hrun. cbn [snd].
  rewrite (analyzeMany_joins urls trackId s' (nextPromise s)).
  - reflexivity.
  - now rewrite Hc'.
  - rewrite Hi'. apply lookup_insert_eq.
Qed.

(** *** The invariant of the dedup maps *)

Lemma consistent_initial : consistent initial.
Proof.
  split; cbn; intros.
  - now rewrite lookup_empty in *.
  - now rewrite lookup_empty in *.
  - apply lookup_empty.
  - apply lookup_empty.
Qed.

(** Only these four fields matter to [consistent]. *)
Lemma consistent_same (s s' : State) :
  _cache s' = _cache s -> _inflight s' = _inflight s ->
  jobs s' = jobs s -> nextPromise s' = nextPromise s ->
  consistent s -> consistent s'.
Proof.
  intros Hc Hi Hj Hn [H1 H2 H3 H4].
  split; rewrite ?Hc, ?Hi, ?Hj, ?Hn; assumption.
Qed.

Lemma consistent_analyzeLUFS (url trackId : string) (s : State) :
  consistent s -> consistent (snd (analyzeLUFS url trackId s)).
Proof.
  intros Hs. destruct (_cache s !! trackId) as [m |] eqn:Hc.
  { now rewrite (analyzeLUFS_cached url trackId s m Hc). }
  destruct (_inflight s !! trackId) as [p |] eqn:Hi.
  { now rewrite (analyzeLUFS_joins url trackId s p Hc Hi). }
  destruct (analyzeLUFS_starts url trackId s Hc Hi)
    as (s' & -> & Hc' & Hi' & Hj' & _ & Hn' & _).
  destruct Hs as [H1 H2 H3 H4]. cbn [snd].
  split; rewrite ?Hc', ?Hi', ?Hj', ?Hn'.
  - intros p job Hp. destruct (decide (p = nextPromise s)) as [-> | Hne].
    + rewrite lookup_insert_eq in Hp. injection Hp as <-. cbn.
      apply lookup_insert_eq.
    + rewrite lookup_insert_ne in Hp by congruence.
      pose proof (H1 p job Hp) as Hreg.
      rewrite lookup_insert_ne; [assumption |].
      intros Heq. rewrite <- Heq in Hreg. congruence.
  - intros id p Hp. destruct (decide (id = trackId)) as [-> | Hne].
    + rewrite lookup_insert_eq in Hp. injection Hp as <-.
      eexists. rewrite lookup_insert_eq. split; reflexivity.
    + rewrite lookup_insert_ne in Hp by congruence.
      destruct (H2 id p Hp) as (job & Hjob & Hid).
      exists job. split; [| assumption].
      rewrite lookup_insert_ne; [assumption |].
      intros <-. rewrite H4 in Hjob by lia. discriminate.
  - intros id Hid. destruct (decide (id = trackId)) as [-> | Hne].
    + rewrite Hc in Hid. now destruct Hid.
    + rewrite lookup_insert_ne by congruence. now apply H3.
  - intros p Hp. rewrite lookup_insert_ne by lia. apply H4. lia.
Qed.

Lemma consistent_settle (p : PromiseId) (net : NetResult) (s s' : State) :
  consistent s -> settle p net s = Some s' -> consistent s'.
Proof.
  intros [H1 H2 H3 H4] Hset. unfold settle in Hset.
  destruct (jobs s !! p) as [job |] eqn:Hjob; [| discriminate].
  cbn [mbind option_bind] in Hset.
  pose proof (H1 p job Hjob) as Hreg.
  assert (Hdel :
    forall cache',
      (forall id, id <> jobTrackId job -> cache' !! id = _cache s !! id) ->
      consistent
        (withRuntime (nextPromise s) (delete p (jobs s))
           (<[p := cache' !! jobTrackId job]> (settled s)) (fetched s)
           (withMaps cache' (delete (jobTrackId job) (_inflight s)) s))).
  { intros cache' Hsame. split; cbn.
    - intros q jq Hq. destruct (decide (q = p)) as [-> | Hne].
      + now rewrite lookup_delete_eq in Hq.
      + rewrite lookup_delete_ne in Hq by congruence.
        pose proof (H1 q jq Hq) as Hq'.
        rewrite lookup_delete_ne; [assumption |].
        intros Heq. rewrite <- Heq in Hq'. congruence.
    - intros id q Hq. destruct (decide (id = jobTrackId job)) as [-> | Hne].
      + now rewrite lookup_delete_eq in Hq.
      + rewrite lookup_delete_ne in Hq by congruence.
        destruct (H2 id q Hq) as (jq & Hjq & Hid).
        exists jq. split; [| assumption].
        rewrite lookup_delete_ne; [assumption |].
        intros <-. congruence.
    - intros id Hid. destruct (decide (id = jobTrackId job)) as [-> | Hne].
      + apply lookup_delete_eq.
      + rewrite lookup_delete_ne by congruence. apply H3.
        now rewrite <- Hsame.
    - intros q Hq. destruct (decide (q = p)) as [-> | Hne].
      + apply lookup_delete_eq.
      + rewrite lookup_delete_ne by congruence. now apply H4. }
  destruct net as [| status | | | audioBuffer].
  5: { destruct (measureLUFS audioBuffer) as [result |]; [| discriminate].
       cbn in Hset. injection Hset as <-.
       pose proof (Hdel (<[jobTrackId job := result]> (_cache s))
                     ltac:(intros; now apply lookup_insert_ne)) as Hd.
       destruct Hd as [D1 D2 D3 D4]. split; assumption. }
  all: injection Hset as <-;
    pose proof (Hdel (_cache s) ltac:(reflexivity)) as Hd;
    destruct Hd as [D1 D2 D3 D4]; split; assumption.
Qed.

(** Operations on the gain nodes, the flags and the host leave the dedup
    maps alone. *)
Ltac same_maps :=
  match goal with
  | H : consistent ?s |- consistent _ =>
      refine (consistent_same s _ _ _ _ _ H);
      repeat case_match; reflexivity
  end.

Lemma consistent_setTargetAtTime (lane : Lane) (node : GainNode)
      (target timeConstant : R) (s : State) :
  consistent s -> consistent (setTargetAtTime lane node target timeConstant s).
Proof. intros H. unfold setTargetAtTime. same_maps. Qed.

Lemma consistent_initAudioContext (s : State) :
  consistent s -> consistent (initAudioContext s).
Proof. intros H. unfold initAudioContext. same_maps. Qed.

Lemma consistent_applyGain (audioEl : AudioEl) (trackId : string) (s : State) :
  consistent s -> consistent (applyGain audioEl trackId s).
Proof.
  intros H. unfold applyGain. repeat case_match; try assumption.
  now apply consistent_setTargetAtTime.
Qed.

Lemma consistent_resetGain (audioEl : AudioEl) (s : State) :
  consistent s -> consistent (resetGain audioEl s).
Proof.
  intros H. unfold resetGain. repeat case_match; try assumption.
  now apply consistent_setTargetAtTime.
Qed.

Lemma consistent_withSuspended (ws : list Suspended) (s : State) :
  consistent s -> consistent (withSuspended ws s).
Proof. intros H. same_maps. Qed.

Lemma consistent_analyzeAndApply (audioEl : AudioEl) (url trackId : string)
      (s : State) :
  consistent s -> consistent (analyzeAndApply audioEl url trackId s).
Proof.
  intros H. unfold analyzeAndApply.
  destruct (negb (_enabled s)); [assumption |].
  set (s1 := if bool_decide (is_Some (_audioCtx s)) then s else initAudioContext s).
  assert (H1 : consistent s1).
  { subst s1. case_match; [assumption | now apply consistent_initAudioContext]. }
  clearbody s1. case_match; [now apply consistent_applyGain |].
  set (s2 := match getGainNode s1 audioEl with
             | Some (lane, node) => setTargetAtTime lane node 1.0 0.05 s1
             | None => s1
             end).
  assert (H2 : consistent s2).
  { subst s2. repeat case_match; [now apply consistent_setTargetAtTime | assumption]. }
  clearbody s2.
  pose proof (consistent_analyzeLUFS url trackId s2 H2) as H3.
  destruct (analyzeLUFS url trackId s2) as [o s3]. cbn [snd] in H3.
  now apply consistent_withSuspended.
Qed.

Lemma consistent_step (e : Event) (s s' : State) :
  clears e = false -> consistent s -> step e s = Some s' -> consistent s'.
Proof.
  intros Hclear Hs Hstep.
  destruct e; cbn [step clears] in *; try discriminate;
    try (injection Hstep as <-).
  - now apply consistent_initAudioContext.
  - unfold setEnabled.
    assert (H1 : consistent (withEnabled val s)) by same_maps.
    case_match; [| assumption].
    now apply consistent_resetGain, consistent_resetGain.
  - unfold setTarget. same_maps.
  - now apply consistent_analyzeAndApply.
  - unfold preAnalyze. repeat case_match; try assumption.
    now apply consistent_analyzeLUFS.
  - now apply consistent_applyGain.
  - now apply consistent_resetGain.
  - now apply consistent_settle with p net s.
  - unfold resume in Hstep.
    destruct (suspended s !! k) as [w |]; [| discriminate].
    cbn [mbind option_bind] in Hstep.
    destruct (resolution s (susAwait w)) as [result |]; [| discriminate].
    cbn in Hstep. injection Hstep as <-.
    pose proof (consistent_withSuspended (delete k (suspended s)) s Hs) as H1.
    unfold analyzeAndApply_resume. repeat case_match; try assumption.
    now apply consistent_applyGain.
  - same_maps.
  - destruct (decide (dt > 0)%R); [| discriminate].
    injection Hstep as <-. unfold advance. same_maps.
Qed.

(** The invariant holds in every state reached without [clearCache] and
    [destroy]. *)
Lemma consistent_run (es : list Event) (s s' : State) :
  Forall (fun e => clears e = false) es ->
  consistent s -> run es s = Some s' -> consistent s'.
Proof.
  intros Hes. revert s. induction Hes as [| e es He _ IH]; intros s Hs Hrun.
  - cbn in Hrun. now injection Hrun as <-.
  - cbn [run] in Hrun. destruct (step e s) as [s1 |] eqn:Hstep; [| discriminate].
    cbn in Hrun. apply (IH s1); [| assumption].
    now apply consistent_step with e s.
Qed.

Lemma consistent_one_job (s : State) (p q : PromiseId) (jp jq : Job) :
  consistent s ->
  jobs s !! p = Some jp -> jobs s !! q = Some jq ->
  jobTrackId jp = jobTrackId jq -> p = q.
Proof.
  intros Hs Hp Hq Heq.
  pose proof (job_registered s Hs p jp Hp) as H1.
  pose proof (job_registered s Hs q jq Hq) as H2.
  congruence.
Qed.

(** While an analysis for an identifier is running, every call for that
    identifier joins it and leaves the state as it is. *)
Lemma running_analysis_is_joined (s : State) (p : PromiseId) (job : Job)
      (url : string) :
  consistent s -> jobs s !! p = Some job ->
  analyzeLUFS url (jobTrackId job) s = (Join p, s).
Proof.
  intros Hs Hjob.
  pose proof (job_registered s Hs p job Hjob) as Hreg.
  apply analyzeLUFS_joins; [| assumption].
  destruct (_cache s !! jobTrackId job) as [m |] eqn:Hc; [| reflexivity].
  pose proof (cached_not_inflight s Hs (jobTrackId job) ltac:(now rewrite Hc)).
  congruence.
Qed.

Lemma settle_failure (p : PromiseId) (net : NetResult) (s : State) (job : Job) :
  jobs s !! p = Some job -> failed net = true ->
  settle p net s
  = Some (withRuntime (nextPromise s) (delete p (jobs s))
            (<[p := None]> (settled s)) (fetched s)
            (withMaps (_cache s) (delete (jobTrackId job) (_inflight s)) s)).
Proof.
  intros Hjob Hfail. unfold settle. rewrite Hjob. cbn [mbind option_bind].
  destruct net; try discriminate; reflexivity.
Qed.

Lemma settle_success (p : PromiseId) (audioBuffer : AudioBuffer) (s : State)
      (job : Job) (result : Measurement) :
  jobs s !! p = Some job -> measureLUFS audioBuffer = Some result ->
  settle p (Decoded audioBuffer) s
  = Some (withRuntime (nextPromise s) (delete p (jobs s))
            (<[p := Some result]> (settled s)) (fetched s)
            (withMaps (<[jobTrackId job := result]> (_cache s))
                      (delete (jobTrackId job) (_inflight s)) s)).
Proof.
  intros Hjob Hm. unfold settle. rewrite Hjob. cbn [mbind option_bind].
  rewrite Hm. reflexivity.
Qed.

(** C6, amended.  As long as neither [clearCache] nor [destroy] is called,
    at most one analysis runs per identifier, and while it runs every call
    for the identifier joins its promise.  A cached result is returned at
    once and the state is untouched; with an analysis in flight a call joins
    its promise and starts nothing.  Calls issued back to back for a fresh
    identifier issue one fetch, start one analysis, and all follow the same
    promise; when that analysis completes, with a measurement or with a
    failure, it is the only fetch that was made, and every one of the calls
    resolves to the same result: the measurement of the decoded buffer, which
    is then cached, or [null]. *)
Theorem analyzeLUFS_dedup (s : State) (trackId : string) :
  (forall es,
      Forall (fun e => clears e = false) es -> run es initial = Some s ->
      forall p jp,
        jobs s !! p = Some jp -> jobTrackId jp = trackId ->
        (forall q jq, jobs s !! q = Some jq -> jobTrackId jq = trackId -> p = q)
        /\ (forall url, analyzeLUFS url trackId s = (Join p, s)))
  /\ (forall url m,
        _cache s !! trackId = Some m -> analyzeLUFS url trackId s = (Now m, s))
  /\ (forall url p,
        _cache s !! trackId = None -> _inflight s !! trackId = Some p ->
        analyzeLUFS url trackId s = (Join p, s))
  /\ (forall url urls,
        _cache s !! trackId = None -> _inflight s !! trackId = None ->
        let r := analyzeMany (url :: urls) trackId s in
        let p := nextPromise s in
        fst r = replicate (S (length urls)) (Join p)
        /\ fetched (snd r) = fetched s ++ [(p, url)]
        /\ jobs (snd r) = <[p := {| jobUrl := url; jobTrackId := trackId |}]> (jobs s)
        /\ (forall audioBuffer m,
              measureLUFS audioBuffer = Some m ->
              exists s',
                settle p (Decoded audioBuffer) (snd r) = Some s'
                /\ Forall (fun o => resolution s' o = Some (Some m)) (fst r)
                /\ _cache s' !! trackId = Some m
                /\ _inflight s' !! trackId = None
                /\ jobs s' !! p = None
                /\ fetched s' = fetched s ++ [(p, url)])
        /\ (forall net,
              failed net = true ->
              exists s',
                settle p net (snd r) = Some s'
                /\ Forall (fun o => resolution s' o = Some None) (fst r)
                /\ _cache s' !! trackId = None
                /\ _inflight s' !! trackId = None
                /\ jobs s' !! p = None
                /\ fetched s' = fetched s ++ [(p, url)])).
Proof.
  split; [| split; [| split]].
  - intros es Hes Hrun p jp Hp Hjp.
    pose proof (consistent_run es initial s Hes consistent_initial Hrun) as Hs.
    split.
    + intros q jq Hq Hjq.
      apply (consistent_one_job s p q jp jq); try assumption. congruence.
    + intros url. rewrite <- Hjp. now apply running_analysis_is_joined.
  - intros url m. apply analyzeLUFS_cached.
  - intros url p. apply analyzeLUFS_joins.
  - intros url urls Hc Hi r p. subst r p.
    rewrite (analyzeMany_starts url urls trackId s Hc Hi). cbn [fst snd].
    destruct (analyzeLUFS_starts url trackId s Hc Hi)
      as (s1 & -> & Hc1 & Hi1 & Hj & Hf & _).
    cbn [snd].
    assert (Hjob : jobs s1 !! nextPromise s
                   = Some {| jobUrl := url; jobTrackId := trackId |})
      by (rewrite Hj; apply lookup_insert_eq).
    split; [reflexivity |]. split; [assumption |]. split; [assumption |]. split.
    + intros audioBuffer m Hm. eexists. split.
      * apply (settle_success _ _ _ _ _ Hjob Hm).
      * split; [apply Forall_replicate; cbn; apply lookup_insert_eq |].
        cbn. split; [| split; [| split]].
        -- apply lookup_insert_eq.
        -- apply lookup_delete_eq.
        -- apply lookup_delete_eq.
        -- exact Hf.
    + intros net Hnet. eexists. split.
      * apply (settle_failure _ _ _ _ Hjob Hnet).
      * split; [apply Forall_replicate; cbn; apply lookup_insert_eq |].
        cbn. split; [| split; [| split]].
        -- now rewrite Hc1.
        -- apply lookup_delete_eq.
        -- apply lookup_delete_eq.
        -- exact Hf.
Qed.

(** C6 as stated fails once [clearCache] is called under a running
    analysis: the analysis keeps running, but the call made afterwards for
    the same identifier does not join it.  It starts a second analysis with
    a second fetch, and two computations for "t" are in flight at once. *)
Lemma clearCache_forgets_running_analysis :
  let s1 := snd (analyzeLUFS "u" "t" initial) in
  let s2 := clearCache s1 in
  let s3 := snd (analyzeLUFS "u" "t" s2) in
  jobs s2 !! 0%nat = Some {| jobUrl := "u"; jobTrackId := "t" |}
  /\ fst (analyzeLUFS "u" "t" s1) = Join 0
  /\ fst (analyzeLUFS "u" "t" s2) = Join 1
  /\ jobs s3 !! 0%nat = Some {| jobUrl := "u"; jobTrackId := "t" |}
  /\ jobs s3 !! 1%nat = Some {| jobUrl := "u"; jobTrackId := "t" |}
  /\ fetched s3 = [(0%nat, "u"); (1%nat, "u")]
  /\ run [CallSetEnabled true; CallPreAnalyze "u" "t"; CallClearCache;
          CallPreAnalyze "u" "t"] initial = Some (withEnabled true s3).
Proof. repeat split. Qed.

Lemma analyzeLUFS_dedup_witness :
  (forall url,
      analyzeLUFS url "t" (preAnalyze "u" "t" (setEnabled true initial))
      = (Join 0, preAnalyze "u" "t" (setEnabled true initial)))
  /\ analyzeLUFS "u" "loud" threeTracks
     = (Now {| lufs := Finite (-34); peak := 0.01 |}, threeTracks)
  /\ analyzeLUFS "v" "t" (snd (analyzeLUFS "u" "t" initial))
     = (Join 0, snd (analyzeLUFS "u" "t" initial))
  /\ fst (analyzeMany ["u"; "u"; "u"] "t" initial) = [Join 0; Join 0; Join 0]
  /\ fetched (snd (analyzeMany ["u"; "u"; "u"] "t" initial)) = [(0%nat, "u")]
  /\ exists s',
      settle 0 (Decoded loudClick) (snd (analyzeMany ["u"; "u"; "u"] "t" initial))
      = Some s'
      /\ Forall (fun o => resolution s' o
                          = Some (Some {| lufs := Finite (loudnessOf (clickPower 1));
                                          peak := 1 |}))
                [Join 0; Join 0; Join 0]
      /\ fetched s' = [(0%nat, "u")].
Proof.
  destruct (analyzeLUFS_dedup (preAnalyze "u" "t" (setEnabled true initial)) "t")
    as (Hone & _ & _ & _).
  destruct (analyzeLUFS_dedup initial "t") as (_ & _ & _ & Hmany).
  destruct (analyzeLUFS_dedup threeTracks "loud") as (_ & Hcached & _ & _).
  destruct (analyzeLUFS_dedup (snd (analyzeLUFS "u" "t" initial)) "t")
    as (_ & _ & Hjoin & _).
  destruct (Hmany "u" ["u"; "u"] eq_refl eq_refl)
    as (Houts & Hfetched & _ & Hdone & _).
  destruct (Hdone loudClick _ measureLUFS_loudClick)
    as (s' & Hsettle & Hall & _ & _ & _ & Hf).
  split; [| split; [| split; [| split; [| split]]]].
  - apply (Hone [CallSetEnabled true; CallPreAnalyze "u" "t"]
             ltac:(repeat constructor) eq_refl
             0%nat {| jobUrl := "u"; jobTrackId := "t" |} eq_refl eq_refl).
  - apply Hcached. reflexivity.
  - apply Hjoin; reflexivity.
  - exact Houts.
  - exact Hfetched.
  - exists s'. split; [exact Hsettle |]. split; [| exact Hf].
    rewrite Houts in Hall. exact Hall.
Defined.

End Dedup.

(** ** Failures *)

Section Failures.

(** A running analysis is for an identifier that is not cached. *)
Lemma running_not_cached (s : State) (p : PromiseId) (job : Job) :
  consistent s -> jobs s !! p = Some job -> _cache s !! jobTrackId job = None.
Proof.
  intros Hs Hjob.
  pose proof (job_registered s Hs p job Hjob) as Hreg.
  destruct (_cache s !! jobTrackId job) as [m |] eqn:Hc; [| reflexivity].
  pose proof (cached_not_inflight s Hs (jobTrackId job) ltac:(now rewrite Hc)).
  congruence.
Qed.

(** C7.  When the fetch, the response or the decoder fails, the closure of
    [analyzeLUFS] still completes: its promise is fulfilled with [null], the
    in-flight entry of the identifier is removed, the cache and the gain
    nodes are as before; a later call for the identifier starts a new
    analysis with a new fetch and [computeGain] for it is 1 (the identifier
    not being cached, as in every state reached without emptying the maps);
    a suspended [analyzeAndApply] that receives [null] changes nothing. *)
Theorem analysis_failure_is_contained
        (p : PromiseId) (net : NetResult) (s : State) (job : Job) :
  jobs s !! p = Some job ->
  failed net = true ->
  exists s',
    settle p net s = Some s'
    /\ resolution s' (Join p) = Some None
    /\ _inflight s' !! jobTrackId job = None
    /\ _cache s' = _cache s
    /\ (_gainA s', _gainB s') = (_gainA s, _gainB s)
    /\ (_cache s !! jobTrackId job = None
        \/ (exists es, Forall (fun e => clears e = false) es
                       /\ run es initial = Some s) ->
        (forall url,
            fst (analyzeLUFS url (jobTrackId job) s') = Join (nextPromise s')
            /\ fetched (snd (analyzeLUFS url (jobTrackId job) s'))
               = fetched s' ++ [(nextPromise s', url)])
        /\ computeGain s' (jobTrackId job) = 1%R)
    /\ (forall audioEl url trackId s'',
          analyzeAndApply_resume audioEl url trackId None s'' = s'').
Proof.
  intros Hjob Hfail. eexists.
  split; [exact (settle_failure p net s job Hjob Hfail) |].
  cbn. split; [apply lookup_insert_eq |].
  split; [apply lookup_delete_eq |].
  split; [reflexivity |]. split; [reflexivity |].
  split; [| reflexivity].
  intros Hnc.
  assert (Hc : _cache s !! jobTrackId job = None).
  { destruct Hnc as [Hc | (es & Hes & Hrun)]; [assumption |].
    apply (running_not_cached s p job); [| assumption].
    now apply (consistent_run es initial s Hes consistent_initial). }
  split; [| now apply computeGain_absent].
  intros url.
  destruct (analyzeLUFS_starts url (jobTrackId job)
              (withRuntime (nextPromise s) (delete p (jobs s))
                 (<[p := None]> (settled s)) (fetched s)
                 (withMaps (_cache s) (delete (jobTrackId job) (_inflight s)) s)))
    as (s1 & -> & _ & _ & _ & Hf & _); [assumption | apply lookup_delete_eq |].
  split; [reflexivity | exact Hf].
Qed.

Lemma analysis_failure_is_contained_witness :
  let s := snd (analyzeLUFS "u" "t" initial) in
  exists s',
    settle 0 (NotOk 404) s = Some s'
    /\ resolution s' (Join 0) = Some None
    /\ _inflight s' !! "t" = None
    /\ _cache s' = _cache s
    /\ (forall url,
          fst (analyzeLUFS url "t" s') = Join (nextPromise s')
          /\ fetched (snd (analyzeLUFS url "t" s'))
             = fetched s' ++ [(nextPromise s', url)])
    /\ computeGain s' "t" = 1%R.
Proof.
  intros s.
  destruct (analysis_failure_is_contained 0 (NotOk 404) s
              {| jobUrl := "u"; jobTrackId := "t" |} eq_refl eq_refl)
    as (s' & Hset & Hres & Hin & Hc & _ & Hlater & _).
  destruct (Hlater (or_introl eq_refl)) as [Hfresh Hgain].
  exists s'. repeat split; try assumption; apply Hfresh.
Defined.

End Failures.

(** ** Enabling, disabling and stale results *)

Section Facade.

Lemma setTargetAtTime_laneA (node : GainNode) (target tc : R) (s : State) :
  setTargetAtTime LaneA node target tc s
  = withAudio (_audioCtx s)
      (Some ({| rampTarget := target; rampStart := now s;
                rampTimeConstant := tc |} :: node)) (_gainB s) s.
Proof. reflexivity. Qed.

(** With an audio context, [resetGain] puts a unity ramp on the lane. *)
Lemma resetGain_audioA (s : State) (ctx : AudioContext) (gA : GainNode) :
  _audioCtx s = Some ctx -> _gainA s = Some gA ->
  resetGain audioA s = withAudio (Some ctx) (Some (unityRamp ctx :: gA)) (_gainB s) s.
Proof.
  intros Hctx HA. unfold resetGain, getGainNode, setTargetAtTime, now.
  rewrite Hctx, HA. reflexivity.
Qed.

Lemma resetGain_audioB (s : State) (ctx : AudioContext) (gB : GainNode) :
  _audioCtx s = Some ctx -> _gainB s = Some gB ->
  resetGain audioB s = withAudio (Some ctx) (_gainA s) (Some (unityRamp ctx :: gB)) s.
Proof.
  intros Hctx HB. unfold resetGain, getGainNode, setTargetAtTime, now.
  rewrite Hctx, HB. reflexivity.
Qed.

Lemma resetGain_no_context (audioEl : AudioEl) (s : State) :
  _audioCtx s = None -> resetGain audioEl s = s.
Proof. intros H. unfold resetGain. now rewrite H. Qed.

Lemma analyzeAndApply_disabled (audioEl : AudioEl) (url trackId : string) (s : State) :
  _enabled s = false -> analyzeAndApply audioEl url trackId s = s.
Proof. intros H. unfold analyzeAndApply. now rewrite H. Qed.

Lemma applyGain_disabled (audioEl : AudioEl) (trackId : string) (s : State) :
  _enabled s = false -> applyGain audioEl trackId s = s.
Proof. intros H. unfold applyGain. now rewrite H. Qed.

(** C8, amended.  With an audio context and its two gain nodes in place,
    [setEnabled(false)] clears the flag and schedules a ramp to unity on both
    lanes, whatever was scheduled before; and in any disabled state every
    [analyzeAndApply] call, and every resumption of an earlier one, leaves
    the whole state (cache, promises, gain nodes) as it is. *)
Theorem setEnabled_false_resets_lanes
        (s : State) (ctx : AudioContext) (gA gB : GainNode) :
  _audioCtx s = Some ctx -> _gainA s = Some gA -> _gainB s = Some gB ->
  _enabled (setEnabled false s) = false
  /\ _gainA (setEnabled false s) = Some (unityRamp ctx :: gA)
  /\ _gainB (setEnabled false s) = Some (unityRamp ctx :: gB)
  /\ (forall s0 audioEl url trackId,
        _enabled s0 = false ->
        analyzeAndApply audioEl url trackId s0 = s0)
  /\ (forall s0 audioEl url trackId result,
        _enabled s0 = false ->
        analyzeAndApply_resume audioEl url trackId result s0 = s0).
Proof.
  intros Hctx HA HB.
  assert (Hs : setEnabled false s
               = withAudio (Some ctx) (Some (unityRamp ctx :: gA))
                   (Some (unityRamp ctx :: gB)) (withEnabled false s)).
  { unfold setEnabled. cbn [_enabled withEnabled negb].
    rewrite (resetGain_audioA (withEnabled false s) ctx gA Hctx HA).
    rewrite (resetGain_audioB _ ctx gB) by (cbn; assumption || reflexivity).
    reflexivity. }
  rewrite Hs. split; [reflexivity |]. split; [reflexivity |].
  split; [reflexivity |]. split.
  - intros. now apply analyzeAndApply_disabled.
  - intros s0 audioEl url trackId result Hdis. unfold analyzeAndApply_resume.
    destruct result; [| reflexivity].
    case_match; [| reflexivity]. now apply applyGain_disabled.
Qed.

Lemma setEnabled_false_resets_lanes_witness :
  let s := initAudioContext (setEnabled true initial) in
  _enabled (setEnabled false s) = false
  /\ _gainA (setEnabled false s) = Some [unityRamp {| currentTime := 0 |}]
  /\ _gainB (setEnabled false s) = Some [unityRamp {| currentTime := 0 |}]
  /\ analyzeAndApply audioA "u" "t" (setEnabled false s) = setEnabled false s
  /\ analyzeAndApply_resume audioA "u" "t" None (setEnabled false s)
     = setEnabled false s.
Proof.
  intros s.
  destruct (setEnabled_false_resets_lanes s {| currentTime := 0 |} [] []
              eq_refl eq_refl eq_refl) as (Hen & HA & HB & Hcall & Hres).
  split; [exact Hen |]. split; [exact HA |]. split; [exact HB |].
  split; [apply Hcall; exact Hen | apply Hres; exact Hen].
Defined.

Lemma computeGain_ext (s s' : State) (trackId : string) :
  _cache s' = _cache s -> _target s' = _target s ->
  computeGain s' trackId = computeGain s trackId.
Proof. intros Hc Ht. unfold computeGain. now rewrite Hc, Ht. Qed.

(** C8 as stated fails without an audio context.  Before the context is
    created [setEnabled(false)] schedules nothing; and after [destroy] a lane
    keeps the ramp it had (here to a gain of 10) with no ramp to unity added. *)
Lemma setEnabled_false_schedules_nothing :
  setEnabled false initial = initial
  /\ _gainA (setEnabled false initial) = None
  /\ _gainB (setEnabled false initial) = None
  /\ exists s r,
      run [CallSetEnabled true; CallInitAudioContext;
           CallApplyGain audioA "loud"; CallDestroy] threeTracks = Some s
      /\ _gainA s = Some [r]
      /\ rampTarget r = 10%R
      /\ _gainA (setEnabled false s) = Some [r]
      /\ _gainB (setEnabled false s) = Some [].
Proof.
  split; [reflexivity |]. split; [reflexivity |]. split; [reflexivity |].
  eexists. eexists. split; [reflexivity |]. cbn.
  split; [reflexivity |]. split; [| split; reflexivity].
  rewrite (computeGain_ext threeTracks) by reflexivity.
  apply computeGain_loud.
Qed.

Lemma applyGain_src (audioEl : AudioEl) (trackId : string) (s : State) :
  (srcA (applyGain audioEl trackId s), srcB (applyGain audioEl trackId s),
   srcOther (applyGain audioEl trackId s))
  = (srcA s, srcB s, srcOther s).
Proof.
  unfold applyGain, setTargetAtTime. repeat case_match; reflexivity.
Qed.

(** C10.  When a suspended [analyzeAndApply] is resumed with a measurement,
    the gain is applied only if the element's source still is the url the
    call was made for: with another source, or none, both gain nodes are
    left as they are; with the same source the continuation is [applyGain]
    for the track. *)
Theorem stale_analysis_is_not_applied
        (s : State) (k : nat) (w : Suspended) (m : Measurement) :
  suspended s !! k = Some w ->
  resolution s (susAwait w) = Some (Some m) ->
  exists s',
    resume k s = Some s'
    /\ (src s (susEl w) <> susUrl w \/ src s (susEl w) = EmptyString ->
        (_gainA s', _gainB s') = (_gainA s, _gainB s))
    /\ ((_gainA s', _gainB s') <> (_gainA s, _gainB s) ->
        src s (susEl w) = susUrl w)
    /\ (src s (susEl w) = susUrl w -> susUrl w <> EmptyString ->
        s' = applyGain (susEl w) (susTrackId w)
               (withSuspended (delete k (suspended s)) s)).
Proof.
  intros Hw Hres. unfold resume. rewrite Hw. cbn [mbind option_bind].
  rewrite Hres. cbn [mbind option_bind]. eexists. split; [reflexivity |].
  unfold analyzeAndApply_resume.
  assert (Hsrc : src (withSuspended (delete k (suspended s)) s) (susEl w)
                 = src s (susEl w)) by (destruct (susEl w); reflexivity).
  rewrite Hsrc.
  destruct (decide (src s (susEl w) = susUrl w)) as [Heq | Hne].
  - destruct (decide (src s (susEl w) = EmptyString)) as [Hempty | Hfull].
    + rewrite (bool_decide_eq_true_2 _ Hempty). cbn [negb andb].
      split; [reflexivity |]. split; [intros _; exact Heq |].
      intros _ Hurl. congruence.
    + rewrite (bool_decide_eq_false_2 _ Hfull), (bool_decide_eq_true_2 _ Heq).
      cbn [negb andb].
      split; [intros [Hne | Hempty]; congruence |].
      split; [intros _; exact Heq |]. reflexivity.
  - rewrite (bool_decide_eq_false_2 _ Hne), andb_false_r.
    split; [reflexivity |]. split; [intros Hdiff; now destruct Hdiff |].
    intros Heq. congruence.
Qed.

Lemma stale_analysis_is_not_applied_witness :
  exists s s',
    settle 0 (Decoded loudClick) switched = Some s
    /\ _cache s !! "t"
       = Some {| lufs := Finite (loudnessOf (clickPower 1)); peak := 1 |}
    /\ src s audioA = "v"
    /\ resume 0 s = Some s'
    /\ (_gainA s', _gainB s') = (_gainA s, _gainB s).
Proof.
  pose proof (settle_success 0 loudClick switched
                {| jobUrl := "u"; jobTrackId := "t" |}
                {| lufs := Finite (loudnessOf (clickPower 1)); peak := 1 |}
                eq_refl measureLUFS_loudClick) as Hset.
  match type of Hset with
  | _ = Some ?s =>
      destruct (stale_analysis_is_not_applied s 0
                  {| susEl := audioA; susUrl := "u"; susTrackId := "t";
                     susAwait := Join 0 |}
                  {| lufs := Finite (loudnessOf (clickPower 1)); peak := 1 |}
                  eq_refl eq_refl)
        as (s' & Hrun & Hstale & _);
      exists s, s'
  end.
  split; [exact Hset |]. split; [reflexivity |]. split; [reflexivity |].
  split; [exact Hrun |].
  apply Hstale. left. discriminate.
Defined.

End Facade.

(** * Further properties of the code *)

(** ** The biquad filter *)

Section Biquad.
Local Open Scope R_scope.

Lemma biquadLoop_scale (bq aq : list R) (c z1 z2 : R) (samples : list R) :
  biquadLoop bq aq (c * z1) (c * z2) (map (Rmult c) samples)
  = map (Rmult c) (biquadLoop bq aq z1 z2 samples).
Proof.
  revert z1 z2. induction samples as [| x rest IH]; intros z1 z2; cbn;
    [reflexivity |].
  f_equal; [ring |]. rewrite <- IH. f_equal; ring.
Qed.

End Biquad.

(** ** Block powers under a gain, in exact arithmetic *)

Section Scaling.
Local Open Scope R_scope.

Lemma sumSquares_scale (c : R) (xs : list R) :
  sumSquares (map (Rmult c) xs) = c * c * sumSquares xs.
Proof.
  induction xs as [| x xs IH]; cbn; [ring |].
  fold (sumSquares (map (Rmult c) xs)). fold (sumSquares xs). rewrite IH. ring.
Qed.

Lemma meanSquare_scale (c : R) (data : list R) (start bs : Z) :
  meanSquare (map (Rmult c) data) start bs = c * c * meanSquare data start bs.
Proof.
  unfold meanSquare. rewrite skipn_map, firstn_map, sumSquares_scale.
  unfold Rdiv. ring.
Qed.

Lemma weightedPower_scale (c : R) (weights : list R) (kw : list (list R))
      (bs start : Z) :
  weightedPower weights (map (map (Rmult c)) kw) bs start
  = c * c * weightedPower weights kw bs start.
Proof.
  unfold weightedPower. revert kw.
  induction weights as [| w ws IH]; intros kw; cbn; [ring |].
  destruct kw as [| data kw]; cbn; [ring |].
  rewrite IH, meanSquare_scale. ring.
Qed.

Lemma applyBiquad_scale (c : R) (xs bq aq : list R) :
  applyBiquad (map (Rmult c) xs) bq aq = map (Rmult c) (applyBiquad xs bq aq).
Proof.
  unfold applyBiquad. rewrite <- biquadLoop_scale. f_equal; ring.
Qed.

Lemma kWeighted_scale (c : R) (audioBuffer : AudioBuffer) :
  kWeighted (scaleBuffer c audioBuffer)
  = map (map (Rmult c)) (kWeighted audioBuffer).
Proof.
  unfold kWeighted, scaleBuffer. cbn [sampleRate getChannelData].
  rewrite !map_map. apply map_ext. intros data.
  now rewrite !applyBiquad_scale.
Qed.

Lemma blockLoop_scale (c : R) (fuel : nat) (weights : list R)
      (kw : list (list R)) (bs step len start : Z) :
  blockLoop fuel weights (map (map (Rmult c)) kw) bs step len start
  = map (Rmult (c * c)) <$> blockLoop fuel weights kw bs step len start.
Proof.
  revert start. induction fuel as [| fuel IH]; intros start; cbn [blockLoop];
    destruct (start + bs <=? len)%Z; try reflexivity.
  rewrite IH.
  destruct (blockLoop fuel weights kw bs step len (start + step)) as [rest |];
    [| reflexivity].
  cbn. rewrite !blockPowerAt_spec, weightedPower_scale. reflexivity.
Qed.

End Scaling.

(** ** What the block loop returns *)

Section BlockSequence.
Local Open Scope R_scope.

Lemma sumSquares_nonneg (xs : list R) : 0 <= sumSquares xs.
Proof.
  induction xs as [| x xs IH]; cbn; [lra |].
  fold (sumSquares xs). nra.
Qed.

Lemma weightedPower_nonneg (weights : list R) (kw : list (list R))
      (bs start : Z) :
  (0 < bs)%Z -> Forall (fun w => 0 <= w) weights ->
  0 <= weightedPower weights kw bs start.
Proof.
  intros Hbs Hw. unfold weightedPower. revert kw.
  induction Hw as [| w ws Hw0 _ IH]; intros kw; cbn; [lra |].
  destruct kw as [| data kw]; cbn; [lra |].
  specialize (IH kw).
  assert (0 <= meanSquare data start bs).
  { unfold meanSquare. apply Rmult_le_pos; [apply sumSquares_nonneg |].
    left. apply Rinv_0_lt_compat. now apply IZR_lt. }
  nra.
Qed.

Lemma channelWeight_nonneg (n : nat) : Forall (fun w => 0 <= w) (channelWeight n).
Proof.
  unfold channelWeight. apply Forall_map, Forall_forall. intros ch _.
  cbn beta. destruct (3 <=? ch)%nat; lra.
Qed.

Lemma blockLoop_nonneg (fuel : nat) (weights : list R) (kw : list (list R))
      (bs step len start : Z) (blocks : list R) :
  (0 < bs)%Z -> Forall (fun w => 0 <= w) weights ->
  blockLoop fuel weights kw bs step len start = Some blocks ->
  Forall (fun p => 0 <= p) blocks.
Proof.
  intros Hbs Hw. revert start blocks.
  induction fuel as [| fuel IH]; intros start blocks; cbn [blockLoop];
    destruct (start + bs <=? len)%Z; try discriminate;
    try (intros [= <-]; constructor).
  destruct (blockLoop fuel weights kw bs step len (start + step)) as [rest |] eqn:Hrest;
    [| discriminate].
  cbn. intros [= <-]. constructor; [| now apply (IH (start + step)%Z)].
  rewrite blockPowerAt_spec. now apply weightedPower_nonneg.
Qed.

Lemma stepSamples_small (sr : Z) :
  (0 <= sr < 4)%Z -> stepSamples sr = 0%Z /\ (0 <= blockSamples sr)%Z.
Proof.
  intros Hsr. rewrite stepSamples_div, blockSamples_div.
  assert (sr = 0 \/ sr = 1 \/ sr = 2 \/ sr = 3)%Z as [-> | [-> | [-> | ->]]] by lia;
    split; (reflexivity || (cbv; discriminate)).
Qed.

(** A block power is a weighted sum of mean squares, hence never negative. *)
Theorem block_powers_nonneg (audioBuffer : AudioBuffer) (blocks : list R) :
  (0 <= sampleRate audioBuffer)%Z ->
  blocksOf audioBuffer = Some blocks ->
  Forall (fun p => 0 <= p) blocks.
Proof.
  intros Hsr Hb. unfold blocksOf in Hb.
  destruct (decide (0 < blockSamples (sampleRate audioBuffer))%Z) as [Hbs | Hbs].
  - eapply blockLoop_nonneg; [exact Hbs | apply channelWeight_nonneg | exact Hb].
  - pose proof (blockSamples_nonneg _ Hsr) as Hge.
    assert (H0 : blockSamples (sampleRate audioBuffer) = 0%Z) by lia.
    assert (Hstep : stepSamples (sampleRate audioBuffer) = 0%Z).
    { rewrite stepSamples_div, H0. reflexivity. }
    rewrite H0, Hstep in Hb.
    destruct (decide (0 <= frames audioBuffer)%Z) as [Hlen | Hlen].
    + rewrite blockLoop_diverges in Hb by lia. discriminate.
    + rewrite blockLoop_exit in Hb by lia. injection Hb as <-. constructor.
Qed.

Lemma block_powers_nonneg_witness : Forall (fun p => 0 <= p) [clickPower 1].
Proof.
  apply (block_powers_nonneg loudClick [clickPower 1]).
  - cbn. lia.
  - apply blocksOf_clickBuffer.
Defined.

(** [measureLUFS] returns exactly when the sample rate is at least 4 Hz or
    the buffer is shorter than one block: at a rate of 0 to 3 Hz the step
    rounds to 0 and the block loop never ends once a block fits. *)
Theorem measureLUFS_returns_iff (audioBuffer : AudioBuffer) :
  (0 <= sampleRate audioBuffer)%Z -> (0 <= frames audioBuffer)%Z ->
  (is_Some (measureLUFS audioBuffer)
   <-> (4 <= sampleRate audioBuffer)%Z
       \/ (frames audioBuffer < blockSamples (sampleRate audioBuffer))%Z).
Proof.
  intros Hsr Hlen. unfold measureLUFS, blocksOf.
  set (ws := channelWeight (numberOfChannels audioBuffer)).
  set (kw := kWeighted audioBuffer).
  set (bs := blockSamples (sampleRate audioBuffer)).
  set (step := stepSamples (sampleRate audioBuffer)).
  split.
  - intros Hsome.
    destruct (decide (4 <= sampleRate audioBuffer)%Z) as [H4 | H4]; [now left |].
    right. destruct (stepSamples_small (sampleRate audioBuffer) ltac:(lia))
      as [Hstep Hbs].
    fold step in Hstep. fold bs in Hbs.
    destruct (decide (frames audioBuffer < bs)%Z) as [Hshort | Hfit]; [assumption |].
    rewrite Hstep, blockLoop_diverges in Hsome by lia.
    cbn in Hsome. now destruct Hsome.
  - intros [H4 | Hshort].
    + pose proof (stepSamples_pos _ H4) as Hstep. fold step in Hstep.
      pose proof (blockSamples_nonneg _ Hsr) as Hbs. fold bs in Hbs.
      destruct (blockLoop_spec ws kw bs step (frames audioBuffer)
                  (S (Z.to_nat (frames audioBuffer))) 0 Hstep ltac:(nia))
        as (n & -> & _).
      cbn. eauto.
    + rewrite blockLoop_exit by lia. cbn. eauto.
Qed.

Lemma measureLUFS_returns_iff_witness :
  is_Some (measureLUFS loudClick)
  <-> (4 <= 48000)%Z \/ (19200 < blockSamples 48000)%Z.
Proof.
  apply (measureLUFS_returns_iff loudClick); cbn; lia.
Defined.

(** A buffer of [L] frames that holds at least one block yields
    [(L - blockSamples) / stepSamples + 1] block powers. *)
Theorem block_count (audioBuffer : AudioBuffer) :
  (4 <= sampleRate audioBuffer)%Z ->
  (blockSamples (sampleRate audioBuffer) <= frames audioBuffer)%Z ->
  exists blocks,
    blocksOf audioBuffer = Some blocks
    /\ Z.of_nat (length blocks)
       = ((frames audioBuffer - blockSamples (sampleRate audioBuffer))
            / stepSamples (sampleRate audioBuffer) + 1)%Z.
Proof.
  intros H4 Hfit. unfold blocksOf.
  set (bs := blockSamples (sampleRate audioBuffer)) in *.
  set (step := stepSamples (sampleRate audioBuffer)).
  pose proof (stepSamples_pos _ H4) as Hstep. fold step in Hstep.
  pose proof (blockSamples_nonneg (sampleRate audioBuffer) ltac:(lia)) as Hbs.
  fold bs in Hbs.
  destruct (blockLoop_spec (channelWeight (numberOfChannels audioBuffer))
              (kWeighted audioBuffer) bs step (frames audioBuffer)
              (S (Z.to_nat (frames audioBuffer))) 0 Hstep ltac:(nia))
    as (n & -> & Hn).
  eexists. split; [reflexivity |].
  rewrite length_map, length_seq.
  set (X := (frames audioBuffer - bs)%Z).
  assert (HX : (0 <= X)%Z) by (subst X; lia).
  pose proof (Z.div_pos X step HX Hstep) as Hq.
  pose proof (Z.mul_div_le X step Hstep) as Hlo.
  pose proof (Z.mul_succ_div_gt X step Hstep) as Hhi.
  assert (Hin : (Z.to_nat (X / step) < n)%nat).
  { apply Hn. rewrite Z2Nat.id by assumption. subst X. lia. }
  assert (Hout : ~ (Z.to_nat (X / step + 1) < n)%nat).
  { intros H. apply Hn in H. rewrite Z2Nat.id in H by lia. subst X. lia. }
  lia.
Qed.

Lemma block_count_witness :
  exists blocks,
    blocksOf loudClick = Some blocks
    /\ Z.of_nat (length blocks)
       = ((19200 - blockSamples 48000) / stepSamples 48000 + 1)%Z.
Proof.
  apply (block_count loudClick); cbn [sampleRate frames loudClick clickBuffer].
  - lia.
  - rewrite blockSamples_48000. lia.
Defined.

End BlockSequence.

(** ** The sample peak *)

Section Peak.
Local Open Scope R_scope.

Lemma peakLoop_attained (data : list R) (pk : R) :
  fold_left peakStep data pk = pk
  \/ exists x, x ∈ data /\ Rabs x = fold_left peakStep data pk.
Proof.
  revert pk. induction data as [| x data IH]; intros pk; cbn [fold_left];
    [now left |].
  destruct (IH (peakStep pk x)) as [Heq | (y & Hy & Habs)].
  - rewrite Heq. rewrite peakStep_max.
    destruct (Rle_dec pk (Rabs x)) as [Hle | Hgt].
    + right. exists x. split; [left |]. now rewrite Rmax_right.
    + left. rewrite Rmax_left by lra. reflexivity.
  - right. exists y. split; [now right | assumption].
Qed.

Lemma channelsLoop_attained (channels : list (list R)) (pk : R) :
  fold_left (fun peak data => fold_left peakStep data peak) channels pk = pk
  \/ exists data x,
      data ∈ channels /\ x ∈ data
      /\ Rabs x = fold_left (fun peak data => fold_left peakStep data peak)
                            channels pk.
Proof.
  revert pk. induction channels as [| data channels IH]; intros pk;
    cbn [fold_left]; [now left |].
  destruct (IH (fold_left peakStep data pk)) as [Heq | (d & x & Hd & Hx & Habs)].
  - rewrite Heq. destruct (peakLoop_attained data pk) as [-> | (x & Hx & Habs)];
      [now left |].
    right. exists data, x. split; [left | split; assumption].
  - right. exists d, x. split; [now right | split; assumption].
Qed.

(** [samplePeak] is the largest absolute sample of the buffer: it bounds
    every sample, it is 0 or attained by some sample, and samples within
    [-1, 1] give a peak within [0, 1]. *)
Theorem samplePeak_is_max (audioBuffer : AudioBuffer) :
  0 <= samplePeak audioBuffer
  /\ (forall data x,
        data ∈ getChannelData audioBuffer -> x ∈ data ->
        Rabs x <= samplePeak audioBuffer)
  /\ (samplePeak audioBuffer = 0
      \/ exists data x,
          data ∈ getChannelData audioBuffer /\ x ∈ data
          /\ Rabs x = samplePeak audioBuffer)
  /\ (Forall (Forall (fun x => -1 <= x <= 1)) (getChannelData audioBuffer) ->
      samplePeak audioBuffer <= 1).
Proof.
  unfold samplePeak.
  destruct (channelsLoop_bounds (getChannelData audioBuffer) 0) as [Hge Hall].
  pose proof (channelsLoop_attained (getChannelData audioBuffer) 0) as Hatt.
  split; [exact Hge |]. split; [| split; [exact Hatt |]].
  - intros data x Hdata Hx.
    rewrite Forall_forall in Hall. specialize (Hall data Hdata).
    rewrite Forall_forall in Hall. exact (Hall x Hx).
  - intros Hrange. destruct Hatt as [-> | (data & x & Hdata & Hx & <-)]; [lra |].
    rewrite Forall_forall in Hrange. specialize (Hrange data Hdata).
    rewrite Forall_forall in Hrange. specialize (Hrange x Hx).
    apply Rabs_le. lra.
Qed.

Lemma samplePeak_is_max_witness : samplePeak shortBlip <= 1.
Proof.
  apply (samplePeak_is_max shortBlip).
  repeat constructor; cbn; lra.
Defined.

Lemma peakStep_scale (c pk x : R) :
  peakStep (Rabs c * pk) (c * x) = Rabs c * peakStep pk x.
Proof.
  rewrite !peakStep_max, Rabs_mult.
  apply RmaxRmult. apply Rabs_pos.
Qed.

Lemma peakLoop_scale (c : R) (data : list R) (pk : R) :
  fold_left peakStep (map (Rmult c) data) (Rabs c * pk)
  = Rabs c * fold_left peakStep data pk.
Proof.
  revert pk. induction data as [| x data IH]; intros pk; cbn [map fold_left];
    [reflexivity |].
  now rewrite peakStep_scale, IH.
Qed.

Lemma channelsLoop_scale (c : R) (channels : list (list R)) (pk : R) :
  fold_left (fun peak data => fold_left peakStep data peak)
            (map (map (Rmult c)) channels) (Rabs c * pk)
  = Rabs c * fold_left (fun peak data => fold_left peakStep data peak) channels pk.
Proof.
  revert pk. induction channels as [| data channels IH]; intros pk;
    cbn [map fold_left]; [reflexivity |].
  now rewrite peakLoop_scale, IH.
Qed.

Lemma samplePeak_scaleBuffer (c : R) (audioBuffer : AudioBuffer) :
  samplePeak (scaleBuffer c audioBuffer) = Rabs c * samplePeak audioBuffer.
Proof.
  unfold samplePeak, scaleBuffer. cbn [getChannelData].
  rewrite <- channelsLoop_scale. f_equal. ring.
Qed.

End Peak.

(** ** Measured loudness *)

Section Loudness.
Local Open Scope R_scope.

Lemma log10_lt (x y : R) : 0 < x -> x < y -> Math_log10 x < Math_log10 y.
Proof.
  intros Hx Hxy. unfold Math_log10. pose proof ln10_pos.
  apply Rmult_lt_compat_r; [now apply Rinv_0_lt_compat |].
  now apply ln_increasing.
Qed.

Lemma log10_mult (x y : R) :
  0 < x -> 0 < y -> Math_log10 (x * y) = Math_log10 x + Math_log10 y.
Proof.
  intros Hx Hy. unfold Math_log10. rewrite ln_mult by assumption.
  pose proof ln10_pos. field. lra.
Qed.

Lemma relThreshold_pos (l : R) : 0 < relThreshold l.
Proof. apply pow10_pos. Qed.

Lemma mean_above (l : list R) (t : R) :
  l <> [] -> Forall (fun x => x > t) l -> meanOf l > t.
Proof.
  intros Hne Hall. unfold meanOf. rewrite fold_left_Rplus, Rplus_0_l.
  assert (Hlen : 0 < INR (length l)).
  { apply lt_0_INR. destruct l; [congruence | cbn; lia]. }
  assert (Hsum : INR (length l) * t < fold_right Rplus 0 l).
  { clear Hlen. induction Hall as [| x l Hx Hall IH]; [congruence |].
    destruct l as [| y l].
    - cbn. lra.
    - specialize (IH ltac:(congruence)).
      change (length (x :: y :: l)) with (S (length (y :: l))).
      rewrite S_INR. cbn [fold_right] in *. lra. }
  apply Rlt_gt. apply Rmult_lt_reg_r with (INR (length l)); [assumption |].
  unfold Rdiv. rewrite Rmult_assoc, Rinv_l by lra. lra.
Qed.

(** A finite result of [gateBlocks] comes from its last return. *)
Lemma gateBlocks_finite (blocks : list R) (pk l pk' : R) :
  gateBlocks blocks pk = {| lufs := Finite l; peak := pk' |} ->
  let ungated := filter (fun p => p > absThreshold) blocks in
  let gated := filter (fun p => p > relThreshold (loudnessOf (meanOf ungated))) blocks in
  ungated <> [] /\ gated <> [] /\ l = loudnessOf (meanOf gated) /\ pk' = pk.
Proof.
  intros Hg ungated gated.
  assert (Hne : ungated <> []).
  { intros Hnil. unfold gateBlocks in Hg. fold ungated in Hg. rewrite Hnil in Hg.
    destruct blocks; discriminate. }
  pose proof (relative_gate_keeps_a_block blocks Hne) as Hkeep.
  fold ungated in Hkeep. fold gated in Hkeep.
  rewrite gateBlocks_ungated in Hg by exact Hne. cbv zeta in Hg.
  fold ungated in Hg. fold gated in Hg.
  destruct gated as [| g gs]; [congruence |].
  injection Hg as <- <-. repeat split; congruence.
Qed.

Lemma loudnessOf_tenth_of_gate : loudnessOf (absThreshold / 10) = -80.
Proof.
  unfold loudnessOf. pose proof absThreshold_pos.
  replace (absThreshold / 10) with (absThreshold * / 10 ^ 1) by (simpl; lra).
  rewrite log10_mult, log10_inv_pow_nat; [| assumption | simpl; lra].
  unfold absThreshold, ABSOLUTE_GATE. rewrite log10_pow10. simpl. lra.
Qed.

(** A finite loudness returned by [measureLUFS] is above -80 LUFS and
    comes with the sample peak of the buffer: the return with a finite
    loudness and peak 0 is never taken. *)
Theorem finite_measurement (audioBuffer : AudioBuffer) (m : Measurement) (l : R) :
  measureLUFS audioBuffer = Some m ->
  lufs m = Finite l ->
  -80 < l /\ peak m = samplePeak audioBuffer.
Proof.
  intros Hm Hl. unfold measureLUFS in Hm.
  destruct (blocksOf audioBuffer) as [blocks |]; [| discriminate].
  cbn in Hm. injection Hm as Hm. destruct m as [lo pk]. cbn in Hl. subst lo.
  destruct (gateBlocks_finite blocks _ l pk Hm) as (Hne & Hgne & -> & ->).
  split; [| reflexivity].
  set (ungated := filter (fun p => p > absThreshold) blocks) in *.
  set (gated := filter (fun p => p > relThreshold (loudnessOf (meanOf ungated)))
                       blocks) in *.
  assert (Hmu : meanOf ungated > absThreshold).
  { apply mean_above; [assumption |]. apply Forall_forall. intros x Hx.
    now apply list_elem_of_filter in Hx as [Hx _]. }
  pose proof absThreshold_pos as Hpos.
  assert (Hmg : meanOf gated > absThreshold / 10).
  { apply mean_above; [assumption |]. apply Forall_forall. intros x Hx.
    apply list_elem_of_filter in Hx as [Hx _].
    rewrite relThreshold_tenth in Hx by lra. lra. }
  rewrite <- loudnessOf_tenth_of_gate. unfold loudnessOf.
  pose proof (log10_lt (absThreshold / 10) (meanOf gated) ltac:(lra) ltac:(lra)).
  lra.
Qed.

Lemma finite_measurement_witness :
  -80 < loudnessOf (clickPower 1) /\ 1 = samplePeak loudClick.
Proof.
  apply (finite_measurement loudClick
           {| lufs := Finite (loudnessOf (clickPower 1)); peak := 1 |}).
  - apply measureLUFS_loudClick.
  - reflexivity.
Defined.

End Loudness.

(** ** Silence *)

Section Silence.
Local Open Scope R_scope.

Lemma biquadLoop_zeros (bq aq : list R) (samples : list R) (z1 z2 : R) :
  z1 = 0 -> z2 = 0 -> Forall (fun x => x = 0) samples ->
  Forall (fun x => x = 0) (biquadLoop bq aq z1 z2 samples).
Proof.
  intros Hz1 Hz2 Hall. revert z1 z2 Hz1 Hz2.
  induction Hall as [| x rest -> _ IH]; intros z1 z2 -> ->; cbn;
    constructor; [ring | apply IH; ring].
Qed.

Lemma sumSquares_zeros (xs : list R) :
  Forall (fun x => x = 0) xs -> sumSquares xs = 0.
Proof.
  induction 1 as [| x xs -> _ IH]; cbn; [reflexivity |].
  fold (sumSquares xs). rewrite IH. ring.
Qed.

Lemma weightedPower_zeros (weights : list R) (kw : list (list R)) (bs start : Z) :
  Forall (Forall (fun x => x = 0)) kw -> weightedPower weights kw bs start = 0.
Proof.
  intros Hkw. unfold weightedPower. revert weights.
  induction Hkw as [| data kw Hdata _ IH]; intros weights;
    destruct weights as [| w ws]; cbn; try reflexivity.
  rewrite IH. unfold meanSquare.
  rewrite sumSquares_zeros; [unfold Rdiv; ring |].
  apply Forall_take, Forall_drop. exact Hdata.
Qed.

Lemma blockLoop_zeros (fuel : nat) (weights : list R) (kw : list (list R))
      (bs step len start : Z) (blocks : list R) :
  Forall (Forall (fun x => x = 0)) kw ->
  blockLoop fuel weights kw bs step len start = Some blocks ->
  Forall (fun p => p = 0) blocks.
Proof.
  intros Hkw. revert start blocks.
  induction fuel as [| fuel IH]; intros start blocks; cbn [blockLoop];
    destruct (start + bs <=? len)%Z; try discriminate;
    try (intros [= <-]; constructor).
  destruct (blockLoop fuel weights kw bs step len (start + step)) as [rest |] eqn:Hrest;
    [| discriminate].
  cbn. intros [= <-]. constructor; [| now apply (IH (start + step)%Z)].
  rewrite blockPowerAt_spec. now apply weightedPower_zeros.
Qed.

(** Digital silence of any length and channel count is measured as
    [lufs = -Infinity], and the gain computed from that measurement once the
    analysis has completed is 1: silence is never boosted. *)
Theorem silence_is_not_boosted (audioBuffer : AudioBuffer) :
  Forall (Forall (fun x => x = 0)) (getChannelData audioBuffer) ->
  (4 <= sampleRate audioBuffer)%Z -> (0 <= frames audioBuffer)%Z ->
  measureLUFS audioBuffer = Some {| lufs := NegInfinity; peak := 0 |}
  /\ forall s p job,
      jobs s !! p = Some job ->
      exists s',
        settle p (Decoded audioBuffer) s = Some s'
        /\ getCachedLUFS s' (jobTrackId job)
           = Some {| lufs := NegInfinity; peak := 0 |}
        /\ computeGain s' (jobTrackId job) = 1.
Proof.
  intros Hzero Hsr Hlen.
  assert (Hm : measureLUFS audioBuffer = Some {| lufs := NegInfinity; peak := 0 |}).
  { unfold measureLUFS.
    pose proof (stepSamples_pos _ Hsr) as Hstep.
    pose proof (blockSamples_nonneg (sampleRate audioBuffer) ltac:(lia)) as Hbs.
    destruct (blockLoop_spec (channelWeight (numberOfChannels audioBuffer))
                (kWeighted audioBuffer) (blockSamples (sampleRate audioBuffer))
                (stepSamples (sampleRate audioBuffer)) (frames audioBuffer)
                (S (Z.to_nat (frames audioBuffer))) 0 Hstep ltac:(nia))
      as (n & Hrun & _).
    unfold blocksOf. rewrite Hrun. cbn [mbind option_bind].
    rewrite gateBlocks_below_absolute; [reflexivity |].
    assert (Hkw : Forall (Forall (fun x => x = 0)) (kWeighted audioBuffer)).
    { unfold kWeighted. apply Forall_map. eapply Forall_impl; [exact Hzero |].
      cbn beta. intros data Hdata. unfold applyBiquad.
      apply biquadLoop_zeros; try reflexivity.
      now apply biquadLoop_zeros. }
    pose proof (blockLoop_zeros _ _ _ _ _ _ _ _ Hkw Hrun) as Hall.
    eapply Forall_impl; [exact Hall |]. cbn beta. intros p' ->.
    left. apply absThreshold_pos. }
  split; [exact Hm |].
  intros s p job Hjob. eexists.
  split; [exact (settle_success p audioBuffer s job _ Hjob Hm) |].
  unfold getCachedLUFS. cbn.
  split; [apply lookup_insert_eq |].
  apply computeGain_silent with {| lufs := NegInfinity; peak := 0 |};
    [cbn; apply lookup_insert_eq | reflexivity].
Qed.

Lemma silence_is_not_boosted_witness :
  measureLUFS silence = Some {| lufs := NegInfinity; peak := 0 |}.
Proof.
  apply (silence_is_not_boosted silence).
  - constructor; [| constructor]. apply Forall_replicate. reflexivity.
  - cbn. lia.
  - cbn. lia.
Defined.

End Silence.

(** ** Polarity *)

Section Polarity.
Local Open Scope R_scope.

(** In exact arithmetic, multiplying every sample by [c] multiplies every
    block power by [c * c]. *)
Lemma blocksOf_scaled (c : R) (audioBuffer : AudioBuffer) :
  blocksOf (scaleBuffer c audioBuffer)
  = map (Rmult (c * c)) <$> blocksOf audioBuffer.
Proof.
  unfold blocksOf. rewrite kWeighted_scale.
  unfold numberOfChannels, scaleBuffer. cbn [sampleRate frames getChannelData].
  rewrite length_map. apply blockLoop_scale.
Qed.

(** Inverting the polarity of every sample changes nothing in the
    measurement: the same block powers, hence the same gating and loudness,
    and the same peak.  (Negation commutes with every rounding of the code,
    and the samples enter the block powers squared and the peak through
    [Math.abs].) *)
Theorem measureLUFS_polarity (audioBuffer : AudioBuffer) :
  measureLUFS (scaleBuffer (-1) audioBuffer) = measureLUFS audioBuffer
  /\ blocksOf (scaleBuffer (-1) audioBuffer) = blocksOf audioBuffer
  /\ samplePeak (scaleBuffer (-1) audioBuffer) = samplePeak audioBuffer.
Proof.
  assert (Hb : blocksOf (scaleBuffer (-1) audioBuffer) = blocksOf audioBuffer).
  { rewrite blocksOf_scaled. destruct (blocksOf audioBuffer) as [blocks |];
      [| reflexivity].
    cbn. f_equal. rewrite <- (map_id blocks) at 2. apply map_ext.
    intros p. lra. }
  assert (Hp : samplePeak (scaleBuffer (-1) audioBuffer) = samplePeak audioBuffer).
  { rewrite samplePeak_scaleBuffer, Rabs_left by lra. lra. }
  split; [| split; assumption].
  unfold measureLUFS. now rewrite Hb, Hp.
Qed.

End Polarity.

(** ** Gains that reach the audio graph *)

Section GainBounds.
Local Open Scope R_scope.

Lemma maxBoost_ge_1 : 1 <= maxBoost.
Proof.
  unfold maxBoost. replace 1 with (Math_pow 10 0) at 1.
  - apply pow10_le. lra.
  - unfold Math_pow. apply Rpower_O. lra.
Qed.

Lemma computeGain_range (s : State) (trackId : string) :
  0 < computeGain s trackId <= maxBoost.
Proof.
  pose proof maxBoost_ge_1 as H1. unfold computeGain.
  destruct (_cache s !! trackId) as [data |]; [| lra].
  destruct (lufs data) as [| l]; [lra |]. cbv zeta.
  destruct (decide (_ > 24)) as [Hbig | Hsmall]; [lra |].
  split; [apply pow10_pos |]. unfold maxBoost. apply pow10_le. lra.
Qed.

(** [10^(6/5) < 16], because [10^6 < 16^5]. *)
Lemma maxBoost_lt_16 : maxBoost < 16.
Proof.
  unfold maxBoost, Math_pow.
  destruct (Rlt_dec (Rpower 10 (24 / 20)) 16) as [Hlt | Hge]; [assumption |].
  exfalso. apply Rnot_lt_le in Hge.
  assert (Hpow : Rpower (Rpower 10 (24 / 20)) (INR 5) = 10 ^ 6).
  { rewrite Rpower_mult. replace (24 / 20 * INR 5) with (INR 6) by (simpl; lra).
    apply Rpower_pow. lra. }
  rewrite Rpower_pow in Hpow by (apply exp_pos).
  assert (H16 : 16 ^ 5 <= Rpower 10 (24 / 20) ^ 5).
  { apply pow_incr. lra. }
  rewrite Hpow in H16. lra.
Qed.

Lemma audioSane_initial : audioSane initial.
Proof.
  split; cbn; try exact I; [| lra].
  intros [x Hx]. discriminate.
Qed.

Lemma audioSane_same (s s' : State) :
  _audioCtx s' = _audioCtx s -> _gainA s' = _gainA s -> _gainB s' = _gainB s ->
  audioSane s -> audioSane s'.
Proof.
  intros Hc HA HB [H1 H2 H3 H4].
  split; unfold now in *; rewrite ?Hc, ?HA, ?HB; assumption.
Qed.

Ltac same_audio :=
  match goal with
  | H : audioSane ?s |- audioSane _ =>
      refine (audioSane_same s _ _ _ _ H);
      repeat case_match; reflexivity
  end.

Lemma audioSane_setTargetAtTime (s : State) (audioEl : AudioEl) (lane : Lane)
      (node : GainNode) (target tc : R) :
  audioSane s -> getGainNode s audioEl = Some (lane, node) ->
  0 <= target <= 16 -> 0 < tc ->
  audioSane (setTargetAtTime lane node target tc s).
Proof.
  intros [H1 H2 H3 H4] Hnode Ht Htc.
  unfold getGainNode in Hnode.
  destruct (_audioCtx s) as [ctx |] eqn:Hctx; [| discriminate].
  assert (Hnow : now s = currentTime ctx) by (unfold now; now rewrite Hctx).
  destruct (H1 ltac:(eauto)) as [[gA HA] [gB HB]].
  assert (Hramp : rampOk {| rampTarget := target; rampStart := now s;
                            rampTimeConstant := tc |}).
  { repeat split; cbn; lra. }
  rewrite HA, HB in *. cbn in H2, H3.
  destruct audioEl; cbn in Hnode; try discriminate; injection Hnode as <- <-;
    unfold setTargetAtTime; split; cbn; rewrite ?Hctx, ?HA, ?HB; cbn;
    try (intros _; split; eauto); try assumption;
    try (constructor; assumption);
    try (unfold now in *; cbn; rewrite Hctx in *; assumption).
Qed.

Lemma unity_in_range : 0 <= 1.0 <= 16.
Proof. lra. Qed.

Lemma computeGain_in_range (s : State) (trackId : string) :
  0 <= computeGain s trackId <= 16.
Proof.
  pose proof (computeGain_range s trackId). pose proof maxBoost_lt_16. lra.
Qed.

Lemma audioSane_applyGain (audioEl : AudioEl) (trackId : string) (s : State) :
  audioSane s -> audioSane (applyGain audioEl trackId s).
Proof.
  intros H. unfold applyGain. destruct (_ || _); [assumption |].
  destruct (getGainNode s audioEl) as [[lane node] |] eqn:Hnode; [| assumption].
  apply (audioSane_setTargetAtTime s audioEl); try assumption.
  - apply computeGain_in_range.
  - unfold RAMP_TIME. lra.
Qed.

Lemma audioSane_resetGain (audioEl : AudioEl) (s : State) :
  audioSane s -> audioSane (resetGain audioEl s).
Proof.
  intros H. unfold resetGain. destruct (_audioCtx s); [| assumption].
  destruct (getGainNode s audioEl) as [[lane node] |] eqn:Hnode; [| assumption].
  apply (audioSane_setTargetAtTime s audioEl); try assumption.
  - apply unity_in_range.
  - unfold RAMP_TIME. lra.
Qed.

Lemma audioSane_initAudioContext (s : State) :
  audioSane s -> audioSane (initAudioContext s).
Proof.
  intros H. unfold initAudioContext.
  destruct (_audioCtx s) eqn:Hctx; [assumption |].
  split; cbn; try (constructor; fail); eauto. lra.
Qed.

Lemma audioSane_analyzeLUFS (url trackId : string) (s : State) :
  audioSane s -> audioSane (snd (analyzeLUFS url trackId s)).
Proof. intros H. unfold analyzeLUFS. same_audio. Qed.

Lemma audioSane_analyzeAndApply (audioEl : AudioEl) (url trackId : string)
      (s : State) :
  audioSane s -> audioSane (analyzeAndApply audioEl url trackId s).
Proof.
  intros H. unfold analyzeAndApply.
  destruct (negb (_enabled s)); [assumption |].
  set (s1 := if bool_decide (is_Some (_audioCtx s)) then s else initAudioContext s).
  assert (H1 : audioSane s1).
  { subst s1. case_match; [assumption | now apply audioSane_initAudioContext]. }
  clearbody s1. case_match; [now apply audioSane_applyGain |].
  set (s2 := match getGainNode s1 audioEl with
             | Some (lane, node) => setTargetAtTime lane node 1.0 0.05 s1
             | None => s1
             end).
  assert (H2 : audioSane s2).
  { subst s2. destruct (getGainNode s1 audioEl) as [[lane node] |] eqn:Hnode;
      [| assumption].
    apply (audioSane_setTargetAtTime s1 audioEl); try assumption;
      [apply unity_in_range | lra]. }
  clearbody s2.
  pose proof (audioSane_analyzeLUFS url trackId s2 H2) as H3.
  destruct (analyzeLUFS url trackId s2) as [o s3]. cbn [snd] in H3.
  same_audio.
Qed.

Lemma audioSane_step (e : Event) (s s' : State) :
  audioSane s -> step e s = Some s' -> audioSane s'.
Proof.
  intros Hs Hstep.
  destruct e; cbn [step] in *; try (injection Hstep as <-).
  - now apply audioSane_initAudioContext.
  - unfold setEnabled.
    assert (H1 : audioSane (withEnabled val s)) by same_audio.
    case_match; [| assumption].
    now apply audioSane_resetGain, audioSane_resetGain.
  - unfold setTarget. same_audio.
  - now apply audioSane_analyzeAndApply.
  - unfold preAnalyze. repeat case_match; try assumption.
    now apply audioSane_analyzeLUFS.
  - now apply audioSane_applyGain.
  - now apply audioSane_resetGain.
  - unfold clearCache. same_audio.
  - unfold destroy, clearCache. cbn [_audioCtx withMaps].
    destruct (_audioCtx s) as [ctx |] eqn:Hctx; [| same_audio].
    destruct Hs as [H1 H2 H3 H4]. split; cbn; try assumption; [| lra].
    intros [x Hx]. discriminate.
  - unfold settle in Hstep.
    destruct (jobs s !! p) as [job |]; [| discriminate].
    cbn [mbind option_bind] in Hstep.
    destruct net as [| status | | | audioBuffer];
      try (injection Hstep as <-; same_audio).
    destruct (measureLUFS audioBuffer) as [result |]; [| discriminate].
    cbn in Hstep. injection Hstep as <-. same_audio.
  - unfold resume in Hstep.
    destruct (suspended s !! k) as [w |]; [| discriminate].
    cbn [mbind option_bind] in Hstep.
    destruct (resolution s (susAwait w)) as [result |]; [| discriminate].
    cbn in Hstep. injection Hstep as <-.
    assert (H1 : audioSane (withSuspended (delete k (suspended s)) s)) by same_audio.
    unfold analyzeAndApply_resume. repeat case_match; try assumption.
    now apply audioSane_applyGain.
  - same_audio.
  - destruct (decide (dt > 0)) as [Hdt |]; [| discriminate].
    injection Hstep as <-. unfold advance.
    destruct Hs as [H1 H2 H3 H4].
    destruct (_audioCtx s) as [ctx |] eqn:Hctx.
    + split; cbn; try assumption.
      * intros _. apply H1. eauto.
      * unfold now in H4. rewrite Hctx in H4. lra.
    + split; try assumption. intros [x Hx]. congruence.
Qed.

(** In every reachable state the gain nodes exist whenever the audio
    context does, and every ramp scheduled on them has a target gain between
    0 and 16, a positive time constant and a start time that is not
    negative. *)
Theorem reachable_audioSane (es : list Event) (s : State) :
  run es initial = Some s -> audioSane s.
Proof.
  pose proof audioSane_initial as H0. revert H0. generalize initial. revert s.
  induction es as [| e es IH]; intros s s0 H0 Hrun; cbn [run] in Hrun.
  - now injection Hrun as <-.
  - destruct (step e s0) as [s1 |] eqn:Hstep; [| discriminate]. cbn in Hrun.
    apply (IH s s1); [| assumption]. now apply audioSane_step with e s0.
Qed.

Lemma reachable_audioSane_witness :
  audioSane (applyGain audioA "x" (initAudioContext (setEnabled true initial))).
Proof.
  apply (reachable_audioSane
           [CallSetEnabled true; CallInitAudioContext; CallApplyGain audioA "x"]).
  reflexivity.
Defined.

End GainBounds.

(** ** The life of a cache entry *)

Section CacheLife.

Lemma cache_applyGain (audioEl : AudioEl) (trackId : string) (s : State) :
  _cache (applyGain audioEl trackId s) = _cache s.
Proof. unfold applyGain, setTargetAtTime. repeat case_match; reflexivity. Qed.

Lemma cache_resetGain (audioEl : AudioEl) (s : State) :
  _cache (resetGain audioEl s) = _cache s.
Proof. unfold resetGain, setTargetAtTime. repeat case_match; reflexivity. Qed.

Lemma cache_analyzeLUFS (url trackId : string) (s : State) :
  _cache (snd (analyzeLUFS url trackId s)) = _cache s.
Proof. unfold analyzeLUFS. repeat case_match; reflexivity. Qed.

Lemma cache_analyzeAndApply (audioEl : AudioEl) (url trackId : string) (s : State) :
  _cache (analyzeAndApply audioEl url trackId s) = _cache s.
Proof.
  unfold analyzeAndApply. destruct (negb (_enabled s)); [reflexivity |].
  set (s1 := if bool_decide (is_Some (_audioCtx s)) then s else initAudioContext s).
  assert (H1 : _cache s1 = _cache s).
  { subst s1. unfold initAudioContext. repeat case_match; reflexivity. }
  clearbody s1. case_match; [now rewrite cache_applyGain |].
  set (s2 := match getGainNode s1 audioEl with
             | Some (lane, node) => setTargetAtTime lane node 1.0 0.05 s1
             | None => s1
             end).
  assert (H2 : _cache s2 = _cache s1).
  { subst s2. unfold setTargetAtTime. repeat case_match; reflexivity. }
  clearbody s2.
  pose proof (cache_analyzeLUFS url trackId s2) as H3.
  destruct (analyzeLUFS url trackId s2) as [o s3]. cbn [snd] in H3.
  cbn. congruence.
Qed.

Lemma cache_step (e : Event) (s s' : State) (trackId : string) (m : Measurement) :
  clears e = false -> consistent s -> step e s = Some s' ->
  _cache s !! trackId = Some m -> _cache s' !! trackId = Some m.
Proof.
  intros Hclear Hs Hstep Hm.
  destruct e; cbn [step clears] in *; try discriminate;
    try (injection Hstep as <-).
  - unfold initAudioContext. now case_match.
  - unfold setEnabled. case_match; [| assumption].
    now rewrite !cache_resetGain.
  - assumption.
  - now rewrite cache_analyzeAndApply.
  - unfold preAnalyze. repeat case_match; try assumption.
    now rewrite cache_analyzeLUFS.
  - now rewrite cache_applyGain.
  - now rewrite cache_resetGain.
  - unfold settle in Hstep.
    destruct (jobs s !! p) as [job |] eqn:Hjob; [| discriminate].
    cbn [mbind option_bind] in Hstep.
    destruct net as [| status | | | audioBuffer];
      try (injection Hstep as <-; assumption).
    destruct (measureLUFS audioBuffer) as [result |]; [| discriminate].
    cbn in Hstep. injection Hstep as <-. cbn.
    rewrite lookup_insert_ne; [assumption |].
    intros Heq. pose proof (running_not_cached s p job Hs Hjob). congruence.
  - unfold resume in Hstep.
    destruct (suspended s !! k) as [w |]; [| discriminate].
    cbn [mbind option_bind] in Hstep.
    destruct (resolution s (susAwait w)) as [result |]; [| discriminate].
    cbn in Hstep. injection Hstep as <-.
    unfold analyzeAndApply_resume. repeat case_match; try assumption.
    now rewrite cache_applyGain.
  - assumption.
  - destruct (decide (dt > 0)%R); [| discriminate].
    injection Hstep as <-. unfold advance. now case_match.
Qed.

Lemma cache_run (es : list Event) (s s' : State) (trackId : string) (m : Measurement) :
  Forall (fun e => clears e = false) es -> consistent s -> run es s = Some s' ->
  _cache s !! trackId = Some m -> _cache s' !! trackId = Some m.
Proof.
  intros Hes. revert s. induction Hes as [| e es He _ IH]; intros s Hs Hrun Hm.
  - cbn in Hrun. now injection Hrun as <-.
  - cbn [run] in Hrun. destruct (step e s) as [s1 |] eqn:Hstep; [| discriminate].
    cbn in Hrun. apply (IH s1); try assumption.
    + now apply consistent_step with e s.
    + now apply cache_step with e s.
Qed.

(** A cached measurement is never overwritten or lost as long as neither
    [clearCache] nor [destroy] is called: in every later state the cache
    holds the same measurement for the identifier, and [analyzeLUFS] hands it
    back without a fetch. *)
Theorem cached_measurement_is_kept
        (es0 es : list Event) (s s' : State) (trackId : string) (m : Measurement) :
  Forall (fun e => clears e = false) es0 -> run es0 initial = Some s ->
  Forall (fun e => clears e = false) es -> run es s = Some s' ->
  getCachedLUFS s trackId = Some m ->
  getCachedLUFS s' trackId = Some m
  /\ forall url, analyzeLUFS url trackId s' = (Now m, s').
Proof.
  intros Hes0 Hrun0 Hes Hrun Hm. unfold getCachedLUFS in *.
  pose proof (consistent_run es0 initial s Hes0 consistent_initial Hrun0) as Hs.
  pose proof (cache_run es s s' trackId m Hes Hs Hrun Hm) as Hm'.
  split; [exact Hm' |]. intros url. now apply analyzeLUFS_cached.
Qed.

Lemma run_analysed :
  run [CallSetEnabled true; CallPreAnalyze "u" "t"; Settle 0 (Decoded loudClick)]
      initial
  = Some analysed.
Proof.
  cbn [run step mbind option_bind].
  rewrite (settle_success 0 loudClick (preAnalyze "u" "t" (setEnabled true initial))
             {| jobUrl := "u"; jobTrackId := "t" |}
             {| lufs := Finite (loudnessOf (clickPower 1)); peak := 1 |}
             eq_refl measureLUFS_loudClick).
  reflexivity.
Qed.

Lemma cached_measurement_is_kept_witness :
  exists s',
    run [CallInitAudioContext; CallApplyGain audioA "t"; CallPreAnalyze "v" "t";
         SetSrc audioA "v"] analysed = Some s'
    /\ getCachedLUFS s' "t"
       = Some {| lufs := Finite (loudnessOf (clickPower 1)); peak := 1 |}.
Proof.
  eexists. split; [reflexivity |].
  apply (cached_measurement_is_kept
           [CallSetEnabled true; CallPreAnalyze "u" "t"; Settle 0 (Decoded loudClick)]
           [CallInitAudioContext; CallApplyGain audioA "t"; CallPreAnalyze "v" "t";
            SetSrc audioA "v"]
           analysed _ "t" _
           ltac:(repeat constructor) run_analysed
           ltac:(repeat constructor) eq_refl eq_refl).
Defined.

(** A completed analysis is a cache hit from then on: the promise is
    fulfilled with the measurement, the measurement is cached under the
    identifier of the analysis, the in-flight entry is gone, and a later
    [analyzeLUFS] for the identifier returns the measurement at once, with
    no fetch and no change of state. *)
Theorem completed_analysis_is_cached
        (p : PromiseId) (audioBuffer : AudioBuffer) (s : State) (job : Job)
        (m : Measurement) :
  jobs s !! p = Some job -> measureLUFS audioBuffer = Some m ->
  exists s',
    settle p (Decoded audioBuffer) s = Some s'
    /\ resolution s' (Join p) = Some (Some m)
    /\ getCachedLUFS s' (jobTrackId job) = Some m
    /\ _inflight s' !! jobTrackId job = None
    /\ jobs s' !! p = None
    /\ fetched s' = fetched s
    /\ (forall url, analyzeLUFS url (jobTrackId job) s' = (Now m, s')).
Proof.
  intros Hjob Hm. eexists.
  split; [exact (settle_success p audioBuffer s job m Hjob Hm) |].
  unfold getCachedLUFS. cbn.
  split; [apply lookup_insert_eq |]. split; [apply lookup_insert_eq |].
  split; [apply lookup_delete_eq |]. split; [apply lookup_delete_eq |].
  split; [reflexivity |].
  intros url. apply analyzeLUFS_cached. cbn. apply lookup_insert_eq.
Qed.

Lemma completed_analysis_is_cached_witness :
  exists s',
    settle 0 (Decoded loudClick) analysing = Some s'
    /\ getCachedLUFS s' "t"
       = Some {| lufs := Finite (loudnessOf (clickPower 1)); peak := 1 |}
    /\ (forall url,
          analyzeLUFS url "t" s'
          = (Now {| lufs := Finite (loudnessOf (clickPower 1)); peak := 1 |}, s')).
Proof.
  destruct (completed_analysis_is_cached 0 loudClick analysing
              {| jobUrl := "u"; jobTrackId := "t" |}
              {| lufs := Finite (loudnessOf (clickPower 1)); peak := 1 |}
              eq_refl measureLUFS_loudClick)
    as (s' & Hset & _ & Hc & _ & _ & _ & Hhit).
  exists s'. repeat split; assumption.
Defined.

End CacheLife.

(** ** Clearing the cache *)

Section Clearing.

(** [clearCache] makes every identifier fresh again and stops nothing: no
    measurement is cached and [computeGain] is 1 for every identifier, the
    next [analyzeLUFS] of any identifier issues a new fetch, the gain nodes,
    the flags and the running analyses are as before; and an analysis that
    was running when the cache was cleared still caches its result when it
    completes. *)
Theorem clearCache_makes_everything_fresh (s : State) (trackId : string) :
  getCachedLUFS (clearCache s) trackId = None
  /\ computeGain (clearCache s) trackId = 1%R
  /\ (forall url,
        fst (analyzeLUFS url trackId (clearCache s)) = Join (nextPromise s)
        /\ fetched (snd (analyzeLUFS url trackId (clearCache s)))
           = fetched s ++ [(nextPromise s, url)])
  /\ (_enabled (clearCache s), _target (clearCache s), _audioCtx (clearCache s),
      _gainA (clearCache s), _gainB (clearCache s))
     = (_enabled s, _target s, _audioCtx s, _gainA s, _gainB s)
  /\ (jobs (clearCache s), suspended (clearCache s)) = (jobs s, suspended s)
  /\ (forall p job audioBuffer m,
        jobs s !! p = Some job -> measureLUFS audioBuffer = Some m ->
        exists s',
          settle p (Decoded audioBuffer) (clearCache s) = Some s'
          /\ getCachedLUFS s' (jobTrackId job) = Some m).
Proof.
  assert (Hc : _cache (clearCache s) !! trackId = None) by apply lookup_empty.
  assert (Hi : _inflight (clearCache s) !! trackId = None) by apply lookup_empty.
  split; [exact Hc |]. split; [now apply computeGain_absent |].
  split; [| split; [reflexivity | split; [reflexivity |]]].
  - intros url.
    destruct (analyzeLUFS_starts url trackId (clearCache s) Hc Hi)
      as (s' & -> & _ & _ & _ & Hf & _).
    split; [reflexivity | exact Hf].
  - intros p job audioBuffer m Hjob Hm. eexists.
    split; [exact (settle_success p audioBuffer (clearCache s) job m Hjob Hm) |].
    unfold getCachedLUFS. cbn. apply lookup_insert_eq.
Qed.

Lemma clearCache_makes_everything_fresh_witness :
  getCachedLUFS (clearCache analysed) "t" = None
  /\ exists s',
      settle 0 (Decoded loudClick) (clearCache analysing) = Some s'
      /\ getCachedLUFS s' "t"
         = Some {| lufs := Finite (loudnessOf (clickPower 1)); peak := 1 |}.
Proof.
  destruct (clearCache_makes_everything_fresh analysed "t") as (Hnone & _).
  destruct (clearCache_makes_everything_fresh analysing "t")
    as (_ & _ & _ & _ & _ & Hlate).
  split; [exact Hnone |].
  apply (Hlate 0%nat {| jobUrl := "u"; jobTrackId := "t" |} loudClick);
    [reflexivity | apply measureLUFS_loudClick].
Defined.

(** After [clearCache] the dedup can be lost for good: when an analysis
    started before the clear fails after a second one for the same
    identifier has been started, its [finally] removes the in-flight entry
    of the second one, which keeps running; the next call then starts a
    third analysis next to it. *)
Theorem stale_failure_unregisters_running_analysis
        (s : State) (trackId url1 url2 url3 : string) (net : NetResult) :
  _cache s !! trackId = None -> _inflight s !! trackId = None ->
  failed net = true ->
  let p1 := nextPromise s in
  let s1 := snd (analyzeLUFS url1 trackId s) in
  let s2 := snd (analyzeLUFS url2 trackId (clearCache s1)) in
  exists s3,
    settle p1 net s2 = Some s3
    /\ jobs s3 !! S p1 = Some {| jobUrl := url2; jobTrackId := trackId |}
    /\ _inflight s3 !! trackId = None
    /\ fst (analyzeLUFS url3 trackId s3) = Join (S (S p1))
    /\ fetched (snd (analyzeLUFS url3 trackId s3))
       = fetched s ++ [(p1, url1); (S p1, url2); (S (S p1), url3)].
Proof.
  intros Hc Hi Hfail p1 s1 s2.
  destruct (analyzeLUFS_starts url1 trackId s Hc Hi)
    as (t1 & Hrun1 & Hc1 & Hi1 & Hj1 & Hf1 & Hn1 & _).
  assert (Hs1 : s1 = t1) by (subst s1; now rewrite Hrun1). clearbody s1. subst t1.
  destruct (analyzeLUFS_starts url2 trackId (clearCache s1)
              ltac:(apply lookup_empty) ltac:(apply lookup_empty))
    as (t2 & Hrun2 & Hc2 & Hi2 & Hj2 & Hf2 & Hn2 & _).
  assert (Hs2 : s2 = t2) by (subst s2; now rewrite Hrun2). clearbody s2. subst t2.
  cbn [clearCache withMaps nextPromise jobs fetched _cache _inflight] in *.
  assert (Hjob1 : jobs s2 !! p1 = Some {| jobUrl := url1; jobTrackId := trackId |}).
  { rewrite Hj2, Hn1, lookup_insert_ne by lia. rewrite Hj1.
    apply lookup_insert_eq. }
  eexists. split; [exact (settle_failure p1 net s2 _ Hjob1 Hfail) |].
  cbn [jobTrackId].
  set (s3 := withRuntime _ _ _ _ _).
  assert (Hc3 : _cache s3 !! trackId = None).
  { subst s3. cbn. rewrite Hc2. apply lookup_empty. }
  assert (Hi3 : _inflight s3 !! trackId = None).
  { subst s3. cbn. apply lookup_delete_eq. }
  split; [| split; [exact Hi3 |]].
  - subst s3. cbn. rewrite lookup_delete_ne by (subst p1; lia).
    rewrite Hj2, Hn1. apply lookup_insert_eq.
  - destruct (analyzeLUFS_starts url3 trackId s3 Hc3 Hi3)
      as (t3 & -> & _ & _ & _ & Hf3 & _).
    cbn [fst snd]. rewrite Hf3. subst s3. cbn.
    rewrite Hn2, Hn1, Hf2, Hf1, Hn1. rewrite <- !app_assoc. split; reflexivity.
Qed.

Lemma stale_failure_unregisters_running_analysis_witness :
  exists s3,
    settle 0 FetchError
      (snd (analyzeLUFS "u" "t" (clearCache (snd (analyzeLUFS "u" "t" initial)))))
    = Some s3
    /\ jobs s3 !! 1%nat = Some {| jobUrl := "u"; jobTrackId := "t" |}
    /\ _inflight s3 !! "t" = None
    /\ fetched (snd (analyzeLUFS "u" "t" s3))
       = [(0%nat, "u"); (1%nat, "u"); (2%nat, "u")].
Proof.
  destruct (stale_failure_unregisters_running_analysis initial "t" "u" "u" "u"
              FetchError eq_refl eq_refl eq_refl)
    as (s3 & Hset & Hjob & Hin & _ & Hf).
  exists s3. repeat split; assumption.
Defined.

End Clearing.

(** ** Applying gain to a lane *)

Section Lanes.

Lemma getGainNode_audio (s : State) (audioEl : AudioEl) (lane : Lane)
      (node : GainNode) :
  getGainNode s audioEl = Some (lane, node) ->
  exists ctx,
    _audioCtx s = Some ctx
    /\ ((audioEl = audioA /\ lane = LaneA /\ _gainA s = Some node)
        \/ (audioEl = audioB /\ lane = LaneB /\ _gainB s = Some node)).
Proof.
  unfold getGainNode. destruct (_audioCtx s) as [ctx |]; [| discriminate].
  intros H. exists ctx. split; [reflexivity |].
  destruct audioEl; try discriminate.
  - destruct (_gainA s); [| discriminate]. cbn in H. injection H as <- <-. now left.
  - destruct (_gainB s); [| discriminate]. cbn in H. injection H as <- <-. now right.
Qed.

Lemma applyGain_enabled (audioEl : AudioEl) (trackId : string) (s : State)
      (lane : Lane) (node : GainNode) :
  _enabled s = true -> getGainNode s audioEl = Some (lane, node) ->
  applyGain audioEl trackId s
  = setTargetAtTime lane node (computeGain s trackId) (RAMP_TIME / 3) s
  /\ getGainNode (applyGain audioEl trackId s) audioEl
     = Some (lane, {| rampTarget := computeGain s trackId; rampStart := now s;
                      rampTimeConstant := (RAMP_TIME / 3)%R |} :: node).
Proof.
  intros Hen Hnode.
  destruct (getGainNode_audio s audioEl lane node Hnode)
    as (ctx & Hctx & [(-> & -> & HA) | (-> & -> & HB)]);
    unfold applyGain; rewrite Hen, Hctx, Hnode; cbn [negb orb];
    (rewrite bool_decide_eq_true_2 by eauto); cbn [negb];
    (split; [reflexivity |]);
    unfold getGainNode, setTargetAtTime; cbn; rewrite Hctx; reflexivity.
Qed.

(** Repeating [applyGain] for an unchanged cache entry and target schedules
    the same gain again: two calls in a row put two ramps with the same
    target on the lane's node, on top of what was there. *)
Theorem applyGain_is_idempotent_in_target
        (audioEl : AudioEl) (trackId : string) (s : State)
        (lane : Lane) (node : GainNode) :
  _enabled s = true -> getGainNode s audioEl = Some (lane, node) ->
  let ramp := {| rampTarget := computeGain s trackId; rampStart := now s;
                 rampTimeConstant := (RAMP_TIME / 3)%R |} in
  getGainNode (applyGain audioEl trackId (applyGain audioEl trackId s)) audioEl
  = Some (lane, ramp :: ramp :: node)
  /\ computeGain (applyGain audioEl trackId s) trackId = computeGain s trackId.
Proof.
  intros Hen Hnode ramp.
  destruct (applyGain_enabled audioEl trackId s lane node Hen Hnode) as [Hs1 Hn1].
  set (s1 := applyGain audioEl trackId s) in *.
  assert (Hen1 : _enabled s1 = true).
  { rewrite Hs1. unfold setTargetAtTime. now destruct lane. }
  assert (Hg : computeGain s1 trackId = computeGain s trackId).
  { apply computeGain_ext; rewrite Hs1; unfold setTargetAtTime; now destruct lane. }
  assert (Hnow : now s1 = now s).
  { rewrite Hs1. unfold setTargetAtTime, now. now destruct lane. }
  destruct (applyGain_enabled audioEl trackId s1 lane _ Hen1 Hn1) as [_ Hn2].
  rewrite Hn2, Hg, Hnow. split; reflexivity.
Qed.

Lemma applyGain_is_idempotent_in_target_witness :
  let s := initAudioContext (setEnabled true threeTracks) in
  getGainNode (applyGain audioA "loud" (applyGain audioA "loud" s)) audioA
  = Some (LaneA,
          [ {| rampTarget := computeGain s "loud"; rampStart := now s;
               rampTimeConstant := (RAMP_TIME / 3)%R |};
            {| rampTarget := computeGain s "loud"; rampStart := now s;
               rampTimeConstant := (RAMP_TIME / 3)%R |} ]).
Proof.
  intros s.
  apply (applyGain_is_idempotent_in_target audioA "loud" s LaneA []);
    reflexivity.
Defined.

Lemma applyGain_cases (audioEl : AudioEl) (trackId : string) (s : State) :
  applyGain audioEl trackId s = s
  \/ exists lane node target tc,
      getGainNode s audioEl = Some (lane, node)
      /\ applyGain audioEl trackId s = setTargetAtTime lane node target tc s.
Proof.
  unfold applyGain. destruct (_ || _); [now left |].
  destruct (getGainNode s audioEl) as [[lane node] |]; [| now left].
  right. now exists lane, node, (computeGain s trackId), (RAMP_TIME / 3)%R.
Qed.

Lemma resetGain_cases (audioEl : AudioEl) (s : State) :
  resetGain audioEl s = s
  \/ exists lane node target tc,
      getGainNode s audioEl = Some (lane, node)
      /\ resetGain audioEl s = setTargetAtTime lane node target tc s.
Proof.
  unfold resetGain. destruct (_audioCtx s); [| now left].
  destruct (getGainNode s audioEl) as [[lane node] |]; [| now left].
  right. now exists lane, node, 1.0%R, (RAMP_TIME / 3)%R.
Qed.

(** What a write to the node of [audioEl] leaves alone. *)
Lemma setTargetAtTime_frame (s : State) (audioEl : AudioEl) (lane : Lane)
      (node : GainNode) (target tc : R) :
  getGainNode s audioEl = Some (lane, node) ->
  let s' := setTargetAtTime lane node target tc s in
  (audioEl = audioA -> _gainB s' = _gainB s)
  /\ (audioEl = audioB -> _gainA s' = _gainA s)
  /\ audioEl <> audioOther
  /\ (_cache s', _inflight s', _enabled s', _target s')
     = (_cache s, _inflight s, _enabled s, _target s).
Proof.
  intros Hnode s'.
  destruct (getGainNode_audio s audioEl lane node Hnode)
    as (ctx & Hctx & [(-> & -> & HA) | (-> & -> & HB)]);
    subst s'; unfold setTargetAtTime; cbn; repeat split; congruence.
Qed.

(** The two lanes are independent: [applyGain] and [resetGain] for one of the
    two elements never touch the gain node of the other, for any other
    element they do nothing at all, and neither ever changes the cache, the
    in-flight map, the flags or the target. *)
Theorem lanes_are_independent (s : State) (trackId : string) :
  _gainB (applyGain audioA trackId s) = _gainB s
  /\ _gainA (applyGain audioB trackId s) = _gainA s
  /\ _gainB (resetGain audioA s) = _gainB s
  /\ _gainA (resetGain audioB s) = _gainA s
  /\ applyGain audioOther trackId s = s
  /\ resetGain audioOther s = s
  /\ (forall audioEl,
        (_cache (applyGain audioEl trackId s), _inflight (applyGain audioEl trackId s),
         _enabled (applyGain audioEl trackId s), _target (applyGain audioEl trackId s))
        = (_cache s, _inflight s, _enabled s, _target s)
        /\ (_cache (resetGain audioEl s), _inflight (resetGain audioEl s),
            _enabled (resetGain audioEl s), _target (resetGain audioEl s))
           = (_cache s, _inflight s, _enabled s, _target s)).
Proof.
  assert (Happly : forall audioEl,
    (audioEl = audioA -> _gainB (applyGain audioEl trackId s) = _gainB s)
    /\ (audioEl = audioB -> _gainA (applyGain audioEl trackId s) = _gainA s)
    /\ (audioEl = audioOther -> applyGain audioEl trackId s = s)
    /\ (_cache (applyGain audioEl trackId s), _inflight (applyGain audioEl trackId s),
        _enabled (applyGain audioEl trackId s), _target (applyGain audioEl trackId s))
       = (_cache s, _inflight s, _enabled s, _target s)).
  { intros audioEl.
    destruct (applyGain_cases audioEl trackId s)
      as [-> | (lane & node & target & tc & Hnode & ->)]; [easy |].
    destruct (setTargetAtTime_frame s audioEl lane node target tc Hnode)
      as (HA & HB & Hother & Hrest).
    repeat split; try assumption. intros ->. congruence. }
  assert (Hreset : forall audioEl,
    (audioEl = audioA -> _gainB (resetGain audioEl s) = _gainB s)
    /\ (audioEl = audioB -> _gainA (resetGain audioEl s) = _gainA s)
    /\ (audioEl = audioOther -> resetGain audioEl s = s)
    /\ (_cache (resetGain audioEl s), _inflight (resetGain audioEl s),
        _enabled (resetGain audioEl s), _target (resetGain audioEl s))
       = (_cache s, _inflight s, _enabled s, _target s)).
  { intros audioEl.
    destruct (resetGain_cases audioEl s)
      as [-> | (lane & node & target & tc & Hnode & ->)]; [easy |].
    destruct (setTargetAtTime_frame s audioEl lane node target tc Hnode)
      as (HA & HB & Hother & Hrest).
    repeat split; try assumption. intros ->. congruence. }
  split; [now apply (Happly audioA) |]. split; [now apply (Happly audioB) |].
  split; [now apply (Hreset audioA) |]. split; [now apply (Hreset audioB) |].
  split; [now apply (Happly audioOther) |]. split; [now apply (Hreset audioOther) |].
  intros audioEl. split; [apply Happly | apply Hreset].
Qed.

End Lanes.

(** ** Pre-analysis and apply-on-play *)

Section Orchestration.

(** [preAnalyze] works in the background and is deduplicated: it never
    touches a gain node, the cache or a suspended call; repeated for the
    same identifier it does nothing more; disabled, or with the identifier
    cached or in flight, it does nothing; otherwise it issues exactly one
    fetch and registers the analysis as in flight. *)
Theorem preAnalyze_in_background (url url' trackId : string) (s : State) :
  let s' := preAnalyze url trackId s in
  (_audioCtx s', _gainA s', _gainB s', _enabled s', _target s')
  = (_audioCtx s, _gainA s, _gainB s, _enabled s, _target s)
  /\ (_cache s', suspended s') = (_cache s, suspended s)
  /\ preAnalyze url' trackId s' = s'
  /\ (_enabled s = false
      \/ is_Some (_cache s !! trackId) \/ is_Some (_inflight s !! trackId) ->
      s' = s)
  /\ (_enabled s = true ->
      _cache s !! trackId = None -> _inflight s !! trackId = None ->
      fetched s' = fetched s ++ [(nextPromise s, url)]
      /\ _inflight s' !! trackId = Some (nextPromise s)
      /\ jobs s' !! nextPromise s = Some {| jobUrl := url; jobTrackId := trackId |}).
Proof.
  intros s'. subst s'.
  assert (Hen : _enabled s = true \/ _enabled s = false)
    by (destruct (_enabled s); auto).
  destruct Hen as [Hen | Hen].
  2: { assert (Hsame : forall u, preAnalyze u trackId s = s).
       { intros u. unfold preAnalyze. rewrite Hen. reflexivity. }
       rewrite !Hsame. repeat split; try reflexivity; intros; congruence. }
  assert (Hc : (exists m, _cache s !! trackId = Some m) \/ _cache s !! trackId = None)
    by (destruct (_cache s !! trackId); eauto).
  destruct Hc as [[m Hc] | Hc].
  { assert (Hsame : forall u, preAnalyze u trackId s = s).
    { intros u. unfold preAnalyze. rewrite Hen, Hc. reflexivity. }
    rewrite !Hsame. repeat split; try reflexivity; intros; congruence. }
  assert (Hi : (exists q, _inflight s !! trackId = Some q)
               \/ _inflight s !! trackId = None)
    by (destruct (_inflight s !! trackId); eauto).
  destruct Hi as [[q Hi] | Hi].
  { assert (Hsame : forall u, preAnalyze u trackId s = s).
    { intros u. unfold preAnalyze. rewrite Hen, Hc, Hi. reflexivity. }
    rewrite !Hsame. repeat split; try reflexivity; intros; congruence. }
  destruct (analyzeLUFS_starts url trackId s Hc Hi)
    as (s1 & Hrun & Hc1 & Hi1 & Hj1 & Hf1 & Hn1 & Hs1 & Hsus1 & Hflags & Hsrc).
  assert (Hpre : preAnalyze url trackId s = s1).
  { unfold preAnalyze. rewrite Hen, Hc, Hi, Hrun. reflexivity. }
  rewrite Hpre. injection Hflags as Hen1 Ht1 Hctx1 HA1 HB1.
  assert (Hi1' : _inflight s1 !! trackId = Some (nextPromise s))
    by (rewrite Hi1; apply lookup_insert_eq).
  split; [congruence |]. split; [congruence |]. split.
  { unfold preAnalyze. rewrite Hen1, Hen, Hc1, Hc, Hi1'. reflexivity. }
  split.
  - intros [Hd | [[x Hx] | [x Hx]]]; congruence.
  - intros _ _ _. split; [assumption |]. split; [assumption |].
    rewrite Hj1. apply lookup_insert_eq.
Qed.

Lemma preAnalyze_in_background_witness :
  fetched (preAnalyze "u" "t" (setEnabled true initial)) = [(0%nat, "u")]
  /\ preAnalyze "u" "t" initial = initial.
Proof.
  destruct (preAnalyze_in_background "u" "v" "t" (setEnabled true initial))
    as (_ & _ & _ & _ & Hstart).
  destruct (preAnalyze_in_background "u" "v" "t" initial) as (_ & _ & _ & Hidle & _).
  split.
  - apply Hstart; reflexivity.
  - apply Hidle. now left.
Defined.

(** The state in which a fresh [analyzeAndApply] is suspended. *)
Lemma analyzeAndApply_suspends (audioEl : AudioEl) (url trackId : string)
      (s : State) :
  _enabled s = true -> audioSane s -> audioEl <> audioOther ->
  _cache s !! trackId = None -> _inflight s !! trackId = None ->
  let s1 := analyzeAndApply audioEl url trackId s in
  _enabled s1 = true
  /\ (exists lane node ctx,
        _audioCtx s1 = Some ctx
        /\ getGainNode s1 audioEl
           = Some (lane, {| rampTarget := 1.0; rampStart := currentTime ctx;
                            rampTimeConstant := 0.05 |} :: node))
  /\ jobs s1 !! nextPromise s = Some {| jobUrl := url; jobTrackId := trackId |}
  /\ suspended s1
     = suspended s ++ [{| susEl := audioEl; susUrl := url; susTrackId := trackId;
                          susAwait := Join (nextPromise s) |}]
  /\ (srcA s1, srcB s1, srcOther s1) = (srcA s, srcB s, srcOther s)
  /\ (_cache s1, _target s1) = (_cache s, _target s)
  /\ fetched s1 = fetched s ++ [(nextPromise s, url)].
Proof.
  intros Hen Hsane Hel Hc Hi s1. subst s1. unfold analyzeAndApply.
  rewrite Hen. cbn [negb].
  destruct (_audioCtx s) as [ctx |] eqn:Hctx.
  - destruct (context_has_nodes s Hsane ltac:(rewrite Hctx; eauto))
      as [[gA HA] [gB HB]].
    rewrite (bool_decide_eq_true_2 (is_Some (Some ctx))) by (now eexists).
    rewrite (bool_decide_eq_false_2 (is_Some (_cache s !! trackId)))
      by (rewrite Hc; intros [x Hx]; discriminate).
    unfold getGainNode. rewrite Hctx.
    destruct audioEl; try congruence; rewrite ?HA, ?HB; cbn [mbind option_bind];
      unfold analyzeLUFS, setTargetAtTime, now; cbn; rewrite Hc, Hi, Hctx; cbn;
      rewrite ?lookup_insert_eq, ?Hctx; repeat split; eauto.
  - rewrite (bool_decide_eq_false_2 (is_Some None))
      by (intros [x Hx]; discriminate).
    unfold initAudioContext. rewrite Hctx. cbn [_cache withAudio].
    rewrite (bool_decide_eq_false_2 (is_Some (_cache s !! trackId)))
      by (rewrite Hc; intros [x Hx]; discriminate).
    destruct audioEl; try congruence;
      unfold getGainNode, analyzeLUFS, setTargetAtTime, now; cbn; rewrite Hc, Hi; cbn;
      rewrite ?lookup_insert_eq; repeat split; eauto.
Qed.

(** Apply-on-play, end to end.  With the normalizer enabled and a track that
    is neither cached nor in flight, [analyzeAndApply] on one of the two
    elements, the successful completion of its analysis and the resumption
    of the call, the element still playing the url, leave the lane with a
    newest ramp whose target is [computeGain] for the measurement now
    cached, with time constant [RAMP_TIME / 3]; no call stays suspended. *)
Theorem analyzeAndApply_applies_measured_gain
        (audioEl : AudioEl) (url trackId : string) (s : State)
        (audioBuffer : AudioBuffer) (m : Measurement) :
  _enabled s = true -> audioSane s -> audioEl <> audioOther ->
  _cache s !! trackId = None -> _inflight s !! trackId = None ->
  src s audioEl = url -> url <> EmptyString ->
  measureLUFS audioBuffer = Some m ->
  exists s' lane ramp node,
    run [CallAnalyzeAndApply audioEl url trackId;
         Settle (nextPromise s) (Decoded audioBuffer);
         Resume (length (suspended s))] s = Some s'
    /\ getGainNode s' audioEl = Some (lane, ramp :: node)
    /\ rampTarget ramp = computeGain s' trackId
    /\ rampTimeConstant ramp = (RAMP_TIME / 3)%R
    /\ getCachedLUFS s' trackId = Some m
    /\ suspended s' = suspended s.
Proof.
  intros Hen Hsane Hel Hc Hi Hsrc Hurl Hm.
  destruct (analyzeAndApply_suspends audioEl url trackId s Hen Hsane Hel Hc Hi)
    as (Hen1 & (lane & node & ctx & Hctx1 & Hnode1) & Hjob1 & Hsus1 & Hsrc1 & Hct1 & _).
  set (s1 := analyzeAndApply audioEl url trackId s) in *.
  pose proof (settle_success (nextPromise s) audioBuffer s1 _ m Hjob1 Hm) as Hset.
  cbn [jobTrackId] in Hset.
  set (s2 := withRuntime _ _ _ _ _) in Hset.
  assert (Hlook : suspended s2 !! length (suspended s)
                  = Some {| susEl := audioEl; susUrl := url; susTrackId := trackId;
                            susAwait := Join (nextPromise s) |}).
  { subst s2. cbn. rewrite Hsus1. apply list_lookup_middle. reflexivity. }
  assert (Hres : resolution s2 (Join (nextPromise s)) = Some (Some m)).
  { subst s2. cbn. apply lookup_insert_eq. }
  set (s2' := withSuspended (delete (length (suspended s)) (suspended s2)) s2).
  assert (Hsrc2 : src s2' audioEl = url).
  { injection Hsrc1 as HsA HsB HsO. rewrite <- Hsrc.
    subst s2' s2. destruct audioEl; cbn; assumption. }
  assert (Hen2 : _enabled s2' = true) by (subst s2' s2; exact Hen1).
  assert (Hnode2 : getGainNode s2' audioEl = getGainNode s1 audioEl)
    by (subst s2' s2; reflexivity).
  rewrite Hnode1 in Hnode2.
  destruct (applyGain_enabled audioEl trackId s2' lane _ Hen2 Hnode2) as [Happ Hnode3].
  exists (applyGain audioEl trackId s2'), lane.
  eexists. eexists. split; [| split; [exact Hnode3 |]].
  - cbn [run step mbind option_bind]. fold s1. rewrite Hset.
    cbn [mbind option_bind]. unfold resume. rewrite Hlook.
    cbn [mbind option_bind susAwait]. rewrite Hres.
    cbn [mbind option_bind susEl susUrl susTrackId].
    unfold analyzeAndApply_resume. fold s2'. rewrite Hsrc2.
    rewrite bool_decide_eq_false_2 by assumption.
    rewrite bool_decide_eq_true_2 by reflexivity. reflexivity.
  - cbn [rampTarget rampTimeConstant].
    split; [symmetry; apply computeGain_ext; rewrite Happ; unfold setTargetAtTime;
            now destruct lane |].
    split; [reflexivity |]. unfold getCachedLUFS.
    rewrite Happ. split.
    + unfold setTargetAtTime. destruct lane; subst s2' s2; cbn;
        apply lookup_insert_eq.
    + unfold setTargetAtTime. destruct lane; subst s2' s2; cbn;
        rewrite Hsus1, delete_middle; apply app_nil_r.
Qed.

Lemma analyzeAndApply_applies_measured_gain_witness :
  exists s' lane ramp node,
    run [CallAnalyzeAndApply audioA "u" "t"; Settle 0 (Decoded loudClick); Resume 0]
        (withSrc audioA "u" (setEnabled true initial)) = Some s'
    /\ getGainNode s' audioA = Some (lane, ramp :: node)
    /\ rampTarget ramp = computeGain s' "t"
    /\ rampTimeConstant ramp = (RAMP_TIME / 3)%R
    /\ getCachedLUFS s' "t"
       = Some {| lufs := Finite (loudnessOf (clickPower 1)); peak := 1 |}
    /\ suspended s' = [].
Proof.
  apply (analyzeAndApply_applies_measured_gain audioA "u" "t"
           (withSrc audioA "u" (setEnabled true initial)) loudClick
           {| lufs := Finite (loudnessOf (clickPower 1)); peak := 1 |}).
  - reflexivity.
  - now apply (audioSane_same initial); [.. | apply audioSane_initial].
  - discriminate.
  - reflexivity.
  - reflexivity.
  - reflexivity.
  - discriminate.
  - apply measureLUFS_loudClick.
Defined.

(** [destroy] empties both maps and drops the audio context, keeping the
    gain nodes and the running analyses; afterwards [applyGain] and
    [resetGain] do nothing, [computeGain] is 1 for every identifier,
    [setEnabled] only sets the flag, and a second [destroy] changes
    nothing. *)
Theorem destroy_tears_down (s : State) :
  _audioCtx (destroy s) = None
  /\ (_cache (destroy s), _inflight (destroy s)) = (∅, ∅)
  /\ (_gainA (destroy s), _gainB (destroy s), jobs (destroy s), suspended (destroy s))
     = (_gainA s, _gainB s, jobs s, suspended s)
  /\ (forall audioEl trackId,
        applyGain audioEl trackId (destroy s) = destroy s
        /\ resetGain audioEl (destroy s) = destroy s
        /\ computeGain (destroy s) trackId = 1%R)
  /\ (forall val, setEnabled val (destroy s) = withEnabled val (destroy s))
  /\ destroy (destroy s) = destroy s.
Proof.
  assert (Hd : destroy s = withAudio None (_gainA s) (_gainB s) (withMaps ∅ ∅ s)
               \/ (destroy s = withMaps ∅ ∅ s /\ _audioCtx s = None)).
  { unfold destroy, clearCache. cbn [_audioCtx _gainA _gainB withMaps].
    destruct (_audioCtx s); [now left | now right]. }
  assert (Hctx : _audioCtx (destroy s) = None).
  { destruct Hd as [-> | [-> Hnone]]; [reflexivity | exact Hnone]. }
  split; [exact Hctx |].
  split; [destruct Hd as [-> | [-> Hnone]]; reflexivity |].
  split; [destruct Hd as [-> | [-> Hnone]]; reflexivity |].
  split; [| split].
  - intros audioEl trackId. split; [| split].
    + unfold applyGain. rewrite Hctx.
      rewrite (bool_decide_eq_false_2 (is_Some None))
        by (intros [x Hx]; discriminate).
      now rewrite orb_true_r.
    + now apply resetGain_no_context.
    + apply computeGain_absent.
      destruct Hd as [-> | [-> Hnone]]; apply lookup_empty.
  - intros val. unfold setEnabled. case_match; [| reflexivity].
    rewrite (resetGain_no_context audioA) by (cbn; exact Hctx).
    apply resetGain_no_context. cbn. exact Hctx.
  - destruct Hd as [-> | [-> Hnone]]; unfold destroy, clearCache; cbn;
      [reflexivity | now rewrite Hnone].
Qed.

End Orchestration.

(** ** main.js: formatting a duration *)

Section Durations.

Lemma Zfloor_div_60 (x : R) : Zfloor (x / 60) = (Zfloor x / 60)%Z.
Proof.
  apply Zfloor_eq.
  pose proof (Zfloor_bound x) as [Hlo Hhi].
  pose proof (Z.div_mod (Zfloor x) 60 ltac:(lia)) as Hdm.
  pose proof (Z.mod_pos_bound (Zfloor x) 60 ltac:(lia)) as [Hm0 Hm1].
  apply (f_equal IZR) in Hdm. rewrite plus_IZR, mult_IZR in Hdm.
  assert (Hm1' : (Zfloor x mod 60 <= 59)%Z) by lia.
  apply IZR_le in Hm0. apply IZR_le in Hm1'. lra.
Qed.

Lemma remainder_60 (x : R) :
  (0 < x)%R -> Zfloor (remainder x 60) = (Zfloor x mod 60)%Z.
Proof.
  intros Hx. unfold remainder, truncate.
  destruct (decide (0 <= x / 60)%R) as [_ | Hneg].
  2: { exfalso. apply Hneg. apply Rlt_le, Rdiv_lt_0_compat; lra. }
  rewrite Zfloor_div_60.
  replace (x - 60 * IZR (Zfloor x / 60))%R
    with (x + IZR (- (60 * (Zfloor x / 60))))%R
    by (rewrite opp_IZR, mult_IZR; lra).
  rewrite Zfloor_addz.
  pose proof (Z.div_mod (Zfloor x) 60 ltac:(lia)). lia.
Qed.

Lemma padStart_twoDigits (n : Z) :
  (0 <= n < 60)%Z ->
  padStart 2 "0" (Number_toString n) = twoDigits n
  /\ String.length (twoDigits n) = 2%nat
  /\ (twoDigits n = "00" -> n = 0%Z).
Proof.
  intros Hn. replace n with (Z.of_nat (Z.to_nat n)) by lia.
  assert (Hlt : (Z.to_nat n < 60)%nat) by lia. revert Hlt.
  generalize (Z.to_nat n). clear n Hn. intros n Hn.
  do 60 (destruct n as [| n];
         [vm_compute; split; [reflexivity | split; [reflexivity |]];
          first [reflexivity | discriminate] |]).
  lia.
Qed.

(** A duration of three minutes and five and a half seconds. *)
Example formatDuration_185 : formatDuration (Number 185.5) = "3:05".
Proof.
  unfold formatDuration. destruct (decide (185.5 = 0)%R); [lra |].
  cbv zeta. unfold Math_floor.
  rewrite Zfloor_div_60, remainder_60 by lra.
  replace (Zfloor 185.5) with 185%Z by (symmetry; apply Zfloor_eq; lra).
  reflexivity.
Qed.

Lemma pretty_N_go_head (x : N) (s : string) :
  (0 < x)%N ->
  exists c rest, pretty_N_go x s = String c rest /\ c <> "0"%char.
Proof.
  revert s. induction (N.lt_wf_0 x) as [x _ IH]; intros s Hx.
  rewrite pretty_N_go_step by assumption.
  destruct (decide (x `div` 10 = 0)%N) as [Hz | Hnz].
  - rewrite Hz, pretty_N_go_0. eexists. eexists. split; [reflexivity |].
    assert (Hlt : (x < 10)%N).
    { pose proof (N.div_mod x 10 ltac:(lia)) as Hdm.
      pose proof (N.mod_lt x 10 ltac:(lia)). rewrite Hz in Hdm. lia. }
    rewrite N.mod_small by assumption.
    assert (x = 1 \/ x = 2 \/ x = 3 \/ x = 4 \/ x = 5 \/ x = 6
            \/ x = 7 \/ x = 8 \/ x = 9)%N as Hcases by lia.
    destruct Hcases as [-> | [-> | [-> | [-> | [-> | [-> | [-> | [-> | ->]]]]]]]];
      discriminate.
  - apply IH; [apply N.div_lt; lia | now apply N.neq_0_lt_0].
Qed.

Lemma pretty_Z_head (n : Z) :
  n <> 0%Z -> exists c rest, pretty n = String c rest /\ c <> "0"%char.
Proof.
  intros Hn. destruct n as [| p | p]; [congruence | |].
  - unfold pretty, pretty_Z, pretty, pretty_positive, pretty, pretty_N.
    destruct (decide (N.pos p = 0%N)); [discriminate |].
    apply pretty_N_go_head. lia.
  - exists "-"%char. eexists. split; [reflexivity | discriminate].
Qed.

(** [formatDuration] answers "0:00" exactly for a missing duration
    ([undefined], [null], [NaN]) and for one of less than a second. *)
Theorem formatDuration_zero_iff (seconds : JSValue) :
  formatDuration seconds = "0:00"
  <-> match seconds with
      | Number x => (0 <= x < 1)%R
      | _ => True
      end.
Proof.
  destruct seconds as [| | | x]; try (split; [intros _; exact I | reflexivity]).
  split.
  - intros Hfmt.
    destruct (Rlt_dec x 0) as [Hneg | Hnn].
    + exfalso. unfold formatDuration in Hfmt.
      destruct (decide (x = 0%R)) as [-> | _]; [lra |].
      cbv zeta in Hfmt. unfold Math_floor in Hfmt. rewrite Zfloor_div_60 in Hfmt.
      assert (Hm : (Zfloor x / 60 <> 0)%Z).
      { pose proof (Zfloor_bound x) as [Hlo _].
        assert (Zfloor x < 0)%Z by (apply lt_IZR; lra).
        assert (Zfloor x / 60 < 0)%Z by (apply Z.div_lt_upper_bound; lia). lia. }
      destruct (pretty_Z_head _ Hm) as (c & rest & Hp & Hc).
      unfold Number_toString in Hfmt. rewrite Hp in Hfmt.
      cbn [String.app] in Hfmt. injection Hfmt as Hhead _. congruence.
    + destruct (Rlt_dec x 1) as [Hlt | Hge]; [lra |]. exfalso.
      destruct (Req_dec x 0) as [-> | Hx0]; [lra |].
      unfold formatDuration in Hfmt.
      destruct (decide (x = 0%R)) as [| _]; [contradiction |].
      cbv zeta in Hfmt. unfold Math_floor in Hfmt.
      rewrite Zfloor_div_60, remainder_60 in Hfmt by lra.
      assert (Ht : (1 <= Zfloor x)%Z) by (apply Zfloor_lub; lra).
      pose proof (Z.mod_pos_bound (Zfloor x) 60 ltac:(lia)) as Hmod.
      destruct (padStart_twoDigits _ Hmod) as (Hpad & _ & Hzero).
      rewrite Hpad in Hfmt.
      destruct (decide (Zfloor x / 60 = 0)%Z) as [Hm | Hm].
      * rewrite Hm in Hfmt. cbn in Hfmt. injection Hfmt as Hfmt.
        apply Hzero in Hfmt.
        pose proof (Z.div_mod (Zfloor x) 60 ltac:(lia)). lia.
      * destruct (pretty_Z_head _ Hm) as (c & rest & Hp & Hc).
        unfold Number_toString in Hfmt. rewrite Hp in Hfmt.
        cbn [String.app] in Hfmt. injection Hfmt as Hhead _. congruence.
  - intros [Hlo Hhi]. unfold formatDuration.
    destruct (decide (x = 0%R)) as [| Hx0]; [reflexivity |].
    cbv zeta. unfold Math_floor. rewrite Zfloor_div_60, remainder_60 by lra.
    replace (Zfloor x) with 0%Z by (symmetry; apply Zfloor_eq; lra).
    reflexivity.
Qed.

End Durations.

(** ** main.js: choosing a thumbnail *)

Section Thumbnails.
Local Open Scope R_scope.

(** The head of the sorted array, step by step. *)
Lemma head_insertSorted {A : Type} (compareFn : A -> A -> R) (x : A)
      (sorted : list A) :
  head (insertSorted compareFn x sorted)
  = match head sorted with
    | None => Some x
    | Some y => if decide (compareFn x y > 0) then Some y else Some x
    end.
Proof.
  destruct sorted as [| y rest]; cbn; [reflexivity |].
  destruct (decide (compareFn x y > 0)); reflexivity.
Qed.

Lemma head_sort_widest (l : list Thumbnail) :
  l <> [] ->
  exists i t,
    l !! i = Some t
    /\ head (Array_sort (fun a b => widthOrZero b - widthOrZero a) l) = Some t
    /\ Forall (fun t' => widthOrZero t' <= widthOrZero t) l
    /\ forall j t', (j < i)%nat -> l !! j = Some t' ->
                    widthOrZero t' < widthOrZero t.
Proof.
  induction l as [| x l IH]; [congruence |]. intros _.
  unfold Array_sort. cbn [fold_right]. rewrite head_insertSorted.
  fold (Array_sort (fun a b => widthOrZero b - widthOrZero a) l).
  destruct l as [| y l'].
  - cbn. exists 0%nat, x. repeat split; try reflexivity.
    + constructor; [lra | constructor].
    + intros j t' Hj. lia.
  - destruct (IH ltac:(congruence)) as (i & t & Hi & Hhead & Hall & Hbefore).
    rewrite Hhead.
    destruct (decide (widthOrZero t - widthOrZero x > 0)) as [Hgt | Hle].
    + exists (S i), t. split; [exact Hi |]. split; [reflexivity |]. split.
      * constructor; [lra | exact Hall].
      * intros [| j] t' Hj Hlook.
        -- cbn in Hlook. injection Hlook as <-. lra.
        -- apply (Hbefore j); [lia | exact Hlook].
    + exists 0%nat, x. split; [reflexivity |]. split; [reflexivity |]. split.
      * constructor; [lra |]. eapply Forall_impl; [exact Hall |].
        cbn beta. intros t' Ht'. lra.
      * intros j t' Hj. lia.
Qed.

(** [getBestThumbnail] on a non-empty array answers with the url of the
    widest thumbnail (a missing width counting as 0), the first one of several
    equally wide, and with the empty string if that thumbnail has no url. *)
Theorem getBestThumbnail_widest (l : list Thumbnail) (Hne : l <> []) :
  exists i t,
    l !! i = Some t
    /\ getBestThumbnail (Some l) = default EmptyString (thumbUrl t)
    /\ Forall (fun t' => widthOrZero t' <= widthOrZero t) l
    /\ forall j t', (j < i)%nat -> l !! j = Some t' ->
                    widthOrZero t' < widthOrZero t.
Proof.
  destruct (head_sort_widest l Hne) as (i & t & Hi & Hhead & Hall & Hbefore).
  exists i, t. split; [exact Hi |]. split; [| split; assumption].
  unfold getBestThumbnail. destruct l as [| x l']; [congruence |].
  destruct (Array_sort _ (x :: l')) as [| t0 rest]; [discriminate |].
  cbn in Hhead. injection Hhead as ->. now destruct (thumbUrl t).
Qed.

Lemma getBestThumbnail_widest_witness :
  coverThumbnails <> []
  /\ exists i t,
       coverThumbnails !! i = Some t
       /\ getBestThumbnail (Some coverThumbnails)
          = default EmptyString (thumbUrl t)
       /\ Forall (fun t' => widthOrZero t' <= widthOrZero t) coverThumbnails
       /\ forall j t', (j < i)%nat -> coverThumbnails !! j = Some t' ->
                       widthOrZero t' < widthOrZero t.
Proof.
  split; [discriminate |].
  apply (getBestThumbnail_widest coverThumbnails). discriminate.
Defined.

(** On the example cover the first of the two 544-wide thumbnails wins. *)
Example getBestThumbnail_cover :
  getBestThumbnail (Some coverThumbnails) = "large"%string.
Proof.
  unfold getBestThumbnail, coverThumbnails, Array_sort.
  cbn [fold_right insertSorted widthOrZero thumbWidth].
  repeat (match goal with
          | |- context [decide ?P] => destruct (decide P); try lra
          end;
          cbn [insertSorted widthOrZero thumbWidth]).
  reflexivity.
Qed.

End Thumbnails.

(** * Double arithmetic *)

(** ** Rounding to nearest *)

Section Binary64.
Local Open Scope R_scope.
Local Abbreviation bpow := Float64.bpow.
Local Abbreviation ilog2 := Float64.ilog2.
Local Abbreviation roundHalfEven := Float64.roundHalfEven.
Local Abbreviation roundTo := Float64.roundTo.
Local Abbreviation round64 := Float64.round64.

Lemma bpow_pos e : 0 < bpow e.
Proof. apply powerRZ_lt. lra. Qed.

Lemma bpow_add e1 e2 : bpow (e1 + e2) = bpow e1 * bpow e2.
Proof. apply powerRZ_add. lra. Qed.

Lemma bpow_opp e : bpow (- e) = / bpow e.
Proof. apply powerRZ_neg'. Qed.

Lemma bpow_cancel e : bpow (- e) * bpow e = 1.
Proof. rewrite bpow_opp. apply Rinv_l. pose proof (bpow_pos e). lra. Qed.

Lemma bpow_exp e : bpow e = exp (IZR e * ln 2).
Proof. unfold Float64.bpow. rewrite powerRZ_Rpower by lra. reflexivity. Qed.

Lemma ln2_pos : 0 < ln 2.
Proof. rewrite <- ln_1. apply ln_increasing; lra. Qed.

Lemma bpow_le e1 e2 : (e1 <= e2)%Z -> bpow e1 <= bpow e2.
Proof.
  intros H. rewrite !bpow_exp.
  destruct (Z.eq_dec e1 e2) as [-> | Hne]; [lra |].
  left. apply exp_increasing. apply Rmult_lt_compat_r; [apply ln2_pos |].
  apply IZR_lt. lia.
Qed.

Lemma bpow_IZR (k : Z) : (0 <= k)%Z -> bpow k = IZR (2 ^ k).
Proof.
  intros Hk. unfold Float64.bpow. rewrite <- (Z2Nat.id k) by assumption.
  rewrite <- pow_powerRZ. apply pow_IZR.
Qed.

Lemma bpow_0 : bpow 0 = 1.
Proof. reflexivity. Qed.

(** *** The binary exponent *)

Lemma ilog2_bounds x : x <> 0 -> bpow (ilog2 x) <= Rabs x < bpow (ilog2 x + 1).
Proof.
  intros Hx. assert (Hpos : 0 < Rabs x) by now apply Rabs_pos_lt.
  pose proof ln2_pos as Hln2.
  pose proof (Zfloor_bound (ln (Rabs x) / ln 2)) as [Hlo Hhi].
  fold (Float64.ilog2 x) in Hlo, Hhi. set (E := ilog2 x) in *.
  rewrite !bpow_exp, plus_IZR.
  assert (Heq : ln (Rabs x) = ln (Rabs x) / ln 2 * ln 2) by (field; lra).
  assert (Hx' : Rabs x = exp (ln (Rabs x))) by (now rewrite exp_ln).
  split.
  - rewrite Hx'. destruct Hlo as [Hlo | Hlo].
    + left. apply exp_increasing. rewrite Heq.
      apply Rmult_lt_compat_r; assumption.
    + right. f_equal. rewrite Hlo. field. lra.
  - rewrite Hx' at 1. apply exp_increasing. rewrite Heq.
    apply Rmult_lt_compat_r; assumption.
Qed.

Lemma ilog2_unique x k : bpow k <= Rabs x < bpow (k + 1) -> ilog2 x = k.
Proof.
  intros [Hlo Hhi]. pose proof ln2_pos as Hln2.
  assert (Hpos : 0 < Rabs x) by (pose proof (bpow_pos k); lra).
  apply Zfloor_eq. rewrite <- plus_IZR. split.
  - apply Rmult_le_reg_r with (ln 2); [assumption |].
    replace (ln (Rabs x) / ln 2 * ln 2) with (ln (Rabs x)) by (field; lra).
    destruct Hlo as [Hlo | Hlo].
    + left. apply exp_lt_inv. rewrite exp_ln by assumption.
      now rewrite <- bpow_exp.
    + right. rewrite <- Hlo, bpow_exp, ln_exp. reflexivity.
  - apply Rmult_lt_reg_r with (ln 2); [assumption |].
    replace (ln (Rabs x) / ln 2 * ln 2) with (ln (Rabs x)) by (field; lra).
    apply exp_lt_inv. rewrite exp_ln by assumption. now rewrite <- bpow_exp.
Qed.

(** *** Rounding to an integer *)

Lemma roundHalfEven_error m : Rabs (IZR (roundHalfEven m) - m) <= / 2.
Proof.
  unfold Float64.roundHalfEven. pose proof (Zfloor_bound m) as [Hlo Hhi]. cbv zeta.
  destruct (decide (/ 2 > m - IZR (Zfloor m))) as [H1 | H1];
    [apply Rabs_le; split; lra |].
  destruct (decide (m - IZR (Zfloor m) > / 2)) as [H2 | H2];
    [rewrite plus_IZR; apply Rabs_le; split; lra |].
  destruct (Z.even (Zfloor m)); rewrite ?plus_IZR; apply Rabs_le; split; lra.
Qed.

Lemma roundHalfEven_eq m (z : Z) : Rabs (IZR z - m) < / 2 -> roundHalfEven m = z.
Proof.
  intros H. apply Rabs_def2 in H. destruct H as [H1 H2].
  unfold Float64.roundHalfEven. pose proof (Zfloor_bound m) as [Hlo Hhi]. cbv zeta.
  assert (Hz : (Zfloor m = z \/ Zfloor m = z - 1)%Z).
  { assert (IZR z - 2 < IZR (Zfloor m) < IZR z + 1) as [Ha Hb] by (split; lra).
    rewrite <- minus_IZR in Ha. rewrite <- plus_IZR in Hb.
    apply lt_IZR in Ha, Hb. lia. }
  destruct Hz as [Hz | Hz]; rewrite Hz in *.
  - destruct (decide _); [reflexivity | lra].
  - rewrite minus_IZR in *.
    destruct (decide (/ 2 > m - (IZR z - 1))); [lra |].
    destruct (decide (m - (IZR z - 1) > / 2)); [f_equal; lia | lra].
Qed.

Lemma roundHalfEven_IZR (z : Z) : roundHalfEven (IZR z) = z.
Proof. apply roundHalfEven_eq. rewrite Rminus_diag, Rabs_R0. lra. Qed.

Lemma roundHalfEven_nonneg m : 0 <= m -> (0 <= roundHalfEven m)%Z.
Proof.
  intros Hm. assert (0 <= Zfloor m)%Z by (apply Zfloor_lub; exact Hm).
  unfold Float64.roundHalfEven. cbv zeta.
  repeat destruct (decide _); try destruct (Z.even _); lia.
Qed.

(** *** Rounding to a format *)

Lemma roundTo_0 prec emin : roundTo prec emin 0 = 0.
Proof.
  unfold Float64.roundTo. rewrite Rmult_0_l.
  change 0 with (IZR 0) at 1. rewrite roundHalfEven_IZR. apply Rmult_0_l.
Qed.

(** The value is within half a unit in the last place, and within [2^emin / 2]
    for a result in the subnormal range. *)
Lemma roundTo_error prec emin x :
  Rabs (roundTo prec emin x - x) <= bpow (- prec) * Rabs x + bpow (emin - 1).
Proof.
  destruct (Req_dec x 0) as [-> | Hx].
  { rewrite roundTo_0, Rminus_diag, Rabs_R0, Rmult_0_r.
    pose proof (bpow_pos (emin - 1)). lra. }
  unfold Float64.roundTo. set (e := Z.max _ emin).
  pose proof (roundHalfEven_error (x * bpow (- e))) as Herr.
  pose proof (bpow_pos e) as He. pose proof (bpow_pos (- prec)) as Hp.
  pose proof (bpow_pos (emin - 1)) as Hm.
  pose proof (Rabs_pos x) as Hax.
  assert (Hstep :
    Rabs (IZR (roundHalfEven (x * bpow (- e))) * bpow e - x) <= / 2 * bpow e).
  { replace (IZR (roundHalfEven (x * bpow (- e))) * bpow e - x)
      with ((IZR (roundHalfEven (x * bpow (- e))) - x * bpow (- e)) * bpow e).
    - rewrite Rabs_mult, (Rabs_pos_eq (bpow e)) by lra.
      apply Rmult_le_compat_r; lra.
    - rewrite Rmult_minus_distr_r, Rmult_assoc, bpow_cancel. ring. }
  assert (Hhalf : forall k, / 2 * bpow k = bpow (k - 1)).
  { intros k. replace (k - 1)%Z with (k + -1)%Z by lia.
    rewrite bpow_add. change (bpow (-1)) with (/ (2 * 1)). field. }
  rewrite Hhalf in Hstep.
  enough (bpow (e - 1) <= bpow (- prec) * Rabs x + bpow (emin - 1)) by lra.
  destruct (Z.max_spec (ilog2 x - (prec - 1)) emin) as [[_ Heq] | [_ Heq]];
    fold e in Heq; rewrite Heq.
  - assert (0 <= bpow (- prec) * Rabs x) by (apply Rmult_le_pos; lra). lra.
  - pose proof (ilog2_bounds x Hx) as [Hlo _].
    replace (ilog2 x - (prec - 1) - 1)%Z with (- prec + ilog2 x)%Z by lia.
    rewrite bpow_add.
    assert (bpow (- prec) * bpow (ilog2 x) <= bpow (- prec) * Rabs x)
      by (apply Rmult_le_compat_l; lra).
    lra.
Qed.

Lemma roundTo_nonneg prec emin x : 0 <= x -> 0 <= roundTo prec emin x.
Proof.
  intros Hx. unfold Float64.roundTo. set (e := Z.max _ emin).
  apply Rmult_le_pos; [| pose proof (bpow_pos e); lra].
  apply IZR_le. apply roundHalfEven_nonneg.
  apply Rmult_le_pos; [assumption | pose proof (bpow_pos (- e)); lra].
Qed.

(** How to evaluate a rounding: [x] lies in the binade of exponent [e + prec - 1]
    and [z] is the integer nearest to its significand. *)
Lemma roundTo_eval prec emin x (z e : Z) :
  (emin <= e)%Z ->
  bpow (e + (prec - 1)) <= Rabs x < bpow (e + prec) ->
  Rabs (IZR z - x * bpow (- e)) < / 2 ->
  roundTo prec emin x = IZR z * bpow e.
Proof.
  intros He Hx Hz. unfold Float64.roundTo.
  rewrite (ilog2_unique x (e + (prec - 1))).
  - replace (Z.max (e + (prec - 1) - (prec - 1)) emin) with e by lia.
    now rewrite (roundHalfEven_eq _ z).
  - now replace (e + (prec - 1) + 1)%Z with (e + prec)%Z by lia.
Qed.

(** Integers of at most [prec] bits are not rounded. *)
Lemma roundTo_IZR prec emin (n : Z) :
  (0 < prec)%Z -> (emin <= 0)%Z ->
  (Z.abs n <= 2 ^ prec)%Z -> roundTo prec emin (IZR n) = IZR n.
Proof.
  intros Hprec Hemin Hn.
  destruct (Z.eq_dec n 0%Z) as [-> | Hn0]; [apply roundTo_0 |].
  assert (Hx : IZR n <> 0) by (intros H; apply eq_IZR in H; lia).
  pose proof (ilog2_bounds (IZR n) Hx) as [Hlo Hhi].
  unfold Float64.roundTo. set (E := ilog2 (IZR n)) in *.
  rewrite <- abs_IZR in Hlo, Hhi.
  assert (HE0 : (0 <= E)%Z).
  { destruct (Z_lt_le_dec E 0%Z) as [Hneg |]; [| assumption].
    exfalso. assert (bpow (E + 1) <= bpow 0) by (apply bpow_le; lia).
    rewrite bpow_0 in H. assert (IZR (Z.abs n) < 1) by lra.
    apply lt_IZR in H0. lia. }
  assert (HEp : (E <= prec)%Z).
  { destruct (Z_lt_le_dec prec E) as [Hbig |]; [| lia].
    exfalso. assert (bpow (prec + 1) <= bpow E) by (apply bpow_le; lia).
    rewrite (bpow_IZR (prec + 1)) in H by lia.
    assert (IZR (2 ^ (prec + 1)) <= IZR (Z.abs n)) by lra.
    apply le_IZR in H0. rewrite Z.pow_add_r in H0 by lia.
    assert (0 < 2 ^ prec)%Z by (apply Z.pow_pos_nonneg; lia). lia. }
  set (e := Z.max (E - (prec - 1)) emin).
  destruct (Z_le_gt_dec e 0%Z) as [Hle | Hgt].
  - (* the significand [n * 2^(-e)] is an integer *)
    rewrite (bpow_IZR (- e)) by lia. rewrite <- mult_IZR, roundHalfEven_IZR.
    rewrite mult_IZR, <- (bpow_IZR (- e)) by lia.
    rewrite Rmult_assoc, bpow_cancel. ring.
  - (* [|n| = 2^prec] *)
    assert (He : e = 1%Z) by lia. assert (HE : E = prec) by lia.
    rewrite HE in Hlo. rewrite (bpow_IZR prec) in Hlo by lia.
    apply le_IZR in Hlo. assert (Habs : Z.abs n = (2 ^ prec)%Z) by lia.
    rewrite He.
    assert (Hhalf : exists h, n = (2 * h)%Z).
    { exists (Z.sgn n * 2 ^ (prec - 1))%Z.
      rewrite <- (Z.abs_sgn n), Habs at 1.
      replace prec with (1 + (prec - 1))%Z at 1 by lia.
      rewrite Z.pow_add_r by lia. change (2 ^ 1)%Z with 2%Z. ring. }
    destruct Hhalf as [h ->].
    replace (IZR (2 * h) * bpow (- (1))) with (IZR h).
    + rewrite roundHalfEven_IZR, mult_IZR. change (bpow 1) with (2 * 1). ring.
    + rewrite mult_IZR. change (bpow (- (1))) with (/ (2 * 1)). field.
Qed.

(** *** Rounding is symmetric *)

Lemma Zfloor_opp (m : R) :
  IZR (Zfloor m) <> m -> Zfloor (- m) = (- Zfloor m - 1)%Z.
Proof.
  intros Hm. pose proof (Zfloor_bound m) as [Hlo Hhi].
  apply Zfloor_eq. rewrite minus_IZR, opp_IZR. split; lra.
Qed.

Lemma roundHalfEven_opp (m : R) : roundHalfEven (- m) = (- roundHalfEven m)%Z.
Proof.
  pose proof (Zfloor_bound m) as [Hlo Hhi].
  destruct (Req_dec (IZR (Zfloor m)) m) as [Hint | Hfrac].
  - rewrite <- Hint, <- opp_IZR, !roundHalfEven_IZR. reflexivity.
  - unfold Float64.roundHalfEven. cbv zeta. rewrite (Zfloor_opp m Hfrac).
    rewrite minus_IZR, opp_IZR.
    destruct (decide (/ 2 > m - IZR (Zfloor m))) as [H1 | H1].
    + destruct (decide (/ 2 > - m - (- IZR (Zfloor m) - 1))) as [H2 | H2]; [lra |].
      destruct (decide (- m - (- IZR (Zfloor m) - 1) > / 2)) as [H3 | H3]; [lia | lra].
    + destruct (decide (m - IZR (Zfloor m) > / 2)) as [H2 | H2].
      * destruct (decide (/ 2 > - m - (- IZR (Zfloor m) - 1))) as [H3 | H3]; [lia | lra].
      * destruct (decide (/ 2 > - m - (- IZR (Zfloor m) - 1))) as [H3 | H3]; [lra |].
        destruct (decide (- m - (- IZR (Zfloor m) - 1) > / 2)) as [H4 | H4]; [lra |].
        replace (- Zfloor m - 1)%Z with (- (Zfloor m + 1))%Z by lia.
        rewrite Z.even_opp, Z.even_add. cbn [Z.even].
        destruct (Z.even (Zfloor m)); cbn; lia.
Qed.

Lemma roundTo_opp prec emin (x : R) : roundTo prec emin (- x) = - roundTo prec emin x.
Proof.
  unfold Float64.roundTo, Float64.ilog2. rewrite Rabs_Ropp.
  set (e := Z.max _ emin).
  replace (- x * bpow (- e)) with (- (x * bpow (- e))) by ring.
  rewrite roundHalfEven_opp, opp_IZR. ring.
Qed.

Lemma binary64_symmetric : Float64.Symmetric Float64.binary64.
Proof. split; intros x; apply roundTo_opp. Qed.

(** *** Binary64 is an accurate arithmetic *)

Lemma eta_small : Float64.eta <= 1e-320.
Proof.
  unfold Float64.eta.
  replace (bpow (-1075)) with (/ bpow 1075) by (symmetry; apply (bpow_opp 1075)).
  rewrite (bpow_IZR 1075) by lia.
  assert (H : IZR (10 ^ 320) <= IZR (2 ^ 1075)).
  { apply IZR_le. apply Z.leb_le. vm_compute. reflexivity. }
  assert (H10 : 0 < IZR (10 ^ 320)).
  { apply IZR_lt. apply Z.ltb_lt. vm_compute. reflexivity. }
  replace 1e-320 with (/ IZR (10 ^ 320)).
  - apply Rinv_le_contravar; assumption.
  - rewrite <- pow_IZR with (n := 320%nat). lra.
Qed.

Lemma eta_pos : 0 < Float64.eta.
Proof. apply bpow_pos. Qed.

Lemma Omega_large : 1e301 <= Float64.Omega.
Proof.
  unfold Float64.Omega. rewrite (bpow_IZR 1023) by lia.
  replace 1e301 with (IZR (10 ^ 301)).
  - apply IZR_le. apply Z.leb_le. vm_compute. reflexivity.
  - rewrite <- pow_IZR with (n := 301%nat). lra.
Qed.

Lemma u64_small : 0 <= bpow (-53) <= 1e-15.
Proof.
  split; [left; apply bpow_pos |].
  replace (bpow (-53)) with (/ bpow 53) by (symmetry; apply (bpow_opp 53)).
  rewrite (bpow_IZR 53) by lia.
  replace 1e-15 with (/ IZR (10 ^ 15)) by (vm_compute (10 ^ 15)%Z; lra).
  apply Rinv_le_contravar.
  - apply IZR_lt. reflexivity.
  - apply IZR_le. apply Z.leb_le. vm_compute. reflexivity.
Qed.

Lemma round64_error x :
  Rabs (round64 x - x) <= bpow (-53) * Rabs x + Float64.eta.
Proof. apply (roundTo_error 53 (-1074)). Qed.

Lemma binary64_accurate : Float64.Accurate Float64.binary64 (bpow (-53)).
Proof.
  split; cbn [Float64.fl Float64.Math_log10 Float64.Math_pow Float64.binary64].
  - intros x _. apply round64_error.
  - intros n Hn. apply roundTo_IZR; lia.
  - intros x _ _. apply round64_error.
  - intros y _. pose proof (round64_error (Math_pow 10 y)) as H.
    rewrite (Rabs_pos_eq (Math_pow 10 y)) in H
      by (unfold Math_pow, Rpower; left; apply exp_pos).
    exact H.
  - intros y. apply roundTo_nonneg. unfold Math_pow, Rpower. left. apply exp_pos.
Qed.

Lemma exact_accurate : Float64.Accurate Float64.exact 0.
Proof.
  pose proof eta_pos as Heta.
  split; cbn [Float64.fl Float64.Math_log10 Float64.Math_pow Float64.exact].
  - intros x _. rewrite Rminus_diag, Rabs_R0. lra.
  - reflexivity.
  - intros x _ _. rewrite Rminus_diag, Rabs_R0. lra.
  - intros y _. rewrite Rminus_diag, Rabs_R0. lra.
  - intros y. unfold Math_pow, Rpower. left. apply exp_pos.
Qed.

End Binary64.

(** ** The gain computation in doubles *)

Section RoundedGain.
Local Open Scope R_scope.
Context (A : Float64.Arith) (u : R).
Hypothesis Hacc : Float64.Accurate A u.
Hypothesis Hu : 0 <= u <= 1e-15.

Lemma Rabs_bound (a b : R) : Rabs a <= b -> - b <= a <= b.
Proof. unfold Rabs. destruct (Rcase_abs a); lra. Qed.

Lemma small_product (X B : R) : 0 <= X <= B -> 0 <= u * X <= 1e-15 * B.
Proof.
  intros [H0 HB]. split; [apply Rmult_le_pos; lra |].
  apply Rle_trans with (1e-15 * X).
  - apply Rmult_le_compat_r; lra.
  - apply Rmult_le_compat_l; lra.
Qed.

(** The rounded result of an operation whose exact result is at most [X]
    in magnitude. *)
Lemma fl_within (x X : R) :
  Rabs x <= X -> X <= 1e301 ->
  x - (u * X + Float64.eta) <= Float64.fl A x <= x + (u * X + Float64.eta).
Proof.
  intros Hx HX. pose proof Omega_large as HO.
  pose proof (Float64.fl_error A u Hacc x ltac:(lra)) as Herr.
  assert (Hux : u * Rabs x <= u * X) by (apply Rmult_le_compat_l; lra).
  apply Rabs_bound in Herr. apply Rabs_bound in Hx. lra.
Qed.

Lemma fl_abs (x X : R) :
  Rabs x <= X -> X <= 1e301 ->
  Rabs (Float64.fl A x) <= X + (u * X + Float64.eta).
Proof.
  intros Hx HX. pose proof (fl_within x X Hx HX) as [H1 H2].
  apply Rabs_bound in Hx. apply Rabs_le. lra.
Qed.

Lemma log10_1p (v : R) : 0 <= v -> Math_log10 (1 + v) <= v.
Proof.
  intros Hv. unfold Math_log10. pose proof ln10_lower as H10.
  assert (Hln : ln (1 + v) <= v).
  { rewrite <- (ln_exp v) at 2.
    destruct (Req_dec v 0) as [-> | Hne].
    - rewrite Rplus_0_r, exp_0. lra.
    - left. apply ln_increasing; [lra |]. apply exp_ineq1. assumption. }
  assert (H0 : 0 <= ln (1 + v)).
  { rewrite <- ln_1. destruct (Req_dec v 0) as [-> | Hne].
    - rewrite Rplus_0_r. lra.
    - left. apply ln_increasing; lra. }
  apply Rle_trans with (ln (1 + v)); [| assumption].
  apply Rmult_le_reg_r with (ln 10); [lra |].
  replace (ln (1 + v) / ln 10 * ln 10) with (ln (1 + v)) by (field; lra).
  nra.
Qed.

Lemma log10_1m (r : R) : 0 <= r <= / 2 -> - (2 * r) <= Math_log10 (1 - r).
Proof.
  intros Hr.
  assert (Hinv : Math_log10 (1 - r) = - Math_log10 (/ (1 - r))).
  { unfold Math_log10. rewrite ln_Rinv by lra. field. pose proof ln10_pos. lra. }
  rewrite Hinv.
  replace (/ (1 - r)) with (1 + r / (1 - r)) by (field; lra).
  assert (Hq : 0 <= r / (1 - r) <= 2 * r).
  { split.
    - apply Rmult_le_pos; [lra |]. left. apply Rinv_0_lt_compat. lra.
    - apply Rmult_le_reg_r with (1 - r); [lra |].
      replace (r / (1 - r) * (1 - r)) with r by (field; lra). nra. }
  pose proof (log10_1p (r / (1 - r)) ltac:(lra)). lra.
Qed.

Lemma log10_smallest : Math_log10 1e-323 = -323.
Proof.
  replace 1e-323 with (/ 10 ^ 323) by lra.
  rewrite log10_inv_pow_nat, INR_IZR_INZ. vm_compute (Z.of_nat 323). reflexivity.
Qed.

(** The floored peak and the logarithm the code takes of it, against the
    [max (peak, 1e-10)] of the claim: either the two logarithms agree to
    [5e-15] (the literal [1e-10] is rounded), or the peak is under the floor
    and the claim's [peakDb] is -200. *)
Lemma peakOrFloor_rounded (pk : R) :
  0 <= pk <= 1 -> (pk = 0 \/ 1e-323 <= pk) ->
  let lam := Math_log10 (Float64.peakOrFloor A pk) in
  let peakDb := 20 * Math_log10 (Rmax pk 1e-10) in
  0 < Float64.peakOrFloor A pk
  /\ -323 <= lam <= 1e-14
  /\ -200 <= peakDb <= 0
  /\ ((-10.1 <= lam /\ peakDb - 1e-13 <= 20 * lam) \/ peakDb = -200).
Proof.
  intros Hpk Hdouble lam peakDb. subst lam peakDb.
  pose proof eta_small as Heta. pose proof eta_pos as Heta0.
  unfold Float64.peakOrFloor.
  destruct (decide (pk = 0)) as [-> | Hne].
  - (* the rounded literal *)
    rewrite Rmax_right by lra. rewrite log10_floor.
    pose proof (fl_within 1e-10 1e-10 ltac:(rewrite Rabs_pos_eq; lra) ltac:(lra))
      as [Hlo Hhi].
    set (f := Float64.fl A 1e-10) in *.
    assert (Hf : 1e-10 * (1 - 2e-15) <= f <= 1e-10 * (1 + 2e-15)) by (split; nra).
    assert (Hfpos : 0 < f) by lra.
    assert (Hlow : -10 - 4e-15 <= Math_log10 f).
    { apply Rle_trans with (Math_log10 (1e-10 * (1 - 2e-15))).
      - rewrite log10_mult by lra. rewrite log10_floor.
        pose proof (log10_1m 2e-15 ltac:(lra)). lra.
      - apply log10_le; lra. }
    assert (Hupp : Math_log10 f <= -10 + 2e-15).
    { apply Rle_trans with (Math_log10 (1e-10 * (1 + 2e-15))).
      - apply log10_le; lra.
      - rewrite log10_mult by lra. rewrite log10_floor.
        pose proof (log10_1p 2e-15 ltac:(lra)). lra. }
    repeat split; try lra; left; lra.
  - destruct Hdouble as [-> | Hmin]; [contradiction |].
    pose proof log10_smallest as H323.
    assert (Hlam : -323 <= Math_log10 pk <= 0).
    { split.
      - rewrite <- H323. apply log10_le; lra.
      - rewrite <- log10_1. apply log10_le; lra. }
    destruct (Rle_dec pk 1e-10) as [Hle | Hgt].
    + rewrite Rmax_right by lra. rewrite log10_floor.
      repeat split; try lra; right; lra.
    + rewrite Rmax_left by lra.
      assert (-10 <= Math_log10 pk).
      { rewrite <- log10_floor. apply log10_le; lra. }
      repeat split; try lra; left; lra.
Qed.

(** The cap [maxGainDB] the code computes, against the exact
    [PEAK_CEILING - 20 log10 p]: three roundings and the error of
    [Math.log10]. *)
Lemma maxGainDB_rounded (p Lam : R) :
  0 < p -> Rabs (Math_log10 p) <= Lam -> Lam <= 330 ->
  let peakDBFS := Float64.fl A (20 * Float64.Math_log10 A p) in
  let maxGainDB := Float64.fl A (PEAK_CEILING - peakDBFS) in
  Rabs (maxGainDB - (PEAK_CEILING - 20 * Math_log10 p))
  <= u * (60 * Lam + 41.5) + 22 * Float64.eta
  /\ Rabs maxGainDB <= 7000.
Proof.
  intros Hp Hlam HLam peakDBFS maxGainDB. subst maxGainDB peakDBFS.
  pose proof eta_small as Heta. pose proof eta_pos as Heta0.
  pose proof Omega_large as HO.
  assert (HLam0 : 0 <= Lam) by (pose proof (Rabs_pos (Math_log10 p)); lra).
  pose proof (small_product Lam 330 ltac:(lra)) as HuL.
  pose proof (Float64.log10_error A u Hacc p Hp ltac:(lra)) as Hlog.
  assert (Hulam : u * Rabs (Math_log10 p) <= u * Lam)
    by (apply Rmult_le_compat_l; lra).
  set (lam := Math_log10 p) in *. set (Lg := Float64.Math_log10 A p) in *.
  apply Rabs_bound in Hlog. apply Rabs_bound in Hlam.
  assert (HX1 : Rabs (20 * Lg) <= 20 * Lam + 20) by (apply Rabs_le; split; lra).
  pose proof (fl_within (20 * Lg) (20 * Lam + 20) HX1 ltac:(lra)) as HD.
  set (D := Float64.fl A (20 * Lg)) in *.
  pose proof (small_product (20 * Lam + 20) 6620 ltac:(lra)) as HuX1.
  unfold PEAK_CEILING.
  assert (HX2 : Rabs (-0.5 - D) <= 20 * Lam + 21.5) by (apply Rabs_le; split; lra).
  pose proof (fl_within (-0.5 - D) (20 * Lam + 21.5) HX2 ltac:(lra)) as HM.
  set (M := Float64.fl A (-0.5 - D)) in *.
  pose proof (small_product (20 * Lam + 21.5) 6621.5 ltac:(lra)) as HuX2.
  split; apply Rabs_le; split; lra.
Qed.

(** From decibels back to the linear scale. *)
Lemma ceiling_linear (gain c B : R) :
  0 <= gain -> 0 < c ->
  (0 < gain -> 20 * Math_log10 c + 20 * Math_log10 gain <= B) ->
  gain * c <= Math_pow 10 (B / 20).
Proof.
  intros Hg Hc Hdb. pose proof (pow10_pos (B / 20)) as Hpos.
  destruct Hg as [Hg | <-]; [| lra].
  rewrite <- (pow10_log10 (gain * c)) by nra.
  apply pow10_le. rewrite log10_mult by assumption.
  specialize (Hdb Hg). lra.
Qed.

(** The gain in dB that reaches [Math.pow]: at most the cap. *)
Lemma cappedGainDB_rounded (target l pk Lam : R) :
  0 < Float64.peakOrFloor A pk ->
  Rabs (Math_log10 (Float64.peakOrFloor A pk)) <= Lam -> Lam <= 330 ->
  Rabs target <= 1e300 -> Rabs l <= 1e300 ->
  let g := Float64.cappedGainDB A target {| lufs := Finite l; peak := pk |} l in
  g <= PEAK_CEILING - 20 * Math_log10 (Float64.peakOrFloor A pk)
       + (u * (60 * Lam + 41.5) + 22 * Float64.eta)
  /\ Rabs g <= 3e300.
Proof.
  intros Hp Hlam HLam Ht Hl g. subst g.
  pose proof eta_small as Heta. pose proof eta_pos as Heta0.
  unfold Float64.cappedGainDB. cbn [peak]. cbv zeta.
  destruct (maxGainDB_rounded (Float64.peakOrFloor A pk) Lam Hp Hlam HLam)
    as [HM HMabs].
  cbv zeta in HM, HMabs.
  set (M := Float64.fl A (PEAK_CEILING - _)) in *.
  assert (Htl : Rabs (target - l) <= 2e300).
  { apply Rabs_bound in Ht. apply Rabs_bound in Hl. apply Rabs_le. split; lra. }
  pose proof (fl_abs (target - l) 2e300 Htl ltac:(lra)) as HG.
  set (G0 := Float64.fl A (target - l)) in *.
  pose proof (small_product 2e300 2e300 ltac:(lra)) as HuG.
  apply Rabs_bound in HM.
  destruct (decide (G0 > M)) as [Hgt | Hle].
  - split; [lra |]. lra.
  - split; [lra |]. lra.
Qed.

Lemma pow10_int (n : nat) : Math_pow 10 (- INR n) = / 10 ^ n.
Proof. rewrite pow10_neg, pow10_nat. reflexivity. Qed.

(** [10^(361/300) <= 15.99], because [10^361 < 15.99^300]. *)
Lemma pow10_upper : Math_pow 10 (361 / 300) <= 15.99.
Proof.
  destruct (Rle_dec (Math_pow 10 (361 / 300)) 15.99) as [Hle | Hgt]; [assumption |].
  exfalso. apply Rnot_le_lt in Hgt.
  assert (Hpow : Math_pow 10 (361 / 300) ^ 300 = 10 ^ 361).
  { unfold Math_pow. rewrite <- Rpower_pow by apply exp_pos.
    rewrite Rpower_mult. replace (361 / 300 * INR 300) with (INR 361).
    - apply Rpower_pow. lra.
    - rewrite !INR_IZR_INZ. vm_compute (Z.of_nat 300). vm_compute (Z.of_nat 361).
      lra. }
  assert (Hle : 15.99 ^ 300 <= Math_pow 10 (361 / 300) ^ 300)
    by (apply pow_incr; lra).
  rewrite Hpow in Hle.
  assert (Hz : 10 ^ 361 * 100 ^ 300 < 1599 ^ 300).
  { rewrite !pow_IZR, <- mult_IZR. apply IZR_lt. apply Z.ltb_lt.
    vm_compute. reflexivity. }
  assert (Hsplit : 1599 ^ 300 = 15.99 ^ 300 * 100 ^ 300).
  { rewrite <- Rpow_mult_distr. f_equal. lra. }
  assert (H100 : 0 < 100 ^ 300) by (apply pow_lt; lra).
  rewrite Hsplit in Hz. apply Rmult_lt_reg_r in Hz; [lra | assumption].
Qed.

(** The last step, [Math.pow(10, gainDB / 20)]: the gain it returns, and
    that gain in dB against [gainDB]. *)
Lemma pow_stage (g : R) :
  g <= 24 -> Rabs g <= 3e300 ->
  let gain := Float64.Math_pow A 10 (Float64.fl A (g / 20)) in
  0 <= gain <= 16
  /\ (0 < gain ->
      (g < -100 -> 20 * Math_log10 gain <= -60)
      /\ (-100 <= g -> 20 * Math_log10 gain <= g + 120 * u + 1e-300))
  /\ (-6020 <= g -> 0 < gain).
Proof.
  intros Hg24 Hgabs gain. subst gain.
  pose proof eta_small as Heta. pose proof eta_pos as Heta0.
  pose proof Omega_large as HO.
  apply Rabs_bound in Hgabs.
  set (y := Float64.fl A (g / 20)).
  (* the exponent *)
  assert (Hy : y <= 361 / 300
               /\ (g < -100 -> y <= -4)
               /\ (-100 <= g -> -6 <= y /\ y <= g / 20 + (5 * u + Float64.eta))
               /\ (-6020 <= g -> -302 <= y)).
  { destruct (Rlt_dec g (-100)) as [Hlow | Hhigh].
    - assert (Habs : Rabs (g / 20) <= - g / 20)
        by (rewrite Rabs_left by lra; lra).
      pose proof (fl_within (g / 20) (- g / 20) Habs ltac:(lra)) as [Hdown Hup].
      fold y in Hup, Hdown.
      assert (u * (- g / 20) <= 1e-15 * (- g / 20))
        by (apply Rmult_le_compat_r; lra).
      repeat split; intros; lra.
    - assert (Habs : Rabs (g / 20) <= 5) by (apply Rabs_le; split; lra).
      pose proof (fl_within (g / 20) 5 Habs ltac:(lra)) as [Hdown Hup].
      fold y in Hup, Hdown.
      repeat split; intros; lra. }
  destruct Hy as (Hy1 & Hylow & Hyhigh & Hypos).
  set (P := Math_pow 10 y).
  assert (HP0 : 0 < P) by apply pow10_pos.
  assert (HP16 : P <= 15.99).
  { apply Rle_trans with (Math_pow 10 (361 / 300));
      [now apply pow10_le | apply pow10_upper]. }
  pose proof (Float64.pow_error A u Hacc y ltac:(fold P; lra)) as Herr.
  fold P in Herr. apply Rabs_bound in Herr.
  pose proof (Float64.pow_nonneg A u Hacc y) as Hnonneg.
  set (gain := Float64.Math_pow A 10 y) in *.
  assert (HuP : 0 <= u * P <= 1e-15 * P)
    by (split; [apply Rmult_le_pos; lra | apply Rmult_le_compat_r; lra]).
  split; [split; [assumption | lra] |]. split.
  - intros Hgain. split.
    + (* far below: the gain is under 1e-3 *)
      intros Hlow. specialize (Hylow Hlow).
      assert (HP4 : P <= 1e-4).
      { apply Rle_trans with (Math_pow 10 (- INR 4)).
        - apply pow10_le. simpl. lra.
        - rewrite pow10_int. lra. }
      assert (H3 : Math_log10 1e-3 = -3).
      { replace 1e-3 with (/ 10 ^ 3) by lra.
        rewrite log10_inv_pow_nat. simpl. lra. }
      assert (Math_log10 gain <= Math_log10 1e-3) by (apply log10_le; lra).
      lra.
    + intros Hhigh. destruct (Hyhigh Hhigh) as [Hy6 Hyup].
      assert (HP6 : 1e-6 <= P).
      { apply Rle_trans with (Math_pow 10 (- INR 6)).
        - rewrite pow10_int. lra.
        - apply pow10_le. simpl. lra. }
      assert (Hrel : gain <= P * (1 + (u + 1e-314))).
      { replace (P * (1 + (u + 1e-314))) with (P + u * P + 1e-314 * P) by ring.
        lra. }
      assert (Hlog : Math_log10 gain <= y + (u + 1e-314)).
      { apply Rle_trans with (Math_log10 (P * (1 + (u + 1e-314)))).
        - apply log10_le; assumption.
        - rewrite log10_mult by lra. unfold P. rewrite log10_pow10.
          pose proof (log10_1p (u + 1e-314) ltac:(lra)). lra. }
      lra.
  - intros Hpos. specialize (Hypos Hpos).
    assert (HP302 : 1e-302 <= P).
    { apply Rle_trans with (Math_pow 10 (- INR 302)).
      - rewrite pow10_int. lra.
      - apply pow10_le. rewrite INR_IZR_INZ. vm_compute (Z.of_nat 302). lra. }
    lra.
Qed.

(** C1, amended.  In double arithmetic accurate to [u <= 1e-15], for a
    cached measurement with finite loudness and a peak in [0, 1] (0 or at
    least [1e-323], as every double is), and a target and a loudness of
    magnitude at most [1e300], the gain returned by [computeGain] is not
    negative and keeps the measured peak under the ceiling up to rounding:
    [peakDb + gainDb <= PEAK_CEILING + 1e-12], where
    [peakDb = 20 log10 (max peak 1e-10)] and [gainDb = 20 log10 gain] (for a
    gain that did not underflow to 0); on the linear scale, the peak after
    the gain is at most [10^((PEAK_CEILING + 1e-12) / 20)]. *)
Theorem computeGain_respects_peak_ceiling
        (s : State) (trackId : string) (l pk : R) :
  _cache s !! trackId = Some {| lufs := Finite l; peak := pk |} ->
  0 <= pk <= 1 -> (pk = 0 \/ 1e-323 <= pk) ->
  Rabs (_target s) <= 1e300 -> Rabs l <= 1e300 ->
  let gain := Float64.computeGain A s trackId in
  let peakDb := 20 * Math_log10 (Rmax pk 1e-10) in
  0 <= gain
  /\ (0 < gain -> peakDb + 20 * Math_log10 gain <= PEAK_CEILING + 1e-12)
  /\ gain * Rmax pk 1e-10 <= Math_pow 10 ((PEAK_CEILING + 1e-12) / 20).
Proof.
  intros Hc Hpk Hdouble Ht Hl gain peakDb.
  pose proof eta_small as Heta. pose proof eta_pos as Heta0.
  assert (Hmain : 0 <= gain
                  /\ (0 < gain ->
                      peakDb + 20 * Math_log10 gain <= PEAK_CEILING + 1e-12)).
  { subst gain peakDb. unfold Float64.computeGain. rewrite Hc. cbn [lufs]. cbv zeta.
    destruct (peakOrFloor_rounded pk Hpk Hdouble) as (Hp & Hlam & HPc & Hcase).
    cbv zeta in Hlam, HPc, Hcase.
    set (lam := Math_log10 (Float64.peakOrFloor A pk)) in *.
    set (peakDb := 20 * Math_log10 (Rmax pk 1e-10)) in *.
    set (g := Float64.cappedGainDB A (_target s) _ l).
    unfold PEAK_CEILING.
    (* how tight the cap is depends on the size of the logarithm *)
    assert (Hg : Rabs g <= 3e300
                 /\ ((-10.1 <= lam /\ peakDb - 1e-13 <= 20 * lam
                      /\ g <= -0.5 - 20 * lam + (u * 647.5 + 22 * Float64.eta))
                     \/ peakDb = -200)).
    { destruct Hcase as [[Hl10 Hclose] | Hfloor].
      - destruct (cappedGainDB_rounded (_target s) l pk 10.1 Hp
                    ltac:(apply Rabs_le; fold lam; split; lra) ltac:(lra) Ht Hl)
          as [Hcap Habs].
        cbv zeta in Hcap, Habs. fold g lam in Hcap, Habs.
        unfold PEAK_CEILING in Hcap.
        split; [assumption |]. left. repeat split; try assumption.
        replace (60 * 10.1 + 41.5) with 647.5 in Hcap by lra. lra.
      - destruct (cappedGainDB_rounded (_target s) l pk 330 Hp
                    ltac:(apply Rabs_le; fold lam; split; lra) ltac:(lra) Ht Hl)
          as [_ Habs].
        cbv zeta in Habs. fold g in Habs.
        split; [assumption |]. now right. }
    destruct Hg as [Hgabs Hg].
    assert (Hu647 : 0 <= u * 647.5 <= 6.475e-13) by (split; lra).
    destruct (decide (g > 24)) as [Hbig | Hsmall].
    - (* the 24 dB guard returns unity *)
      rewrite unity_is_1, log10_1. split; [lra |]. intros _.
      destruct Hg as [(Hl10 & Hclose & Hcap) | Hfloor]; lra.
    - destruct (pow_stage g ltac:(lra) Hgabs) as ([Hnonneg _] & Hdb & _).
      cbv zeta in Hnonneg, Hdb.
      split; [assumption |]. intros Hpos.
      destruct (Hdb Hpos) as [Hlow Hhigh].
      destruct (Rlt_dec g (-100)) as [Hfar | Hnear].
      + specialize (Hlow Hfar). lra.
      + specialize (Hhigh ltac:(lra)).
        destruct Hg as [(Hl10 & Hclose & Hcap) | Hfloor]; lra. }
  destruct Hmain as [Hnonneg Hdb].
  split; [assumption |]. split; [assumption |].
  apply ceiling_linear; [assumption | | assumption].
  apply Rlt_le_trans with 1e-10; [lra | apply Rmax_r].
Qed.

(** The logarithm of the floored peak, for any peak that is a double. *)
Lemma peakOrFloor_log_bounded (pk : R) :
  pk = 0 \/ 1e-323 <= pk <= 1e300 ->
  0 < Float64.peakOrFloor A pk
  /\ Rabs (Math_log10 (Float64.peakOrFloor A pk)) <= 330
  /\ (pk <= 1 -> Math_log10 (Float64.peakOrFloor A pk) <= 1e-14).
Proof.
  intros Hpk.
  pose proof log10_smallest as H323.
  assert (H300 : Math_log10 1e300 = 300).
  { replace 1e300 with (10 ^ 300) by lra. rewrite log10_pow_nat.
    rewrite INR_IZR_INZ. vm_compute (Z.of_nat 300). reflexivity. }
  destruct Hpk as [-> | Hrange].
  - destruct (peakOrFloor_rounded 0 ltac:(lra) ltac:(now left))
      as (Hp & Hlam & _ & _).
    cbv zeta in Hlam. split; [assumption |].
    split; [apply Rabs_le; split; lra | intros _; lra].
  - unfold Float64.peakOrFloor. destruct (decide (pk = 0)) as [-> | _]; [lra |].
    split; [lra |].
    assert (Hlo : -323 <= Math_log10 pk) by (rewrite <- H323; apply log10_le; lra).
    assert (Hhi : Math_log10 pk <= 300) by (rewrite <- H300; apply log10_le; lra).
    split; [apply Rabs_le; split; lra |].
    intros H1. apply Rle_trans with (Math_log10 1); [apply log10_le; lra |].
    rewrite log10_1. lra.
Qed.

(** In double arithmetic accurate to [u <= 1e-15], whatever is cached and
    whatever the target (magnitudes up to 1e300, a peak that is 0 or between
    1e-323 and 1e300), [computeGain] returns a gain between 0 and 16: 24 dB is
    a factor of about 15.85.  The gain is 0 only by underflow of
    [Math.pow]: it is positive when the track is not cached, or silent, or
    when its peak is at most 1 and the target is at most 6000 dB under its
    loudness. *)
Theorem computeGain_bounds (s : State) (trackId : string) :
  Rabs (_target s) <= 1e300 ->
  (forall data l,
      _cache s !! trackId = Some data -> lufs data = Finite l ->
      Rabs l <= 1e300 /\ (peak data = 0 \/ 1e-323 <= peak data <= 1e300)) ->
  0 <= Float64.computeGain A s trackId <= 16
  /\ ((forall data l,
         _cache s !! trackId = Some data -> lufs data = Finite l ->
         peak data <= 1 /\ -6000 <= _target s - l) ->
      0 < Float64.computeGain A s trackId).
Proof.
  intros Ht Hdata. unfold Float64.computeGain.
  pose proof eta_small as Heta. pose proof eta_pos as Heta0.
  destruct (_cache s !! trackId) as [data |] eqn:Hc; [| split; [lra | intros _; lra]].
  destruct (lufs data) as [| l] eqn:Hl; [split; [lra | intros _; lra] |].
  destruct (Hdata data l eq_refl Hl) as [Hlabs Hpk]. cbv zeta.
  destruct (peakOrFloor_log_bounded (peak data) Hpk) as (Hp & Hlam & Hlam1).
  destruct data as [lo pk]. cbn [lufs peak] in *. subst lo.
  destruct (cappedGainDB_rounded (_target s) l pk 330 Hp Hlam ltac:(lra) Ht Hlabs)
    as [_ Hgabs].
  cbv zeta in Hgabs.
  set (g := Float64.cappedGainDB A (_target s) _ l) in *.
  destruct (decide (g > 24)) as [Hbig | Hsmall]; [split; [lra | intros _; lra] |].
  destruct (pow_stage g ltac:(lra) Hgabs) as (Hrange & _ & Hpos).
  cbv zeta in Hrange, Hpos.
  split; [exact Hrange |].
  intros Hquiet. destruct (Hquiet _ l eq_refl eq_refl) as [Hpk1 Hgap].
  apply Hpos. specialize (Hlam1 Hpk1). subst g.
  (* neither the requested gain nor the cap is under -6020 dB *)
  unfold Float64.cappedGainDB. cbn [peak]. cbv zeta.
  destruct (maxGainDB_rounded (Float64.peakOrFloor A pk) 330 Hp Hlam ltac:(lra))
    as [HM _].
  cbv zeta in HM. apply Rabs_bound in HM. unfold PEAK_CEILING in *.
  set (M := Float64.fl A (-0.5 - _)) in *.
  assert (HG : -6010 <= Float64.fl A (_target s - l)).
  { destruct (Rle_dec 0 (_target s - l)) as [Hnonneg | Hneg].
    - assert (Habs : Rabs (_target s - l) <= _target s - l)
        by (rewrite Rabs_pos_eq; lra).
      apply Rabs_bound in Ht. apply Rabs_bound in Hlabs.
      pose proof (fl_within _ _ Habs ltac:(lra)) as [Hdown _].
      assert (u * (_target s - l) <= 1e-15 * (_target s - l))
        by (apply Rmult_le_compat_r; lra).
      lra.
    - assert (Habs : Rabs (_target s - l) <= 6000)
        by (apply Rabs_le; split; lra).
      pose proof (fl_within _ _ Habs ltac:(lra)) as [Hdown _]. lra. }
  assert (Hu330 : 0 <= u * (60 * 330 + 41.5) <= 1e-10) by (split; lra).
  destruct (decide (_ > M)); lra.
Qed.

End RoundedGain.

(** ** The gain computation in binary64 *)

Section GainInBinary64.
Local Open Scope R_scope.
Local Abbreviation bpow := Float64.bpow.
Local Abbreviation round64 := Float64.round64.

(** A normal double is not rounded. *)
Lemma round64_representable (z e : Z) :
  (-1074 <= e)%Z -> (2 ^ 52 <= Z.abs z < 2 ^ 53)%Z ->
  round64 (IZR z * bpow e) = IZR z * bpow e.
Proof.
  intros He [Hlo Hhi]. pose proof (bpow_pos e) as Hb.
  apply (roundTo_eval 53 (-1074)); [assumption | |].
  - rewrite Rabs_mult, (Rabs_pos_eq (bpow e)), <- abs_IZR by lra.
    rewrite !bpow_add, (bpow_IZR (53 - 1)), (bpow_IZR 53) by lia.
    rewrite !(Rmult_comm (bpow e)). split.
    + apply Rmult_le_compat_r; [lra |]. now apply IZR_le.
    + apply Rmult_lt_compat_r; [lra |]. now apply IZR_lt.
  - rewrite Rmult_assoc, (Rmult_comm (bpow e)), bpow_cancel, Rmult_1_r.
    rewrite Rminus_diag, Rabs_R0. lra.
Qed.

Lemma Zratio_lt (a b c d : Z) :
  (0 < b)%Z -> (0 < d)%Z -> (a * d < c * b)%Z -> IZR a / IZR b < IZR c / IZR d.
Proof.
  intros Hb Hd H. apply IZR_lt in Hb, Hd, H. rewrite !mult_IZR in H.
  apply Rmult_lt_reg_r with (IZR b * IZR d); [nra |].
  replace (IZR a / IZR b * (IZR b * IZR d)) with (IZR a * IZR d) by (field; lra).
  replace (IZR c / IZR d * (IZR b * IZR d)) with (IZR c * IZR b) by (field; lra).
  assumption.
Qed.

Lemma pow_ratio (a b : Z) (n : nat) :
  (0 < b)%Z -> (IZR a / IZR b) ^ n = IZR (a ^ Z.of_nat n) / IZR (b ^ Z.of_nat n).
Proof.
  intros Hb. unfold Rdiv. rewrite Rpow_mult_distr, pow_inv, !pow_IZR. reflexivity.
Qed.

(** [10^(-1/40)], the ceiling of -0.5 dB on the linear scale, against a
    positive number whose 40th power is known. *)
Lemma fortieth_power : Math_pow 10 (- / 40) ^ 40 = / 10.
Proof.
  unfold Math_pow. rewrite <- Rpower_pow by apply exp_pos.
  rewrite Rpower_mult. replace (- / 40 * INR 40) with (- (1)).
  - rewrite Rpower_Ropp, Rpower_1; lra.
  - rewrite INR_IZR_INZ. vm_compute (Z.of_nat 40). lra.
Qed.

Lemma below_ceiling (r : R) : 0 <= r -> r ^ 40 < / 10 -> r < Math_pow 10 (- / 40).
Proof.
  intros Hr Hpow. apply Rnot_le_lt. intros Hle.
  pose proof (pow10_pos (- / 40)) as Hpos.
  assert (Math_pow 10 (- / 40) ^ 40 <= r ^ 40) by (apply pow_incr; lra).
  rewrite fortieth_power in H. lra.
Qed.

Lemma above_ceiling (r : R) : / 10 < r ^ 40 -> 0 <= r -> Math_pow 10 (- / 40) < r.
Proof.
  intros Hpow Hr. apply Rnot_le_lt. intros Hle.
  assert (r ^ 40 <= Math_pow 10 (- / 40) ^ 40) by (apply pow_incr; lra).
  rewrite fortieth_power in H. lra.
Qed.

Lemma bpow_neg (k : Z) : (0 <= k)%Z -> bpow (- k) = / IZR (2 ^ k).
Proof. intros Hk. rewrite bpow_opp, bpow_IZR by assumption. reflexivity. Qed.

Lemma ln10_upper : ln 10 <= 9.
Proof.
  rewrite <- (ln_exp 9). pose proof (exp_ineq1_le 9) as H.
  destruct H as [H | H].
  - left. apply ln_increasing; lra.
  - right. f_equal. lra.
Qed.

(** [10^(-d) >= 1 - 9 d] *)
Lemma pow10_just_below_1 (d : R) : 0 <= d -> 1 - 9 * d <= Math_pow 10 (- d) <= 1.
Proof.
  intros Hd. split.
  - unfold Math_pow, Rpower. pose proof (exp_ineq1_le (- d * ln 10)) as H.
    pose proof ln10_upper. pose proof ln10_pos. nra.
  - apply Rle_trans with (Math_pow 10 0); [apply pow10_le; lra |].
    right. unfold Math_pow. apply Rpower_O. lra.
Qed.

Lemma round64_0 : round64 0 = 0.
Proof. apply roundTo_0. Qed.

Lemma round64_IZR (n : Z) : (Z.abs n <= 2 ^ 53)%Z -> round64 (IZR n) = IZR n.
Proof. intros Hn. apply roundTo_IZR; lia. Qed.

(** The roundings of the run on [fullScale]. *)
Lemma round64_minus_half : round64 (-0.5) = -0.5.
Proof.
  replace (-0.5) with (IZR (- 2 ^ 52) * bpow (- (53))).
  - apply round64_representable; [lia |]. vm_compute. split; [discriminate | reflexivity].
  - rewrite bpow_neg by lia. vm_compute (2 ^ 53)%Z. vm_compute (- 2 ^ 52)%Z. lra.
Qed.

Lemma round64_fortieth :
  round64 (-0.5 / 20) = IZR (-7205759403792794) * bpow (- (58)).
Proof.
  apply (roundTo_eval 53 (-1074)); [lia | |].
  - rewrite Rabs_left by lra.
    change (-(58) + (53 - 1))%Z with (- (6))%Z. change (-(58) + 53)%Z with (- (5))%Z.
    rewrite !bpow_neg by lia. vm_compute (2 ^ 6)%Z. vm_compute (2 ^ 5)%Z. lra.
  - rewrite Z.opp_involutive, (bpow_IZR 58) by lia. vm_compute (2 ^ 58)%Z.
    apply Rabs_def1; lra.
Qed.

(** [Math.pow(10, -0.025)] is the double [0.9440608762859234]. *)
Lemma round64_pow_fortieth :
  round64 (Math_pow 10 (IZR (-7205759403792794) * bpow (- (58))))
  = IZR 8503344421312697 * bpow (- (53)).
Proof.
  set (x := Math_pow 10 _).
  assert (Hx : IZR 17006688842625393 / IZR (2 ^ 54) < x
               < IZR 17006688842625395 / IZR (2 ^ 54)).
  { subst x.
    replace (IZR (-7205759403792794) * bpow (- (58)))
      with (- / 40 + - / IZR (5 * 2 ^ 57))
      by (rewrite bpow_neg by lia; vm_compute (2 ^ 58)%Z;
          vm_compute (5 * 2 ^ 57)%Z; lra).
    unfold Math_pow. rewrite Rpower_plus. fold (Math_pow 10 (- / 40)).
    fold (Math_pow 10 (- / IZR (5 * 2 ^ 57))).
    pose proof (pow10_just_below_1 (/ IZR (5 * 2 ^ 57))
                  ltac:(vm_compute (5 * 2 ^ 57)%Z; lra)) as [Hd1 Hd2].
    pose proof (pow10_pos (- / 40)) as HP.
    assert (Hhi : Math_pow 10 (- / 40) < IZR 17006688842625395 / IZR (2 ^ 54)).
    { apply above_ceiling.
      - rewrite pow_ratio by reflexivity.
        replace (/ 10) with (IZR 1 / IZR 10) by lra.
        apply Zratio_lt; [reflexivity | reflexivity |].
        apply Z.ltb_lt. vm_compute. reflexivity.
      - vm_compute (2 ^ 54)%Z. lra. }
    assert (Hlo : IZR 94406087628592336 / IZR (10 ^ 17) < Math_pow 10 (- / 40)).
    { apply below_ceiling.
      - vm_compute (10 ^ 17)%Z. lra.
      - rewrite pow_ratio by reflexivity.
        replace (/ 10) with (IZR 1 / IZR 10) by lra.
        apply Zratio_lt; [reflexivity | reflexivity |].
        apply Z.ltb_lt. vm_compute. reflexivity. }
    set (P := Math_pow 10 (- / 40)) in *.
    set (Q := Math_pow 10 (- / IZR (5 * 2 ^ 57))) in *.
    vm_compute (5 * 2 ^ 57)%Z in Hd1. vm_compute (10 ^ 17)%Z in Hlo.
    vm_compute (2 ^ 54)%Z in Hhi. vm_compute (2 ^ 54)%Z.
    split.
    - apply Rlt_le_trans with (P * (1 - 9 * / 720575940379279360)); [lra |].
      apply Rmult_le_compat_l; lra.
    - apply Rle_lt_trans with (P * 1); [| lra].
      apply Rmult_le_compat_l; lra. }
  vm_compute (2 ^ 54)%Z in Hx. destruct Hx as [Hx1 Hx2].
  apply (roundTo_eval 53 (-1074)); [lia | |].
  - rewrite Rabs_pos_eq by lra.
    change (-(53) + (53 - 1))%Z with (- (1))%Z. change (-(53) + 53)%Z with 0%Z.
    rewrite bpow_neg by lia. rewrite bpow_0. vm_compute (2 ^ 1)%Z. lra.
  - rewrite Z.opp_involutive, (bpow_IZR 53) by lia. vm_compute (2 ^ 53)%Z.
    apply Rabs_def1; lra.
Qed.

(** What [computeGain] returns in binary64 for the full-scale track: the
    cap of -0.5 dB applies, and [Math.pow(10, -0.5 / 20)] is the double
    [0.9440608762859234]. *)
Lemma computeGain_fullScale :
  Float64.computeGain Float64.binary64 fullScale "t"
  = IZR 8503344421312697 * bpow (- (53)).
Proof.
  unfold Float64.computeGain.
  replace (_cache fullScale !! "t")
    with (Some {| lufs := Finite (-20); peak := 1 |}) by reflexivity.
  cbn [lufs]. cbv zeta.
  assert (Hcap : Float64.cappedGainDB Float64.binary64 (_target fullScale)
                   {| lufs := Finite (-20); peak := 1 |} (-20) = -0.5).
  { unfold Float64.cappedGainDB, Float64.peakOrFloor. cbn [peak]. cbv zeta.
    destruct (decide (1 = 0)) as [H | _]; [lra |].
    cbn [Float64.fl Float64.Math_log10 Float64.binary64].
    rewrite log10_1, round64_0, Rmult_0_r, round64_0.
    unfold PEAK_CEILING. rewrite Rminus_0_r, round64_minus_half.
    replace (_target fullScale - -20) with (IZR 6)
      by (unfold fullScale, initial, DEFAULT_TARGET; cbn; lra).
    rewrite round64_IZR by lia.
    destruct (decide (6 > -0.5)); lra. }
  rewrite Hcap.
  destruct (decide (-0.5 > 24)) as [H | _]; [lra |].
  cbn [Float64.fl Float64.Math_pow Float64.binary64].
  rewrite round64_fortieth. apply round64_pow_fortieth.
Qed.

(** C1 as stated fails on the doubles of the code.  For a full-scale track
    (peak 1) at -20 LUFS and the default target, [computeGain] returns the
    double [0.9440608762859234], which is above [10^(-0.5/20)]:
    [peakDb + gainDb] exceeds [PEAK_CEILING] (by about 8e-17 dB). *)
Lemma computeGain_exceeds_ceiling :
  _cache fullScale !! "t" = Some {| lufs := Finite (-20); peak := 1 |}
  /\ 0 <= 1 <= 1
  /\ ~ (20 * Math_log10 (Rmax 1 1e-10)
        + 20 * Math_log10 (Float64.computeGain Float64.binary64 fullScale "t")
        <= PEAK_CEILING).
Proof.
  split; [reflexivity |]. split; [lra |].
  rewrite computeGain_fullScale, Rmax_left by lra. rewrite log10_1.
  unfold PEAK_CEILING. intros Hle.
  assert (Hg : Math_pow 10 (- / 40) < IZR 8503344421312697 * bpow (- (53))).
  { rewrite bpow_neg by lia. fold (IZR 8503344421312697 / IZR (2 ^ 53)).
    apply above_ceiling.
    - rewrite pow_ratio by reflexivity.
      replace (/ 10) with (IZR 1 / IZR 10) by lra.
      apply Zratio_lt; [reflexivity | reflexivity |].
      apply Z.ltb_lt. vm_compute. reflexivity.
    - vm_compute (2 ^ 53)%Z. lra. }
  apply (log10_lt _ _ (pow10_pos _)) in Hg. rewrite log10_pow10 in Hg. lra.
Qed.

Lemma computeGain_respects_peak_ceiling_witness :
  let gain := Float64.computeGain Float64.binary64 fullScale "t" in
  0 <= gain
  /\ (0 < gain ->
      20 * Math_log10 (Rmax 1 1e-10) + 20 * Math_log10 gain <= PEAK_CEILING + 1e-12)
  /\ gain * Rmax 1 1e-10 <= Math_pow 10 ((PEAK_CEILING + 1e-12) / 20).
Proof.
  apply (computeGain_respects_peak_ceiling Float64.binary64 (bpow (-53))
           binary64_accurate u64_small fullScale "t" (-20) 1).
  - reflexivity.
  - lra.
  - right. lra.
  - change (Rabs (-14) <= 1e300). rewrite Rabs_left; lra.
  - rewrite Rabs_left; lra.
Defined.

Lemma computeGain_bounds_witness :
  0 < Float64.computeGain Float64.binary64 threeTracks "loud" <= 16.
Proof.
  assert (Hcache : forall data l,
             _cache threeTracks !! "loud" = Some data -> lufs data = Finite l ->
             data = {| lufs := Finite (-34); peak := 0.01 |} /\ l = -34).
  { intros data l Hc Hl.
    change (Some {| lufs := Finite (-34); peak := 0.01 |} = Some data) in Hc.
    injection Hc as <-. cbn in Hl. injection Hl as <-. now split. }
  destruct (computeGain_bounds Float64.binary64 (bpow (-53))
              binary64_accurate u64_small threeTracks "loud")
    as [[H0 H16] Hpos].
  - change (Rabs (-14) <= 1e300). rewrite Rabs_left; lra.
  - intros data l Hc Hl. destruct (Hcache data l Hc Hl) as [-> ->]. cbn [peak].
    split; [rewrite Rabs_left; lra | right; lra].
  - split; [| assumption]. apply Hpos.
    intros data l Hc Hl. destruct (Hcache data l Hc Hl) as [-> ->]. cbn [peak].
    change (_target threeTracks) with (-14). split; lra.
Defined.

End GainInBinary64.

(** ** Durations in doubles *)

Section RoundedDurations.
Local Open Scope R_scope.
Context (A : Float64.Arith).
Hypothesis Hacc : Float64.Accurate A (Float64.bpow (-53)).

(** The quotient [seconds / 60] of a whole number of seconds under [2^53]
    is rounded, but never across a whole number: flooring it gives the
    minutes. *)
Lemma floor_rounded_quotient (n : Z) :
  (0 < n < 2 ^ 53)%Z -> Zfloor (Float64.fl A (IZR n / 60)) = (n / 60)%Z.
Proof.
  intros [Hn0 Hn53].
  pose proof (Z.div_mod n 60 ltac:(lia)) as Hdm.
  pose proof (Z.mod_pos_bound n 60 ltac:(lia)) as [Hr0 Hr60].
  assert (Hq0 : (0 <= n / 60)%Z) by (apply Z.div_pos; lia).
  assert (Hq53 : (n / 60 <= 2 ^ 53)%Z).
  { apply Z.le_trans with n; [| lia]. apply Z.div_le_upper_bound; lia. }
  assert (HX : IZR n = 60 * IZR (n / 60) + IZR (n mod 60)).
  { rewrite Hdm at 1. rewrite plus_IZR, mult_IZR. reflexivity. }
  destruct (Z.eq_dec (n mod 60)%Z 0%Z) as [Hr | Hr].
  - (* whole minutes: the quotient is an integer and is not rounded *)
    rewrite Hr, Rplus_0_r in HX.
    replace (IZR n / 60) with (IZR (n / 60)) by lra.
    rewrite (Float64.fl_integer A _ Hacc) by lia. apply ZfloorZ.
  - apply Zfloor_eq.
    pose proof eta_small as Heta. pose proof eta_pos as Heta0.
    pose proof Omega_large as HO.
    assert (Hn53' : IZR n <= IZR (2 ^ 53 - 1)) by (apply IZR_le; lia).
    vm_compute (2 ^ 53 - 1)%Z in Hn53'.
    assert (Hn0' : 1 <= IZR n) by (apply IZR_le; lia).
    assert (Hr1 : 1 <= IZR (n mod 60) <= 59) by (split; apply IZR_le; lia).
    assert (Hq0' : 0 <= IZR (n / 60)) by (now apply IZR_le).
    pose proof (Float64.fl_error A _ Hacc (IZR n / 60)
                  ltac:(rewrite Rabs_pos_eq; lra)) as Herr.
    rewrite (Rabs_pos_eq (IZR n / 60)) in Herr by lra.
    replace (Float64.bpow (-53)) with (/ IZR (2 ^ 53)) in Herr
      by (symmetry; apply (bpow_neg 53); lia).
    vm_compute (2 ^ 53)%Z in Herr.
    apply Rabs_bound in Herr. split; lra.
Qed.

Lemma formatDuration_whole_seconds (n : Z) :
  (0 < n < 2 ^ 53)%Z ->
  Float64.formatDuration A (Number (IZR n))
  = pretty (n / 60)%Z +:+ ":" +:+ twoDigits (n mod 60)
  /\ String.length (twoDigits (n mod 60)) = 2%nat
  /\ (0 <= n mod 60 < 60)%Z
  /\ (60 * (n / 60) + n mod 60 = n)%Z.
Proof.
  intros Hn. unfold Float64.formatDuration.
  assert (Hpos : 0 < IZR n) by (apply IZR_lt; lia).
  destruct (decide (IZR n = 0)) as [H0 | _]; [lra |].
  cbv zeta. unfold Math_floor.
  rewrite floor_rounded_quotient, remainder_60, ZfloorZ by assumption.
  pose proof (Z.mod_pos_bound n 60 ltac:(lia)) as Hmod.
  destruct (padStart_twoDigits (n mod 60) Hmod) as (-> & Hlen & _).
  repeat split; try assumption; try lia.
  pose proof (Z.div_mod n 60 ltac:(lia)). lia.
Qed.

(** In IEEE arithmetic, for a whole number [n] of seconds with
    [0 < n < 2^53], [formatDuration] prints [n div 60], a colon, and
    [n mod 60] in exactly two digits. *)
Theorem formatDuration_positive (n : Z) :
  (0 < n < 2 ^ 53)%Z ->
  Float64.formatDuration A (Number (IZR n))
  = pretty (n / 60)%Z +:+ ":" +:+ twoDigits (n mod 60)
  /\ String.length (twoDigits (n mod 60)) = 2%nat
  /\ (0 <= n mod 60 < 60)%Z
  /\ (60 * (n / 60) + n mod 60 = n)%Z.
Proof. exact (formatDuration_whole_seconds n). Qed.

End RoundedDurations.

Section DurationsInBinary64.

Lemma formatDuration_positive_witness :
  Float64.formatDuration Float64.binary64 (Number (IZR 185)) = "3:05".
Proof.
  destruct (formatDuration_positive Float64.binary64 binary64_accurate 185)
    as [H _]; [lia | exact H].
Defined.

(** The longest duration covered: [2^53 - 1] seconds. *)
Example formatDuration_longest :
  Float64.formatDuration Float64.binary64 (Number (IZR (2 ^ 53 - 1)))
  = "150119987579016:31".
Proof.
  destruct (formatDuration_whole_seconds Float64.binary64 binary64_accurate
              (2 ^ 53 - 1))
    as [H _]; [lia | exact H].
Qed.

End DurationsInBinary64.

(** ** The biquad filter in doubles *)

Section RoundedBiquad.
Local Open Scope R_scope.
Context (A : Float64.Arith).

Lemma length_rounded_biquadLoop (bq aq : list R) (z1 z2 : R) (samples : list R) :
  length (Float64.biquadLoop A bq aq z1 z2 samples) = length samples.
Proof.
  revert z1 z2. induction samples as [| x rest IH]; intros z1 z2; cbn;
    [reflexivity |].
  now rewrite IH.
Qed.

Lemma rounded_biquadLoop_app (bq aq : list R) (z1 z2 : R) (xs ys : list R) :
  exists z1' z2',
    Float64.biquadLoop A bq aq z1 z2 (xs ++ ys)
    = Float64.biquadLoop A bq aq z1 z2 xs ++ Float64.biquadLoop A bq aq z1' z2' ys.
Proof.
  revert z1 z2. induction xs as [| x xs IH]; intros z1 z2; cbn.
  - now exists z1, z2.
  - match goal with
    | |- context [Float64.biquadLoop A bq aq ?w1 ?w2 (xs ++ ys)] =>
        destruct (IH w1 w2) as (z1' & z2' & ->)
    end.
    now exists z1', z2'.
Qed.

(** Whatever the rounding, [applyBiquad] keeps the number of samples and
    is causal: the first samples of the output depend on the first samples
    of the input only; on the empty signal it does nothing. *)
Theorem applyBiquad_causal (bq aq : list R) (xs ys : list R) :
  length (Float64.applyBiquad A xs bq aq) = length xs
  /\ take (length xs) (Float64.applyBiquad A (xs ++ ys) bq aq)
     = Float64.applyBiquad A xs bq aq
  /\ Float64.applyBiquad A [] bq aq = [].
Proof.
  unfold Float64.applyBiquad. split; [apply length_rounded_biquadLoop |]. split.
  - destruct (rounded_biquadLoop_app bq aq 0 0 xs ys) as (z1 & z2 & ->).
    rewrite take_app_length'; [reflexivity |].
    symmetry. apply length_rounded_biquadLoop.
  - reflexivity.
Qed.

Hypothesis Hsym : Float64.Symmetric A.

Lemma fl_mult_opp (c x : R) : Float64.fl A (c * - x) = - Float64.fl A (c * x).
Proof. rewrite <- Ropp_mult_distr_r. apply (Float64.fl_opp A Hsym). Qed.

Lemma fl_minus_opp (p q : R) : Float64.fl A (- p - - q) = - Float64.fl A (p - q).
Proof.
  replace (- p - - q) with (- (p - q)) by ring. apply (Float64.fl_opp A Hsym).
Qed.

Lemma fl_plus_opp (p q : R) : Float64.fl A (- p + - q) = - Float64.fl A (p + q).
Proof. rewrite <- Ropp_plus_distr. apply (Float64.fl_opp A Hsym). Qed.

Lemma rounded_biquadLoop_opp (bq aq : list R) (z1 z2 : R) (samples : list R) :
  Float64.biquadLoop A bq aq (- z1) (- z2) (map Ropp samples)
  = map Ropp (Float64.biquadLoop A bq aq z1 z2 samples).
Proof.
  revert z1 z2. induction samples as [| x rest IH]; intros z1 z2; cbn;
    [reflexivity |].
  rewrite !fl_mult_opp, fl_plus_opp, !fl_mult_opp, !fl_minus_opp, !fl_plus_opp.
  rewrite (Float64.fround_opp A Hsym), IH. reflexivity.
Qed.


End RoundedBiquad.

Section BiquadInBinary64.
Local Open Scope R_scope.


End BiquadInBinary64.

(** ** The two readings agree where nothing is rounded *)

Section Readings.

Lemma biquadLoop_exact (bq aq : list R) (z1 z2 : R) (samples : list R) :
  Float64.biquadLoop Float64.exact bq aq z1 z2 samples
  = biquadLoop bq aq z1 z2 samples.
Proof.
  revert z1 z2. induction samples as [| x rest IH]; intros z1 z2; cbn;
    [reflexivity |].
  now rewrite IH.
Qed.

Lemma computeGain_exact (s : State) (trackId : string) :
  Float64.computeGain Float64.exact s trackId = computeGain s trackId.
Proof. reflexivity. Qed.

Lemma formatDuration_exact (seconds : JSValue) :
  Float64.formatDuration Float64.exact seconds = formatDuration seconds.
Proof. reflexivity. Qed.

End Readings.
